(** * pygmmis: Gaussian mixture fitting with incomplete data

    A shallow embedding of [pygmmis.py] (the EM engine, its driver, the
    split-and-merge revision, sampling and cross-validation) together with
    the properties its specification states about it.

    Conventions of the embedding.
    - A numpy float64 is an extended rational [fl]: a finite value, a signed
      infinity or NaN.  Arithmetic is exact on finite values (rounding and
      the sign of zero are not modelled) and follows IEEE 754 on the
      non-finite ones, so that [0/0] is NaN and [x/0] an infinity, as numpy
      computes them (with a warning, never an exception).
    - A 1-d array is a [list fl], a 2-d array a list of rows, the covariance
      tensor a list of matrices.  Arrays are assumed well shaped: an index
      out of range reads the default NaN (numpy would raise IndexError).
    - Python exceptions are the left summand of [result].
    - Transcendental functions, LAPACK, scipy.stats and the random number
      generator are the fields of the classes [NumPy] and [RandomState]. *)

From Stdlib Require Import QArith Qreduction List Bool Arith ZArith Lia Lqa.
Import ListNotations.

Set Implicit Arguments.

(** ** Exceptions *)

Inductive exn : Type :=
| RuntimeError
| ValueError
| IndexError
| AttributeError
| TypeError
| OverflowError
| LinAlgError.

Inductive result (A : Type) : Type :=
| Ok (a : A)
| Raise (e : exn).
Arguments Ok {A} a.
Arguments Raise {A} e.

Definition bind {A B} (m : result A) (f : A -> result B) : result B :=
  match m with
  | Ok a => f a
  | Raise e => Raise e
  end.

Notation "x <- m ;; k" := (bind m (fun x => k))
  (at level 61, m at next level, right associativity).
Notation "' p <- m ;; k" := (bind m (fun x => let p := x in k))
  (at level 61, p pattern, m at next level, right associativity).

Fixpoint mapM {A B} (f : A -> result B) (l : list A) : result (list B) :=
  match l with
  | [] => Ok []
  | a :: l' => b <- f a ;; bs <- mapM f l' ;; Ok (b :: bs)
  end.

(** ** Extended rationals standing for float64 *)

Inductive fl : Type :=
| Fin (q : Q)
| Inf (neg : bool)
| NaN.

Declare Scope fl_scope.
Delimit Scope fl_scope with fl.
Bind Scope fl_scope with fl.

Definition Qltb (a b : Q) : bool := negb (Qle_bool b a).
Definition Qzero (a : Q) : bool := Qeq_bool a 0.

Definition of_Z (z : Z) : fl := Fin (inject_Z z).
Definition of_nat (n : nat) : fl := of_Z (Z.of_nat n).
Definition f0 : fl := Fin 0.
Definition f1 : fl := Fin 1.

Definition fneg (a : fl) : fl :=
  match a with
  | Fin q => Fin (Qred (- q))
  | Inf s => Inf (negb s)
  | NaN => NaN
  end.

Definition fadd (a b : fl) : fl :=
  match a, b with
  | Fin x, Fin y => Fin (Qred (x + y))
  | Fin _, Inf s => Inf s
  | Inf s, Fin _ => Inf s
  | Inf s, Inf t => if Bool.eqb s t then Inf s else NaN
  | _, _ => NaN
  end.

Definition fsub (a b : fl) : fl := fadd a (fneg b).

Definition fmul (a b : fl) : fl :=
  match a, b with
  | Fin x, Fin y => Fin (Qred (x * y))
  | Fin x, Inf s => if Qzero x then NaN else Inf (xorb s (Qltb x 0))
  | Inf s, Fin y => if Qzero y then NaN else Inf (xorb s (Qltb y 0))
  | Inf s, Inf t => Inf (xorb s t)
  | _, _ => NaN
  end.

(** Division never raises on a float array: [0/0] is NaN, [x/0] is an
    infinity with the sign of [x], [x/inf] is zero. *)
Definition fdiv (a b : fl) : fl :=
  match a, b with
  | Fin x, Fin y =>
      if Qzero y then (if Qzero x then NaN else Inf (Qltb x 0))
      else Fin (Qred (x / y))
  | Fin _, Inf _ => Fin 0
  | Inf s, Fin y => Inf (xorb s (Qltb y 0))
  | _, _ => NaN
  end.

(** [a < b]; every comparison with NaN is false. *)
Definition fltb (a b : fl) : bool :=
  match a, b with
  | Fin x, Fin y => Qltb x y
  | Fin _, Inf s => negb s
  | Inf s, Fin _ => s
  | Inf s, Inf t => s && negb t
  | _, _ => false
  end.

Definition fgtb (a b : fl) : bool := fltb b a.

(** [a >= b]. *)
Definition fgeb (a b : fl) : bool :=
  match a, b with
  | Fin x, Fin y => Qle_bool y x
  | Fin _, Inf s => s
  | Inf s, Fin _ => negb s
  | Inf s, Inf t => negb s || t
  | _, _ => false
  end.

(** [a == b] of Python: false on NaN. *)
Definition feqb (a b : fl) : bool :=
  match a, b with
  | Fin x, Fin y => Qeq_bool x y
  | Inf s, Inf t => Bool.eqb s t
  | _, _ => false
  end.

(** Python's builtin [min(a, b)]: [b] when [b < a], else [a]. *)
Definition py_min (a b : fl) : fl := if fltb b a then b else a.

(** numpy's [min] and [max] of two entries propagate NaN. *)
Definition np_min2 (a b : fl) : fl :=
  match a, b with
  | NaN, _ | _, NaN => NaN
  | _, _ => if fltb b a then b else a
  end.
Definition np_max2 (a b : fl) : fl :=
  match a, b with
  | NaN, _ | _, NaN => NaN
  | _, _ => if fltb a b then b else a
  end.

Infix "+" := fadd : fl_scope.
Infix "-" := fsub : fl_scope.
Infix "*" := fmul : fl_scope.
Infix "/" := fdiv : fl_scope.
Notation "- x" := (fneg x) : fl_scope.

(** Equality of values, up to the representation of the rational. *)
Definition feq (a b : fl) : Prop :=
  match a, b with
  | Fin x, Fin y => x == y
  | Inf s, Inf t => s = t
  | NaN, NaN => True
  | _, _ => False
  end.

(** A finite, non-negative value. *)
Definition nonneg (a : fl) : Prop :=
  match a with
  | Fin x => 0 <= x
  | _ => False
  end.

Definition is_nan (a : fl) : bool :=
  match a with NaN => true | _ => false end.

(** ** Arrays *)

Definition vec := list fl.
Definition mat := list (list fl).

Definition zipWith {A B C} (f : A -> B -> C) (l : list A) (m : list B) : list C :=
  map (fun p => f (fst p) (snd p)) (combine l m).

(** [a.sum()]: accumulation from zero, left to right. *)
Definition fsum (l : vec) : fl := fold_left fadd l f0.

Definition np_min (l : vec) : fl :=
  match l with [] => NaN | a :: l' => fold_left np_min2 l' a end.
Definition np_max (l : vec) : fl :=
  match l with [] => NaN | a :: l' => fold_left np_max2 l' a end.

Definition vadd (u v : vec) : vec := zipWith fadd u v.
Definition vsub (u v : vec) : vec := zipWith fsub u v.
Definition vscale (c : fl) (v : vec) : vec := map (fmul c) v.
Definition vdivs (v : vec) (c : fl) : vec := map (fun x => fdiv x c) v.
Definition madd (a b : mat) : mat := zipWith vadd a b.
Definition msub (a b : mat) : mat := zipWith vsub a b.
Definition mscale (c : fl) (a : mat) : mat := map (vscale c) a.
Definition mdivs (a : mat) (c : fl) : mat := map (fun r => vdivs r c) a.

Definition zeros (n : nat) : vec := repeat f0 n.
Definition zeros2 (n m : nat) : mat := repeat (zeros m) n.

(** [np.eye(D)]. *)
Definition eye (D : nat) : mat :=
  map (fun i => map (fun j => if Nat.eqb i j then f1 else f0) (seq 0 D)) (seq 0 D).

(** Sum of arrays along axis 0, starting from the zero array. *)
Definition vsum (D : nat) (l : list vec) : vec := fold_left vadd l (zeros D).
Definition msum (D : nat) (l : list mat) : mat := fold_left madd l (zeros2 D D).

Definition dot (u v : vec) : fl := fsum (zipWith fmul u v).
Definition matvec (a : mat) (v : vec) : vec := map (fun r => dot r v) a.
Definition transpose (D : nat) (a : mat) : mat :=
  map (fun j => map (fun r => nth j r NaN) a) (seq 0 D).
Definition matmul (D : nat) (a b : mat) : mat :=
  map (fun r => map (fun c => dot r c) (transpose D b)) a.

(** [d[:, None] * d[None, :]]. *)
Definition outer (u v : vec) : mat := map (fun x => map (fun y => fmul x y) v) u.

(** [np.einsum('...i,...ij,...j', dx, T, dx)] for one row [dx]. *)
Definition quad (dx : vec) (T : mat) : fl := dot dx (matvec T dx).

(** Indexing. *)
Definition at_ {A} (d : A) (l : list A) (k : nat) : A := nth k l d.
Definition take_idx {A} (d : A) (l : list A) (idx : list nat) : list A :=
  map (at_ d l) idx.
(** [l[m]] for a boolean mask [m]. *)
Fixpoint take_mask {A} (l : list A) (m : list bool) : list A :=
  match l, m with
  | a :: l', b :: m' => if b then a :: take_mask l' m' else take_mask l' m'
  | _, _ => []
  end.
(** [np.flatnonzero(m)]. *)
Definition flatnonzero (m : list bool) : list nat :=
  take_mask (seq 0 (length m)) m.
(** [l[k] = v] in place. *)
Fixpoint set_at {A} (l : list A) (k : nat) (v : A) : list A :=
  match l, k with
  | [], _ => []
  | _ :: l', O => v :: l'
  | a :: l', S k' => a :: set_at l' k' v
  end.
(** [l[idx] = vs] for an index array: assignments in order, the last one
    to an index wins. *)
Fixpoint set_idx {A} (l : list A) (idx : list nat) (vs : list A) : list A :=
  match idx, vs with
  | k :: idx', v :: vs' => set_idx (set_at l k v) idx' vs'
  | _, _ => l
  end.
(** [l[m] = vs] for a boolean mask. *)
Fixpoint set_mask {A} (l : list A) (m : list bool) (vs : list A) : list A :=
  match l, m with
  | a :: l', b :: m' =>
      if b then match vs with
                | v :: vs' => v :: set_mask l' m' vs'
                | [] => a :: l'
                end
      else a :: set_mask l' m' vs
  | _, _ => l
  end.
Definition count_true (m : list bool) : nat := length (filter (fun b => b) m).
Definition mem (k : nat) (l : list nat) : bool := existsb (Nat.eqb k) l.

(** ** numpy, scipy and the random number generator *)

(** The numerical library: element-wise transcendental functions, LAPACK
    drivers and the two scipy.stats distributions that [chi2_cutoff] uses.
    [linalg_inv] and [linalg_svd] raise [LinAlgError]; the others only
    return non-finite values. *)
Class NumPy : Type := {
  np_exp : fl -> fl;
  np_log : fl -> fl;
  np_sqrt : fl -> fl;
  np_power : fl -> fl -> fl;
  np_pi : fl;
  linalg_inv : mat -> result mat;
  linalg_slogdet : mat -> fl * fl;
  linalg_det : mat -> fl;
  linalg_svd : mat -> result (mat * vec * mat);
  linalg_eigh : mat -> result (vec * mat);
  norm_cdf : fl -> fl;
  chi2_ppf : fl -> nat -> fl
}.

(** A [numpy.random.RandomState]: the generator's state is threaded
    through every draw. *)
Class RandomState : Type := {
  rng_t : Type;
  (** [rng.choice(K, size=size, p=p)]; raises ValueError on a [p] that is
      no probability vector. *)
  rng_choice : nat -> nat -> vec -> rng_t -> result (list nat * rng_t);
  (** [rng.multivariate_normal(mean, cov, size=n)]. *)
  rng_multivariate_normal : vec -> mat -> nat -> rng_t -> list vec * rng_t;
  (** [rng.rand(n, d)]. *)
  rng_rand : nat -> nat -> rng_t -> list vec * rng_t
}.

(** What numpy documents about the shapes of the draws. *)
Class RandomStateShapes (R : RandomState) : Prop := {
  rng_choice_length : forall K size p st ind st',
      rng_choice K size p st = Ok (ind, st') -> length ind = size;
  rng_choice_range : forall K size p st ind st',
      rng_choice K size p st = Ok (ind, st') -> Forall (fun k => (k < K)%nat) ind;
  rng_multivariate_normal_length : forall m c n st,
      length (fst (rng_multivariate_normal m c n st)) = n
}.

(** [np.finfo(float64).tiny] and [.max]. *)
Definition float_tiny : fl := Fin (1 # (2 ^ 1022)).
Definition float_max : fl := Fin (inject_Z (2 ^ 1024 - 2 ^ 971)).

Definition half : fl := Fin (1 # 2).
Definition two : fl := Fin 2.
Definition four : fl := Fin 4.
Definition quarter : fl := Fin (1 # 4).

Section Model.

Context {np : NumPy} {R : RandomState}.

(** [logsum(logX)] on a 1-d array.  [logX.min()] raises ValueError on an
    empty array. *)
Definition logsum (logX : vec) : result fl :=
  match logX with
  | [] => Raise ValueError
  | _ =>
      let underflow := (np_log float_tiny - np_min logX)%fl in
      let overflow :=
        (np_log float_max - np_max logX - np_log (of_nat (length logX)))%fl in
      let c := if fltb underflow overflow then underflow else overflow in
      Ok (np_log (fsum (map (fun x => np_exp (x + c)%fl) logX)) - c)%fl
  end.

Definition chi2_cutoff (D : nat) (cutoff : fl) : fl :=
  let cdf_1d := norm_cdf cutoff in
  let confidence_1d := (f1 - (f1 - cdf_1d) * two)%fl in
  chi2_ppf confidence_1d D.

(** ** The mixture *)

(** [D] is [mean.shape[1]]: it is kept beside the arrays so that a mixture
    without components still has a dimension. *)
Record GMM : Type := mkGMM {
  amp : vec;
  mean : list vec;
  covar : list mat;
  D : nat
}.

Definition K (gmm : GMM) : nat := length (amp gmm).

(** [np.bincount(ind, minlength=K)]. *)
Definition bincount (ind : list nat) (minlength : nat) : list nat :=
  let n := match ind with
           | [] => minlength
           | _ => Nat.max minlength (S (list_max ind))
           end in
  map (fun k => count_occ Nat.eq_dec ind k) (seq 0 n).

Definition flatnonzero_nat (N : list nat) : list nat :=
  flatnonzero (map (fun n => negb (Nat.eqb n 0)) N).

(** A selection callback sees the batch and, from [_I], the model; it may
    consume random numbers. *)
Definition sel_cb : Type := list vec -> option GMM -> rng_t -> list bool * rng_t.

(** The loop of [draw] over [np.flatnonzero(N)]: the rows drawn for the
    components fill [samples] from the top. *)
Fixpoint draw_components (gmm : GMM) (N : list nat) (ks : list nat) (st : rng_t)
  : list vec * rng_t :=
  match ks with
  | [] => ([], st)
  | k :: ks' =>
      let '(rows, st1) :=
        rng_multivariate_normal (at_ [] (mean gmm) k) (at_ [] (covar gmm) k)
                                (at_ O N k) st in
      let '(rest, st2) := draw_components gmm N ks' st1 in
      (rows ++ rest, st2)
  end.

(** [GMM.draw].  [depth] is the number of interpreter frames left: running
    out of them is Python 2's RuntimeError "maximum recursion depth
    exceeded". *)
Fixpoint draw_rec (depth : nat) (gmm : GMM) (size : nat) (sel_callback : option sel_cb)
         (invert_callback : bool) (st : rng_t) : result (list vec * rng_t) :=
  match depth with
  | O => Raise RuntimeError
  | S depth' =>
      '(ind, st1) <- rng_choice (K gmm) size (vdivs (amp gmm) (fsum (amp gmm))) st ;;
      let N := bincount ind (K gmm) in
      let '(samples, st2) := draw_components gmm N (flatnonzero_nat N) st1 in
      match sel_callback with
      | None => Ok (samples, st2)
      | Some cb =>
          let '(sel0, st3) := cb samples None st2 in
          let sel_ := if invert_callback then map negb sel0 else sel0 in
          let size_in := count_true sel_ in
          if Nat.eqb size_in size then Ok (samples, st3)
          else
            '(ssamples, st4) <-
               draw_rec depth' gmm (size - size_in) sel_callback invert_callback st3 ;;
            Ok (take_mask samples sel_ ++ ssamples, st4)
      end
  end.

(** A selection that judges every point by itself, by [accept]. *)
Definition pointwise (cb : sel_cb) (accept : vec -> bool) : Prop :=
  forall batch g st, fst (cb batch g st) = map accept batch.

(** The batch that a call of [draw] for [size] points draws, and the
    mask that the callback, inverted or not, gives it. *)
Definition first_batch (gmm : GMM) (size : nat) (st : rng_t)
  : result (list vec * rng_t) :=
  '(ind, st1) <- rng_choice (K gmm) size (vdivs (amp gmm) (fsum (amp gmm))) st ;;
  let N := bincount ind (K gmm) in
  Ok (draw_components gmm N (flatnonzero_nat N) st1).

Definition batch_mask (cb : sel_cb) (invert_callback : bool) (samples : list vec)
           (st : rng_t) : list bool * rng_t :=
  let '(sel0, st3) := cb samples None st in
  (if invert_callback then map negb sel0 else sel0, st3).

(** Nonzero acceptance: every batch that is not empty holds a point that
    the selection, inverted or not, lets pass. *)
Definition accepts_some (gmm : GMM) (cb : sel_cb) (invert_callback : bool) : Prop :=
  forall size st samples st2,
    (0 < size)%nat -> first_batch gmm size st = Ok (samples, st2) ->
    (0 < count_true (fst (batch_mask cb invert_callback samples st2)))%nat.

(** [sys.getrecursionlimit()] of CPython. *)
Definition recursion_limit : nat := 1000.

Definition draw := draw_rec recursion_limit.

(** ** The background *)

Record Background : Type := mkBackground {
  bg_amp : fl;
  footprint : vec * vec;
  adjust_amp : bool;
  amp_max : fl
}.

Definition fprod (l : vec) : fl := fold_left fmul l f1.

(** [Background.p]. *)
Definition bg_p (b : Background) : fl :=
  let volume := fprod (vsub (snd (footprint b)) (fst (footprint b))) in
  (f1 / volume)%fl.

(** [Background.draw]. *)
Definition bg_draw (b : Background) (size : nat) (st : rng_t) : list vec * rng_t :=
  let dx := vsub (snd (footprint b)) (fst (footprint b)) in
  let '(u, st1) := rng_rand size (length (fst (footprint b))) st in
  (map (fun r => vadd (fst (footprint b)) (zipWith fmul dx r)) u, st1).

Definition with_amp (b : Background) (a : fl) : Background :=
  mkBackground a (footprint b) (adjust_amp b) (amp_max b).

End Model.

(** ** The E-step *)

(** The [covar] argument of the fit functions, and an entry of [T_inv]:
    [None], one [(D, D)] matrix for all samples, or one matrix per
    sample. *)
Inductive cov_arg : Type :=
| NoCov
| OneCov (c : mat)
| EachCov (cs : list mat).

(** A neighborhood [U[k]]: [None] (all samples), an index array, or the
    boolean membership mask [H] that the background variant stores. *)
Inductive nbh : Type :=
| All
| Idx (l : list nat)
| Mask (m : list bool).

(** [a[U_k]]. *)
Definition sel_nbh {A} (d : A) (a : list A) (u : nbh) : list A :=
  match u with
  | All => a
  | Idx l => take_idx d a l
  | Mask m => take_mask a m
  end.

(** [a[U_k] = vs]. *)
Definition put_nbh {A} (a : list A) (u : nbh) (vs : list A) : list A :=
  match u with
  | All => map snd (combine a vs)
  | Idx l => set_idx a l vs
  | Mask m => set_mask a m vs
  end.

(** [U_k[indices]], and [np.flatnonzero(indices)] when [U_k] is None. *)
Definition restrict_nbh (u : nbh) (indices : list bool) : nbh :=
  match u with
  | All => Idx (flatnonzero indices)
  | Idx l => Idx (take_mask l indices)
  | Mask m => Mask (take_mask m indices)
  end.

(** [T_inv_k[indices]] where there is one matrix per sample. *)
Definition restrict_cov (t : cov_arg) (indices : list bool) : cov_arg :=
  match t with
  | EachCov ts => EachCov (take_mask ts indices)
  | _ => t
  end.

Section EStep.

Context {np : NumPy}.

Definition log2piD2 (gmm : GMM) : fl :=
  (np_log (two * np_pi) * (half * of_nat (D gmm)))%fl.

(** The squared Mahalanobis distances [chi2] of the candidates of
    component [k], with the inverse covariances [T_inv_k] they are taken
    in. *)
Definition chi2_k (k : nat) (U_k : nbh) (gmm : GMM) (data : list vec) (cov : cov_arg)
  : result (cov_arg * vec) :=
  let dx := map (fun x => vsub x (at_ [] (mean gmm) k)) (sel_nbh [] data U_k) in
  match cov with
  | NoCov =>
      C_inv <- linalg_inv (at_ [] (covar gmm) k) ;;
      Ok (NoCov, map (fun d => quad d C_inv) dx)
  | OneCov c =>
      T_inv_k <- linalg_inv (madd (at_ [] (covar gmm) k) c) ;;
      Ok (OneCov T_inv_k, map (fun d => quad d T_inv_k) dx)
  | EachCov cs =>
      T_inv_k <- mapM (fun c => linalg_inv (madd (at_ [] (covar gmm) k) c))
                      (sel_nbh [] cs U_k) ;;
      Ok (EachCov T_inv_k, zipWith quad dx T_inv_k)
  end.

(** The samples that [_Esum] considers for a component: the previous
    neighborhood, or all [n] samples when it is None. *)
Definition candidates (U_k : nbh) (n : nat) : list nat :=
  match U_k with
  | All => seq 0 n
  | Idx l => l
  | Mask m => flatnonzero m
  end.

(** The covariance in which sample [i] is seen from component [k]: the
    covariance of the component, plus the noise covariance of the sample
    when there is one. *)
Definition total_cov (gmm : GMM) (k : nat) (cov : cov_arg) (i : nat) : mat :=
  match cov with
  | NoCov => at_ [] (covar gmm) k
  | OneCov c => madd (at_ [] (covar gmm) k) c
  | EachCov cs => madd (at_ [] (covar gmm) k) (at_ [] cs i)
  end.

(** Its inverse, where numpy finds one. *)
Definition inv_at (gmm : GMM) (k : nat) (cov : cov_arg) (i : nat) : mat :=
  match linalg_inv (total_cov gmm k cov i) with
  | Ok T => T
  | Raise _ => []
  end.

(** The squared Mahalanobis distance of [x] to [mu] under the inverse
    covariance [T_inv]. *)
Definition mahalanobis2 (T_inv : mat) (x mu : vec) : fl := quad (vsub x mu) T_inv.

(** The covariances come one per sample where they come per sample. *)
Definition cov_shape (cov : cov_arg) (n : nat) : Prop :=
  match cov with
  | EachCov cs => length cs = n
  | _ => True
  end.

Definition is_mask (u : nbh) : bool :=
  match u with Mask _ => true | _ => false end.

(** [_Esum]: log p(x | k) for the samples in the vicinity of [k]. *)
Definition _Esum (k : nat) (U_k : nbh) (gmm : GMM) (data : list vec) (cov : cov_arg)
           (cutoff : option fl) : result (vec * nbh * cov_arg) :=
  '(T_inv_k, chi2) <- chi2_k k U_k gmm data cov ;;
  let '(chi2, T_inv_k, U_k) :=
    match cutoff with
    | Some c =>
        let indices := map (fun x => fltb x c) chi2 in
        (take_mask chi2 indices, restrict_cov T_inv_k indices, restrict_nbh U_k indices)
    | None => (chi2, T_inv_k, U_k)
    end in
  let '(sign, logdet) := linalg_slogdet (at_ [] (covar gmm) k) in
  Ok (map (fun x => (np_log (at_ NaN (amp gmm) k) - log2piD2 gmm
                     - sign * logdet / two - x / two)%fl) chi2,
      U_k, T_inv_k).

(** [parmap.starmap(_Esum, zip(xrange(gmm.K), U), ...)]: the results in
    the order of the components; an exception in a worker is raised in the
    caller. *)
Definition Esum_all (gmm : GMM) (U : list nbh) (data : list vec) (cov : cov_arg)
           (cutoff : option fl) : result (list (vec * nbh * cov_arg)) :=
  mapM (fun p => _Esum (fst p) (snd p) gmm data cov cutoff)
       (combine (seq 0 (K gmm)) U).

(** [log_S[U[k]] += np.exp(log_p[k])] and [H[U[k]] = 1], component after
    component. *)
Fixpoint accumulate (res : list (vec * nbh * cov_arg)) (log_S : vec) (H : list bool)
  : vec * list bool :=
  match res with
  | [] => (log_S, H)
  | (log_p_k, U_k, _) :: res' =>
      let log_S' :=
        put_nbh log_S U_k (vadd (sel_nbh NaN log_S U_k) (map np_exp log_p_k)) in
      let H' := put_nbh H U_k (map (fun _ => true) (sel_nbh false H U_k)) in
      accumulate res' log_S' H'
  end.

Definition np_mean (l : vec) : fl := (fsum l / of_nat (length l))%fl.

(** The working arrays that the fit functions share and mutate. *)
Record buffers : Type := mkBuffers {
  log_p : list vec;
  U : list nbh;
  T_inv : list cov_arg;
  log_S : vec;
  H : list bool
}.

(** [_Estep].  The mixture and the background are only read. *)
Definition _Estep (gmm : GMM) (b : buffers) (data : list vec) (cov : cov_arg)
           (background : option Background) (cutoff : option fl)
  : result (fl * buffers) :=
  match background with
  | None =>
      res <- Esum_all gmm (U b) data cov cutoff ;;
      let '(Ssum, H') := accumulate res (map (fun _ => f0) (log_S b))
                                 (map (fun _ => false) (H b)) in
      let log_S' := set_mask Ssum H' (map np_log (take_mask Ssum H')) in
      let log_L := np_mean (take_mask log_S' H') in
      Ok (log_L,
          mkBuffers (map (fun r => fst (fst r)) res) (map (fun r => snd (fst r)) res)
                    (map snd res) log_S' H')
  | Some bg =>
      let U0 := set_idx (U b) (seq 0 (K gmm)) (repeat All (K gmm)) in
      res <- Esum_all gmm U0 data cov None ;;
      let Ssum := fold_left (fun s r => vadd s (map np_exp (fst (fst r)))) res
                         (map (fun _ => f0) (log_S b)) in
      let p_bg := (bg_amp bg * bg_p bg)%fl in
      let q_bg := map (fun s => (p_bg / (p_bg + (f1 - bg_amp bg) * s))%fl) Ssum in
      let H' := map (fun q => fltb q half) q_bg in
      let log_L :=
        np_mean (map (fun s => np_log ((f1 - bg_amp bg) * s + bg_amp bg * bg_p bg)%fl) Ssum) in
      Ok (log_L,
          mkBuffers (map (fun r => take_mask (fst (fst r)) H') res)
                    (map (fun _ => Mask H') res)
                    (map (fun r => restrict_cov (snd r) H') res)
                    (map np_log Ssum) H')
  end.

End EStep.

(** ** The M-step *)

Section MStep.

Context {np : NumPy}.

(** What [_Msums] returns: the three scalars [0, 0, 0] for a component
    without samples, the sums otherwise. *)
Inductive sums : Type :=
| Zero3
| Sums (A_k : fl) (M_k : vec) (C_k : mat).

(** [_Msums].  The worker receives a copy of [log_p_k]: its in-place
    normalisation is not seen by the caller. *)
Definition _Msums (k : nat) (U_k : nbh) (log_p_k : vec) (T_inv_k : cov_arg)
           (gmm : GMM) (data : list vec) (log_S : vec) : result sums :=
  if negb (Nat.eqb (length log_p_k) 0) then
    let log_p_k := vsub log_p_k (sel_nbh NaN log_S U_k) in
    lsum <- logsum log_p_k ;;
    let A_k := np_exp lsum in
    let q_k := map np_exp log_p_k in
    let d := sel_nbh [] data U_k in
    let mean_k := at_ [] (mean gmm) k in
    let covar_k := at_ [] (covar gmm) k in
    let d_m := map (fun x => vsub x mean_k) d in
    match T_inv_k with
    | NoCov =>
        let M_k := vsum (D gmm) (zipWith (fun x q => vscale q x) d q_k) in
        let C_k := msum (D gmm) (zipWith (fun q x => mscale q (outer x x)) q_k d_m) in
        Ok (Sums A_k M_k C_k)
    | OneCov T =>
        let b_k := map (fun x => vadd mean_k (matvec covar_k (matvec T x))) d_m in
        let M_k := vsum (D gmm) (zipWith (fun b q => vscale q b) b_k q_k) in
        let b_k := map (fun b => vsub b mean_k) b_k in
        let B_k := msub covar_k (matmul (D gmm) covar_k (matmul (D gmm) T covar_k)) in
        let C_k :=
          msum (D gmm) (zipWith (fun q b => mscale q (madd (outer b b) B_k)) q_k b_k) in
        Ok (Sums A_k M_k C_k)
    | EachCov Ts =>
        let b_k :=
          zipWith (fun T x => vadd mean_k (matvec covar_k (matvec T x))) Ts d_m in
        let M_k := vsum (D gmm) (zipWith (fun b q => vscale q b) b_k q_k) in
        let b_k := map (fun b => vsub b mean_k) b_k in
        let B_k :=
          map (fun T => msub covar_k (matmul (D gmm) covar_k (matmul (D gmm) T covar_k)))
              Ts in
        let C_k :=
          msum (D gmm)
               (zipWith (fun q bB => mscale q (madd (outer (fst bB) (fst bB)) (snd bB)))
                        q_k (combine b_k B_k)) in
        Ok (Sums A_k M_k C_k)
    end
  else Ok Zero3.

(** The statistics of the observed (or of the imputed) sample: the
    arrays [A], [M], [C] of [_Mstep], the count [N] and the background
    mass [B]. *)
Record stats : Type := mkStats {
  sA : vec;
  sM : list vec;
  sC : list mat;
  sN : nat;
  sB : option fl
}.

(** The assignment [A[k], M[k,:], C[k,:,:] = ...] broadcasts the scalars
    of [Zero3]. *)
Definition bcast_A (s : sums) : fl :=
  match s with Zero3 => f0 | Sums a _ _ => a end.
Definition bcast_M (D : nat) (s : sums) : vec :=
  match s with Zero3 => zeros D | Sums _ m _ => m end.
Definition bcast_C (D : nat) (s : sums) : mat :=
  match s with Zero3 => zeros2 D D | Sums _ _ c => c end.

(** [_Mstep]. *)
Definition _Mstep (gmm : GMM) (b : buffers) (data : list vec)
           (background : option Background) : result stats :=
  let N := count_true (H b) in
  res <- mapM (fun a =>
                 let '(k, U_k, log_p_k, T_inv_k) := a in
                 _Msums k U_k log_p_k T_inv_k gmm data (log_S b))
              (combine (combine (combine (seq 0 (K gmm)) (U b)) (log_p b)) (T_inv b)) ;;
  let B :=
    match background with
    | None => None
    | Some bg =>
        let p_bg := (bg_amp bg * bg_p bg)%fl in
        Some (fsum (map (fun s => (p_bg / (p_bg + (f1 - bg_amp bg) * np_exp s))%fl)
                        (log_S b)))
    end in
  Ok (mkStats (map bcast_A res) (map (bcast_M (D gmm)) res) (map (bcast_C (D gmm)) res)
              N B).

End MStep.

(** ** The parameter update *)

(** The sums of the imputed sample as [_update] receives them: the
    integer [0] for each of [A2], [M2], [C2], [B2], [H2] when nothing was
    imputed, the arrays of the second [_Mstep] and [H2.size] otherwise. *)
Definition imputed : Type := option (stats * nat).

(** [A + A2], [M + M2], [C + C2]. *)
Definition plus_A (A : vec) (i : imputed) : vec :=
  match i with
  | None => map (fun a => (a + f0)%fl) A
  | Some (s2, _) => vadd A (sA s2)
  end.
Definition plus_M (M : list vec) (i : imputed) : list vec :=
  match i with
  | None => map (map (fun a => (a + f0)%fl)) M
  | Some (s2, _) => zipWith vadd M (sM s2)
  end.
Definition plus_C (C : list mat) (i : imputed) : list mat :=
  match i with
  | None => map (map (map (fun a => (a + f0)%fl))) C
  | Some (s2, _) => zipWith madd C (sC s2)
  end.

(** The components that [changed] selects. *)
Definition is_changed (altered : option (list nat)) (k : nat) : bool :=
  match altered with
  | None => true
  | Some alt => mem k alt
  end.

(** The new amplitudes, before and after the renormalisation
    [gmm.amp /= gmm.amp.sum()]. *)
Definition update_amp_raw (gmm : GMM) (A12 : vec) (N12 : nat) (altered : option (list nat))
  : vec :=
  match altered with
  | None => map (fun k => (at_ NaN A12 k / of_nat N12)%fl) (seq 0 (K gmm))
  | Some alt =>
      let unaltered := map (fun k => negb (mem k alt)) (seq 0 (K gmm)) in
      let total := fsum (take_idx NaN A12 alt) in
      let rest := (f1 - fsum (take_mask (amp gmm) unaltered))%fl in
      set_idx (amp gmm) alt (map (fun a => (a / total * rest)%fl) (take_idx NaN A12 alt))
  end.

Definition update_amp (gmm : GMM) (A12 : vec) (N12 : nat) (altered : option (list nat))
  : vec :=
  let raw := update_amp_raw gmm A12 N12 altered in
  vdivs raw (fsum raw).

(** [_update]: the M-step for all components from the sums of the data
    and of the imputed sample.  [N2] is the count that [_EMstep] holds
    when it calls. *)
Definition _update (gmm : GMM) (s : stats) (Hsize : nat) (i : imputed) (N2 : nat)
           (w : fl) (altered : option (list nat)) (background : option Background)
  : GMM * option Background :=
  let A12 := plus_A (sA s) i in
  let M12 := plus_M (sM s) i in
  let C12 := plus_C (sC s) i in
  let N12 := (sN s + N2)%nat in
  let amp' := update_amp gmm A12 N12 altered in
  let ks := seq 0 (K gmm) in
  let mean' :=
    map (fun k => if is_changed altered k
                  then vdivs (at_ [] M12 k) (at_ NaN A12 k)
                  else at_ [] (mean gmm) k) ks in
  let covar' :=
    if fgtb w f0 then
      let w_eff := (w * w * (of_nat N12 * f1 / of_nat (K gmm) + f1))%fl in
      map (fun k => if is_changed altered k
                    then mdivs (madd (at_ [] C12 k) (mscale w_eff (eye (D gmm))))
                               (at_ NaN A12 k + f1)%fl
                    else at_ [] (covar gmm) k) ks
    else
      map (fun k => if is_changed altered k
                    then mdivs (at_ [] C12 k) (at_ NaN A12 k)
                    else at_ [] (covar gmm) k) ks in
  let background' :=
    match background with
    | Some bg =>
        if adjust_amp bg then
          match sB s with
          | Some B =>
              match i with
              | None => Some (with_amp bg (py_min (B / of_nat Hsize)%fl (amp_max bg)))
              | Some (s2, H2size) =>
                  match sB s2 with
                  | Some B2 =>
                      Some (with_amp bg (py_min ((B + B2) / of_nat (Hsize + H2size))%fl
                                                (amp_max bg)))
                  | None => Some (with_amp bg NaN)
                  end
              end
          | None => Some (with_amp bg NaN)
          end
        else Some bg
    | None => None
    end in
  (mkGMM amp' mean' covar' (D gmm), background').

(** A finite, positive value. *)
Definition above_zero (a : fl) : Prop :=
  match a with
  | Fin x => 0 < x
  | _ => False
  end.

(** The sums have support: what makes the amplitudes of [_update] finite,
    non-negative and not all zero before the renormalisation.  In a full
    update, samples were counted ([N + N2 > 0]) and the sums [A + A2], one
    per component, are finite and non-negative with one of them positive.
    In a partial update, the unaltered amplitudes are finite and
    non-negative with a sum below 1, and the sums of the altered
    components, which exist, are finite and non-negative with one of them
    positive. *)
Definition amp_support (gmm : GMM) (A12 : vec) (N12 : nat) (altered : option (list nat))
  : Prop :=
  match altered with
  | None =>
      (0 < N12)%nat /\ length A12 = K gmm
      /\ Forall nonneg A12 /\ Exists above_zero A12
  | Some alt =>
      (forall k, (k < K gmm)%nat -> mem k alt = false -> nonneg (at_ NaN (amp gmm) k))
      /\ above_zero (f1 - fsum (take_mask (amp gmm)
                                        (map (fun k => negb (mem k alt)) (seq 0 (K gmm)))))%fl
      /\ (forall k, In k alt -> (k < K gmm)%nat /\ nonneg (at_ NaN A12 k))
      /\ (exists k, In k alt /\ above_zero (at_ NaN A12 k))
  end.

(** The rational a finite value stands for, and the exact sum of an
    array. *)
Definition toQ (a : fl) : Q :=
  match a with
  | Fin q => q
  | _ => 0
  end.
Definition Qsum (l : vec) : Q := fold_right (fun a s => toQ a + s) 0 l.

(** ** Imputation *)

(** Python's [int(x)] on a float: truncation toward zero; ValueError on
    NaN, OverflowError on an infinity. *)
Definition py_int (x : fl) : result Z :=
  match x with
  | Fin q => Ok (Z.quot (Qnum q) (Zpos (Qden q)))
  | Inf _ => Raise OverflowError
  | NaN => Raise ValueError
  end.

Section Impute.

Context {np : NumPy} {R : RandomState}.

(** The callback that gives the noise covariance of imputed points. *)
Definition covar_cb : Type := list vec -> cov_arg.

(** [_I]: a sample of the model, with noise, outside of the selection. *)
Definition _I (gmm : GMM) (size : nat) (sel_callback : sel_cb)
           (covar_callback : option covar_cb) (background : option Background)
           (invert_sel : bool) (st : rng_t)
  : result (list vec * cov_arg * list nbh * rng_t) :=
  '(data2, st1) <-
     match background with
     | None => draw gmm size None false st
     | Some bg =>
         bg_size <- py_int (bg_amp bg * of_nat size)%fl ;;
         if ((bg_size <? 0) || (Z.of_nat size <? bg_size))%Z then Raise ValueError
         else
           '(d1, sta) <- draw gmm (size - Z.to_nat bg_size) None false st ;;
           let '(d2, stb) := bg_draw bg (Z.to_nat bg_size) sta in
           Ok (d1 ++ d2, stb)
     end ;;
  '(data2, covar2, st2) <-
     match covar_callback with
     | Some cb =>
         match cb data2 with
         | OneCov c =>
             let '(noise, sta) :=
               rng_multivariate_normal (zeros (D gmm)) c (length data2) st1 in
             Ok (zipWith vadd data2 noise, OneCov c, sta)
         | EachCov cs =>
             let '(noise, sta) :=
               rng_multivariate_normal (zeros (D gmm)) (eye (D gmm)) (length data2) st1 in
             eig <- mapM linalg_eigh cs ;;
             let noise :=
               zipWith (fun e n => matvec (snd e) (zipWith fmul (map np_sqrt (fst e)) n))
                       eig noise in
             Ok (zipWith vadd data2 noise, EachCov cs, sta)
         | NoCov => Raise AttributeError
         end
     | None => Ok (data2, NoCov, st1)
     end ;;
  let '(sel2, st3) := sel_callback data2 (Some gmm) st2 in
  let sel2 := if invert_sel then map negb sel2 else sel2 in
  let data2 := take_mask data2 sel2 in
  let covar2 := restrict_cov covar2 sel2 in
  let U2 := map (fun _ => All) (seq 0 (K gmm)) in
  Ok (data2, covar2, U2, st3).

(** The part of the state that [_EMstep] mutates beside the mixture and
    the buffers: the background amplitude and the generator. *)
Definition extra : Type := (option Background * rng_t)%type.

(** [_EMstep]: E-step, M-step, the same on an imputed sample when a
    selection is given, and the update. *)
Definition _EMstep (data : list vec) (cov : cov_arg) (sel_callback : option sel_cb)
           (covar_callback : option covar_cb) (w : fl) (altered : option (list nat))
           (gmm : GMM) (b : buffers) (x : extra) (N2 : nat) (cutoff : option fl)
  : result (fl * nat * nat * GMM * buffers * extra) :=
  let '(background, st) := x in
  '(log_L, b1) <- _Estep gmm b data cov background cutoff ;;
  s <- _Mstep gmm b1 data background ;;
  '(i, N2, st1) <-
     match sel_callback with
     | None => Ok (None, N2, st)
     | Some cb =>
         let size := (sN s + N2)%nat in
         '(data2, covar2, U2, st1) <- _I gmm size cb covar_callback background true st ;;
         let N2 := length data2 in
         if (0 <? N2)%nat then
           let b2 := mkBuffers (map (fun _ => []) (seq 0 (K gmm))) U2
                               (map (fun _ => NoCov) (seq 0 (K gmm)))
                               (zeros (length data2))
                               (map (fun _ => false) data2) in
           '(log_L2, b2') <- _Estep gmm b2 data2 covar2 background cutoff ;;
           s2 <- _Mstep gmm b2' data2 background ;;
           Ok (Some (s2, length (H b2')), sN s2, st1)
         else Ok (None, N2, st1)
     end ;;
  let '(gmm', background') := _update gmm s (length (H b1)) i N2 w altered background in
  Ok (log_L, sN s, N2, gmm', b1, (background', st1)).

End Impute.

(** ** The EM driver *)

(** What one iteration prints when [VERBOSITY] is set: the iteration
    number, the sizes of the observed and of the imputed sample, the
    log-likelihood and the number of components that did not move. *)
Record report : Type := mkReport {
  r_it : nat;
  r_N : nat;
  r_N2 : nat;
  r_log_L : fl;
  r_stable : nat
}.

Inductive flow (A : Type) : Type :=
| Next (a : A)
| Break (a : A).
Arguments Next {A} a.
Arguments Break {A} a.

Section Driver.

Context {np : NumPy}.

(** The driver is written over the step it iterates; [_EM] below is its
    instance at [_EMstep].  [X] is the state that only the step touches. *)
Variable X : Type.
Variable step : GMM -> buffers -> X -> nat -> option fl ->
                result (fl * nat * nat * GMM * buffers * X).

(** The local variables of [_EM] at the head of its loop.  [e_log_L] and
    [e_N] are unbound in Python until the first iteration has assigned
    them; they hold a placeholder until then. *)
Record em_state : Type := mkEM {
  e_gmm : GMM;
  e_gmm_ : GMM;
  e_buf : buffers;
  e_x : X;
  e_log_L : fl;
  e_N : nat;
  e_N2 : nat;
  e_it : nat;
  e_out : list report
}.

(** [dst.amp[:] = src.amp[:]] and the same for [mean] and [covar]. *)
Definition assign (dst src : GMM) : GMM :=
  mkGMM (amp src) (mean src) (covar src) (D dst).

Definition set_U (b : buffers) (U' : list nbh) : buffers :=
  mkBuffers (log_p b) U' (T_inv b) (log_S b) (H b).

Definition cutoff_nd_of (gmm : GMM) (cutoff : option fl) : option fl :=
  match cutoff with
  | Some c => Some (chi2_cutoff (D gmm) c)
  | None => None
  end.

Definition shift_cutoff_of (gmm : GMM) (cutoff : option fl) : fl :=
  match cutoff with
  | Some c => chi2_cutoff (D gmm) (py_min quarter (c / two)%fl)
  | None => chi2_cutoff (D gmm) quarter
  end.

(** The squared displacement of every mean since the backup, in the
    metric of the backup's covariance. *)
Definition shift2_of (gmm gmm_ : GMM) : result vec :=
  C_inv <- mapM linalg_inv (covar gmm_) ;;
  Ok (zipWith (fun d T => quad d T) (zipWith vsub (mean gmm) (mean gmm_)) C_inv).

Definition moved_of (shift2 : vec) (shift_cutoff : fl) : list nat :=
  flatnonzero (map (fun s => fgtb s shift_cutoff) shift2).

(** [for k in moved: U[k] = None], under [if cutoff is not None]. *)
Definition reset_moved (cutoff : option fl) (U : list nbh) (moved : list nat) : list nbh :=
  match cutoff with
  | Some _ => set_idx U moved (map (fun _ => All) moved)
  | None => U
  end.

(** The body of the [while] loop of [_EM]. *)
Definition EM_iteration (cutoff cutoff_nd : option fl) (shift_cutoff tol : fl)
           (st : em_state) : result (flow em_state) :=
  '(log_L_, N, N2, gmm, buf, x) <-
     step (e_gmm st) (e_buf st) (e_x st) (e_N2 st) cutoff_nd ;;
  shift2 <- shift2_of gmm (e_gmm_ st) ;;
  let moved := moved_of shift2 shift_cutoff in
  let out := e_out st ++ [mkReport (e_it st) N N2 log_L_ (K gmm - length moved)] in
  let continue :=
    Next (mkEM gmm (assign (e_gmm_ st) gmm) (set_U buf (reset_moved cutoff (U buf) moved))
               x log_L_ N N2 (S (e_it st)) out) in
  if (0 <? e_it st)%nat && fltb log_L_ (e_log_L st + tol)%fl then
    if fltb log_L_ (e_log_L st - tol)%fl then
      Ok (Break (mkEM (assign gmm (e_gmm_ st)) (e_gmm_ st) buf x (e_log_L st) N N2
                      (e_it st) out))
    else if Nat.eqb (length moved) 0 then
      Ok (Break (mkEM gmm (e_gmm_ st) buf x log_L_ N N2 (e_it st) out))
    else Ok continue
  else Ok continue.

(** [while it < maxiter: ...].  One unit of [fuel] pays for one execution
    of the body; [None] is a loop that wants more. *)
Fixpoint EM_loop (fuel : nat) (maxiter : nat) (cutoff cutoff_nd : option fl)
         (shift_cutoff tol : fl) (st : em_state) : option (result em_state) :=
  if (e_it st <? maxiter)%nat then
    match fuel with
    | O => None
    | S fuel' =>
        match EM_iteration cutoff cutoff_nd shift_cutoff tol st with
        | Raise e => Some (Raise e)
        | Ok (Break st') => Some (Ok st')
        | Ok (Next st') => EM_loop fuel' maxiter cutoff cutoff_nd shift_cutoff tol st'
        end
    end
  else Some (Ok st).

Definition maxiter_of (gmm : GMM) : nat := Nat.max 100 (K gmm).

(** The state at the head of the first iteration: [it = 0], [N2 = 0] and
    the backup [gmm_] of the mixture. *)
Definition EM_init (gmm : GMM) (buf : buffers) (x : X) : em_state :=
  mkEM gmm (assign (mkGMM (zeros (K gmm)) [] [] (D gmm)) gmm) buf x NaN 0 0 0 [].

(** [_EM] over an arbitrary step.  The loop is given [maxiter] units of
    fuel, which it never exhausts. *)
Definition EM_with (gmm : GMM) (buf : buffers) (x : X) (cutoff : option fl) (tol : fl)
  : result em_state :=
  match EM_loop (maxiter_of gmm) (maxiter_of gmm) cutoff (cutoff_nd_of gmm cutoff)
                (shift_cutoff_of gmm cutoff) tol (EM_init gmm buf x) with
  | Some r => r
  | None => Raise RuntimeError
  end.

(** The states in which the guard of the [while] is evaluated during a
    run that starts in [s0]. *)
Inductive loop_head (maxiter : nat) (cutoff cutoff_nd : option fl) (shift_cutoff tol : fl)
          (s0 : em_state) : em_state -> Prop :=
| head_first : loop_head maxiter cutoff cutoff_nd shift_cutoff tol s0 s0
| head_next s s' :
    loop_head maxiter cutoff cutoff_nd shift_cutoff tol s0 s ->
    (e_it s < maxiter)%nat ->
    EM_iteration cutoff cutoff_nd shift_cutoff tol s = Ok (Next s') ->
    loop_head maxiter cutoff cutoff_nd shift_cutoff tol s0 s'.

(** The state an iteration leaves. *)
Definition after {A} (f : flow A) : A :=
  match f with Next a => a | Break a => a end.

End Driver.

(** ** Split and merge, and [fit] *)

(** Sorted union without duplicates: [np.union1d] on index arrays. *)
Fixpoint insert_sorted (x : nat) (l : list nat) : list nat :=
  match l with
  | [] => [x]
  | y :: l' =>
      if (x <? y)%nat then x :: l
      else if Nat.eqb x y then l
      else y :: insert_sorted x l'
  end.
Definition union1d_idx (a b : list nat) : list nat :=
  fold_right insert_sorted [] (a ++ b).
Definition union1d_mask (a b : list bool) : list bool :=
  (if forallb (fun x => x) (a ++ b) then [] else [false])
    ++ (if existsb (fun x => x) (a ++ b) then [true] else []).

(** [np.union1d(U[i], U[j])].  A neighborhood that is None is not met
    here: [fit] has copied every neighborhood first, which raises on
    None. *)
Definition union1d (u v : nbh) : result nbh :=
  match u, v with
  | Idx a, Idx b => Ok (Idx (union1d_idx a b))
  | Mask a, Mask b => Ok (Mask (union1d_mask a b))
  | _, _ => Raise TypeError
  end.

(** [U[k].copy()]. *)
Definition copy_nbh (u : nbh) : result nbh :=
  match u with
  | All => Raise AttributeError
  | _ => Ok u
  end.

Section SplitMerge.

Context {np : NumPy} {R : RandomState}.

(** The split of component [altered[2]] into [altered[1]] and
    [altered[2]], the second half of [_update_snm]. *)
Definition split_snm (gmm : GMM) (altered : list nat) : result GMM :=
  let a1 := at_ O altered 1 in
  let a2 := at_ O altered 2 in
  let v := (at_ NaN (amp gmm) a2 / two)%fl in
  let amp' := set_at (set_at (amp gmm) a1 v) a2 v in
  '(_, radius2, rotation) <- linalg_svd (at_ [] (covar gmm) a2) ;;
  let dl := vdivs (vscale (np_sqrt (at_ NaN radius2 0)) (at_ [] rotation 0)) four in
  let mean1 := set_at (mean gmm) a1 (vsub (at_ [] (mean gmm) a2) dl) in
  let mean2 := set_at mean1 a2 (vadd (at_ [] mean1 a2) dl) in
  let iso :=
    mscale (np_power (linalg_det (at_ [] (covar gmm) a2)) (f1 / of_nat (D gmm))%fl)
           (eye (D gmm)) in
  let covar' := set_idx (covar gmm) (skipn 1 altered) (map (fun _ => iso) (skipn 1 altered)) in
  Ok (mkGMM amp' mean2 covar' (D gmm)).

(** [_update_snm]: merge [altered[0]] and [altered[1]] into [altered[0]],
    split [altered[2]] into [altered[1]] and [altered[2]]. *)
Definition _update_snm (gmm : GMM) (altered : list nat) (U : list nbh) (N : nat)
           (cleanup : bool) : result (GMM * list nbh) :=
  let A := map (fun a => (a * of_nat N)%fl) (amp gmm) in
  let a0 := at_ O altered 0 in
  let a1 := at_ O altered 1 in
  let a2 := at_ O altered 2 in
  let m01 := firstn 2 altered in
  let amp1 := set_at (amp gmm) a0 (fsum (take_idx NaN (amp gmm) m01)) in
  '(mean1, covar1, U1) <-
    (if negb cleanup then
       let A01 := take_idx NaN A m01 in
       let mean_m :=
         vdivs (vsum (D gmm)
                     (zipWith (fun m a => map (fun x => (x * a)%fl) m)
                              (take_idx [] (mean gmm) m01) A01))
               (fsum A01) in
       let covar_m :=
         mdivs (msum (D gmm)
                     (zipWith (fun c a => map (map (fun x => (x * a)%fl)) c)
                              (take_idx [] (covar gmm) m01) A01))
               (fsum A01) in
       u <- union1d (at_ All U a0) (at_ All U a1) ;;
       Ok (set_at (mean gmm) a0 mean_m, set_at (covar gmm) a0 covar_m, set_at U a0 u)
     else
       Ok (set_at (mean gmm) a0 (at_ [] (mean gmm) a1),
           set_at (covar gmm) a0 (at_ [] (covar gmm) a1),
           set_at U a0 (at_ All U a1))) ;;
  gmm2 <- split_snm (mkGMM amp1 mean1 covar1 (D gmm)) altered ;;
  u2 <- copy_nbh (at_ All U1 a2) ;;
  Ok (gmm2, set_at U1 a1 u2).

(** The buffers [log_S], [H], [log_p], [T_inv] and [U] that [fit]
    allocates. *)
Definition new_buffers (gmm : GMM) (data : list vec) : buffers :=
  mkBuffers (map (fun _ => []) (seq 0 (K gmm)))
            (map (fun _ => All) (seq 0 (K gmm)))
            (map (fun _ => NoCov) (seq 0 (K gmm)))
            (zeros (length data))
            (map (fun _ => false) data).

(** [_findSNMComponents] chooses the two components to merge and the one
    to split from the posteriors, by [argsort], [argmax] and [svd]; it can
    raise ValueError from [match1d].  Nothing below depends on its choice:
    it is a parameter of [fit]. *)
Definition findSNM_t : Type :=
  GMM -> list nbh -> list vec -> vec -> nat -> result (list nat * bool).

(** [_EM]. *)
Definition _EM (data : list vec) (cov : cov_arg) (sel_callback : option sel_cb)
           (covar_callback : option covar_cb) (w : fl) (altered : option (list nat))
           (gmm : GMM) (buf : buffers) (x : extra) (cutoff : option fl) (tol : fl)
  : result (em_state extra) :=
  EM_with (_EMstep data cov sel_callback covar_callback w altered) gmm buf x cutoff tol.

(** An initialisation callback mutates the mixture and the generator. *)
Definition init_cb : Type := GMM -> list vec -> cov_arg -> rng_t -> result (GMM * rng_t).

(** The keyword arguments of [fit] other than [covar]. *)
Record fit_args : Type := mkArgs {
  a_w : fl;
  a_cutoff : option fl;
  a_sel_callback : option sel_cb;
  a_covar_callback : option covar_cb;
  a_init_callback : option init_cb;
  a_background : option Background;
  a_tol : fl;
  a_split_n_merge : nat
}.

(** What [fit] leaves behind: the returned [log_L] and [U], and the
    objects it has mutated. *)
Record fitted : Type := mkFitted {
  f_log_L : fl;
  f_U : list nbh;
  f_gmm : GMM;
  f_background : option Background;
  f_rng : rng_t
}.

Definition with_split_n_merge (a : fit_args) (n : nat) : fit_args :=
  mkArgs (a_w a) (a_cutoff a) (a_sel_callback a) (a_covar_callback a)
         (a_init_callback a) (a_background a) (a_tol a) n.

(** The loop [while split_n_merge and gmm.K >= 3] of [fit].  The budget
    [split_n_merge] is a natural number. *)
Fixpoint snm_loop (findSNM : findSNM_t) (data : list vec) (cov : cov_arg) (a : fit_args)
         (cutoff : option fl) (split_n_merge : nat) (gmm : GMM) (buf : buffers)
         (x : extra) (log_L : fl) (N N2 : nat) : result fitted :=
  match split_n_merge with
  | O => Ok (mkFitted log_L (U buf) gmm (fst x) (snd x))
  | S n =>
      if (3 <=? K gmm)%nat then
        let gmm_ := gmm in
        U_ <- mapM copy_nbh (U buf) ;;
        '(altered, cleanup) <-
           findSNM gmm (U buf) (log_p buf) (log_S buf) (N + N2)%nat ;;
        '(gmm1, U1) <- _update_snm gmm altered (U buf) (N + N2) cleanup ;;
        e1 <- _EM data cov (a_sel_callback a) (a_covar_callback a) (a_w a) (Some altered)
                  gmm1 (set_U buf U1) x cutoff (a_tol a) ;;
        e2 <- _EM data cov (a_sel_callback a) (a_covar_callback a) (a_w a) None
                  (e_gmm e1) (e_buf e1) (e_x e1) cutoff (a_tol a) ;;
        let log_L_ := e_log_L e2 in
        if fgeb log_L log_L_ then
          Ok (mkFitted log_L U_ (assign (e_gmm e2) gmm_) (fst (e_x e2)) (snd (e_x e2)))
        else
          snm_loop findSNM data cov a cutoff n (e_gmm e2) (e_buf e2) (e_x e2) log_L_ N N2
      else Ok (mkFitted log_L (U buf) gmm (fst x) (snd x))
  end.

(** [fit].  The worker pool only distributes the components and is not
    modelled. *)
Definition fit (findSNM : findSNM_t) (gmm : GMM) (data : list vec) (cov : cov_arg)
           (a : fit_args) (st : rng_t) : result fitted :=
  '(gmm, st) <-
     match a_init_callback a with
     | Some cb => cb gmm data cov st
     | None => Ok (gmm, st)
     end ;;
  if match cov with NoCov => false | _ => true end
     && match a_sel_callback a with Some _ => true | None => false end
     && match a_covar_callback a with None => true | Some _ => false end
  then Raise RuntimeError
  else
    let cutoff :=
      match a_background a, a_cutoff a with
      | Some _, Some _ => None
      | _, c => c
      end in
    let buf := new_buffers gmm data in
    e <- _EM data cov (a_sel_callback a) (a_covar_callback a) (a_w a) None
             gmm buf (a_background a, st) cutoff (a_tol a) ;;
    snm_loop findSNM data cov a cutoff (a_split_n_merge a) (e_gmm e) (e_buf e) (e_x e)
             (e_log_L e) (e_N e) (e_N2 e).

(** The arrays of a mixture have one entry per component. *)
Definition well_shaped (gmm : GMM) : Prop :=
  length (mean gmm) = K gmm /\ length (covar gmm) = K gmm.

End SplitMerge.

(** ** The log-likelihood of data and cross-validation *)

Section CrossValidation.

Context {np : NumPy} {R : RandomState}.

(** [GMM.logL_k] without [chi2_only]: log p(x | k) for all [coords]. *)
Definition logL_k (gmm : GMM) (k : nat) (coords : list vec) (cov : cov_arg)
  : result vec :=
  let dx := map (fun x => vsub x (at_ [] (mean gmm) k)) coords in
  let covar_k := at_ [] (covar gmm) k in
  let term (chi2 : fl) (sl : fl * fl) : fl :=
    (np_log (at_ NaN (amp gmm) k) - log2piD2 gmm - fst sl * snd sl / two - chi2 / two)%fl in
  match cov with
  | NoCov =>
      T_inv <- linalg_inv covar_k ;;
      Ok (map (fun d => term (quad d T_inv) (linalg_slogdet covar_k)) dx)
  | OneCov c =>
      T_inv <- linalg_inv (madd covar_k c) ;;
      Ok (map (fun d => term (quad d T_inv) (linalg_slogdet (madd covar_k c))) dx)
  | EachCov cs =>
      T_inv <- mapM (fun c => linalg_inv (madd covar_k c)) cs ;;
      Ok (zipWith (fun dT c => term (quad (fst dT) (snd dT)) (linalg_slogdet (madd covar_k c)))
                  (combine dx T_inv) cs)
  end.

(** [logsum(rows)] along axis 0 of a 2-d array with [n] columns. *)
Definition logsum_axis0 (n : nat) (rows : list vec) : result vec :=
  mapM (fun j => logsum (map (fun r => at_ NaN r j) rows)) (seq 0 n).

(** [GMM._mp_chunksize] and [GMM._get_chunks]; [/] is Python 2's integer
    division. *)
Definition _mp_chunksize (cpu_count : nat) (gmm : GMM) : nat * nat :=
  let chunksize := Nat.max 1 (K gmm / cpu_count) in
  let n_chunks := Nat.min cpu_count (K gmm / chunksize) in
  (n_chunks, chunksize).

Fixpoint chunks_from (left chunksize : nat) (ids : list nat) (n : nat) : list (nat * nat) :=
  match ids with
  | [] => []
  | i :: ids' =>
      let n_ := if (i <? left)%nat then S (n + chunksize) else (n + chunksize)%nat in
      (n, n_) :: chunks_from left chunksize ids' n_
  end.

Definition _get_chunks (cpu_count : nat) (gmm : GMM) : list (nat * nat) :=
  let '(n_chunks, chunksize) := _mp_chunksize cpu_count gmm in
  let left := (K gmm - n_chunks * chunksize)%nat in
  chunks_from left chunksize (seq 0 n_chunks) 0.

(** [GMM._logsum_chunk]. *)
Definition _logsum_chunk (gmm : GMM) (chunk : nat * nat) (coords : list vec)
           (cov : cov_arg) : result vec :=
  log_p_y_k <- mapM (fun i => logL_k gmm (fst chunk + i) coords cov)
                    (seq 0 (snd chunk - fst chunk)) ;;
  logsum_axis0 (length coords) log_p_y_k.

(** [GMM.logL]: the sum over the components, chunk by chunk. *)
Definition logL (cpu_count : nat) (gmm : GMM) (coords : list vec) (cov : cov_arg)
  : result vec :=
  log_p_y_chunk <- mapM (fun chunk => _logsum_chunk gmm chunk coords cov)
                        (_get_chunks cpu_count gmm) ;;
  logsum_axis0 (length coords) log_p_y_chunk.

Definition with_background (a : fit_args) (bg : option Background) : fit_args :=
  mkArgs (a_w a) (a_cutoff a) (a_sel_callback a) (a_covar_callback a)
         (a_init_callback a) bg (a_tol a) (a_split_n_merge a).

(** [covar[m]] where the covariance is per sample, [covar] otherwise. *)
Definition split_cov (cov : cov_arg) (m : list bool) : cov_arg := restrict_cov cov m.

(** What [cv_fit] returns and leaves behind: the scores [lcv], the
    caller's mixture and background, and the generator. *)
Record cv_result : Type := mkCV {
  cv_lcv : vec;
  cv_gmm : GMM;
  cv_background : option Background;
  cv_rng : rng_t
}.

(** The body of the loop over the folds of [cv_fit], for the folds
    [folds]. *)
Fixpoint cv_folds (findSNM : findSNM_t) (cpu_count : nat) (L : nat) (folds : list nat)
         (gmm0 : GMM) (bg_amp0 : fl) (data : list vec) (cov : cov_arg) (a : fit_args)
         (rng_state : rng_t) (c : cv_result) : result cv_result :=
  match folds with
  | [] => Ok c
  | i :: folds' =>
      let mask := map (fun j => Nat.eqb (j mod L) i) (seq 0 (length data)) in
      let train := map negb mask in
      r <- fit findSNM (cv_gmm c) (take_mask data train) (split_cov cov train)
               (with_background a (cv_background c)) rng_state ;;
      ll <- logL cpu_count (f_gmm r) (take_mask data mask) (split_cov cov mask) ;;
      let lcv := set_mask (cv_lcv c) mask ll in
      let gmm := assign (f_gmm r) gmm0 in
      let bg :=
        match a_background a with
        | Some _ =>
            match f_background r with
            | Some b => Some (with_amp b bg_amp0)
            | None => None
            end
        | None => f_background r
        end in
      cv_folds findSNM cpu_count L folds' gmm0 bg_amp0 data cov a rng_state
               (mkCV lcv gmm bg (f_rng r))
  end.

(** [cv_fit]: L-fold cross-validation of [fit].  [np.empty(N)] is shown
    as an array of NaN. *)
Definition cv_fit (findSNM : findSNM_t) (cpu_count : nat) (gmm : GMM) (data : list vec)
           (L : nat) (cov : cov_arg) (a : fit_args) (st : rng_t) : result cv_result :=
  let lcv := repeat NaN (length data) in
  match a_init_callback a with
  | Some _ => Raise RuntimeError
  | None =>
      let rng_state := st in
      let gmm0 := assign (mkGMM (zeros (K gmm)) [] [] (D gmm)) gmm in
      let bg_amp0 := match a_background a with Some bg => bg_amp bg | None => NaN end in
      cv_folds findSNM cpu_count L (seq 0 L) gmm0 bg_amp0 data cov a rng_state
               (mkCV lcv gmm (a_background a) st)
  end.

End CrossValidation.

(** ** A rational instance of the numerical library

    To run the model on small inputs, the library is instantiated over
    the rationals: determinant and inverse are exact (cofactor expansion),
    square and higher roots are exact on perfect powers, [exp] and [log]
    are the piecewise linear interpolation of [2^x] between integers and
    its inverse, and the spectral decompositions are given for diagonal
    matrices only.  The generator is a counter. *)

Module Rational.

Definition Qfloor (q : Q) : Z := Z.div (Qnum q) (Zpos (Qden q)).

Definition Qpow2 (e : Z) : Q :=
  match e with
  | Z0 => 1
  | Zpos p => inject_Z (2 ^ Zpos p)
  | Zneg p => 1 / inject_Z (2 ^ Zpos p)
  end.

Definition exp2 (x : fl) : fl :=
  match x with
  | Fin q => let e := Qfloor q in Fin (Qred (Qpow2 e * (1 + (q - inject_Z e))))
  | Inf true => Fin 0
  | Inf false => Inf false
  | NaN => NaN
  end.

Definition Qlog2_floor (q : Q) : Z :=
  let e := (Z.log2 (Qnum q) - Z.log2 (Zpos (Qden q)))%Z in
  if Qle_bool (Qpow2 e) q then e else (e - 1)%Z.

Definition log2 (x : fl) : fl :=
  match x with
  | Fin q =>
      if Qzero q then Inf true
      else if Qltb q 0 then NaN
      else let e := Qlog2_floor q in Fin (Qred (inject_Z e + (q / Qpow2 e - 1)))
  | Inf true => NaN
  | Inf false => Inf false
  | NaN => NaN
  end.

(** The largest [r] with [r ^ n <= z], bit by bit. *)
Fixpoint root_bits (n : positive) (z : Z) (bits : nat) (r : Z) : Z :=
  match bits with
  | O => r
  | S b =>
      let r' := (r + 2 ^ Z.of_nat b)%Z in
      root_bits n z b (if (r' ^ Zpos n <=? z)%Z then r' else r)
  end.
Definition Zroot (n : positive) (z : Z) : Z :=
  root_bits n z (S (Z.to_nat (Z.log2 z))) 0.

Definition Qroot (n : positive) (q : Q) : Q :=
  Qred (inject_Z (Zroot n (Qnum q)) / inject_Z (Zroot n (Zpos (Qden q)))).

Definition sqrt (x : fl) : fl :=
  match x with
  | Fin q => if Qltb q 0 then NaN else Fin (Qroot 2 q)
  | Inf false => Inf false
  | _ => NaN
  end.

(** [x ** y] for [y = 1/n]. *)
Definition power (x y : fl) : fl :=
  match x, y with
  | Fin q, Fin (1 # n) => if Qltb q 0 then NaN else Fin (Qroot n q)
  | _, _ => NaN
  end.

Definition drop_at {A} (j : nat) (l : list A) : list A := firstn j l ++ skipn (S j) l.

(** Cofactor expansion along the first row; [n] is the size. *)
Fixpoint det_n (n : nat) (m : mat) : fl :=
  match n with
  | O => f1
  | S n' =>
      match m with
      | [] => f1
      | row :: rest =>
          fsum (map (fun j =>
                       let c := (at_ NaN row j * det_n n' (map (drop_at j) rest))%fl in
                       if Nat.even j then c else (- c)%fl)
                    (seq 0 (S n')))
      end
  end.
Definition det (m : mat) : fl := det_n (length m) m.

Definition cofactor (m : mat) (i j : nat) : fl :=
  let minor := map (drop_at j) (drop_at i m) in
  let c := det minor in
  if Nat.even (i + j) then c else (- c)%fl.

Definition inv (m : mat) : result mat :=
  let d := det m in
  if feqb d f0 then Raise LinAlgError
  else
    let n := length m in
    Ok (map (fun i => map (fun j => (cofactor m j i / d)%fl) (seq 0 n)) (seq 0 n)).

Definition slogdet (m : mat) : fl * fl :=
  let d := det m in
  if fltb f0 d then (f1, log2 d)
  else if fltb d f0 then (Fin (-1), log2 (- d)%fl)
  else if feqb d f0 then (f0, Inf true)
  else (NaN, NaN).

Definition diagonal (m : mat) : vec := map (fun i => at_ NaN (at_ [] m i) i) (seq 0 (length m)).
Definition is_diagonal (m : mat) : bool :=
  forallb (fun i => forallb (fun j => Nat.eqb i j || feqb (at_ NaN (at_ [] m i) j) f0)
                            (seq 0 (length m)))
          (seq 0 (length m)).
Fixpoint nonincreasing (l : vec) : bool :=
  match l with
  | a :: (b :: _) as l' => fgeb a b && nonincreasing l'
  | _ => true
  end.

Definition svd (m : mat) : result (mat * vec * mat) :=
  if is_diagonal m && nonincreasing (diagonal m) && forallb (fun x => fgeb x f0) (diagonal m)
  then Ok (eye (length m), diagonal m, eye (length m))
  else Raise LinAlgError.

Definition eigh (m : mat) : result (vec * mat) :=
  if is_diagonal m && nonincreasing (rev (diagonal m))
  then Ok (diagonal m, eye (length m))
  else Raise LinAlgError.

(** Stand-ins for the two distributions: they make the cutoff of [c]
    sigma in [D] dimensions [D * c^2], which is the chi-square quantile
    in one dimension. *)
Definition cdf (c : fl) : fl := ((f1 + c / (f1 + c)) / two)%fl.
Definition ppf (p : fl) (D : nat) : fl :=
  (of_nat D * (p / (f1 - p)) * (p / (f1 - p)))%fl.

#[export] Instance numpy : NumPy := {|
  np_exp := exp2;
  np_log := log2;
  np_sqrt := sqrt;
  np_power := power;
  np_pi := Fin (355 # 113);
  linalg_inv := inv;
  linalg_slogdet := slogdet;
  linalg_det := det;
  linalg_svd := svd;
  linalg_eigh := eigh;
  norm_cdf := cdf;
  chi2_ppf := ppf
|}.

(** The generator is a counter of the numbers drawn: the [i]-th row of a
    draw from a component is its mean shifted by [i], and [choice] cycles
    through the components. *)
Definition counter_choice (K size : nat) (p : vec) (st : nat)
  : result (list nat * nat) :=
  if Nat.eqb K 0 && negb (Nat.eqb size 0) then Raise ValueError
  else Ok (map (fun i => ((st + i) mod K)%nat) (seq 0 size), (st + size)%nat).

Definition counter_normal (m : vec) (c : mat) (n : nat) (st : nat) : list vec * nat :=
  (map (fun i => map (fun x => (x + of_nat i)%fl) m) (seq 0 n), (st + n)%nat).

Definition counter_rand (n d : nat) (st : nat) : list vec * nat :=
  (map (fun i => repeat half d) (seq 0 n), (st + n)%nat).

#[export] Instance counter : RandomState := {|
  rng_t := nat;
  rng_choice := counter_choice;
  rng_multivariate_normal := counter_normal;
  rng_rand := counter_rand
|}.

End Rational.


(** A displacement of zero, or of NaN, is beyond no threshold. *)
Definition zero_or_nan (a : fl) : Prop :=
  match a with
  | Fin q => q == 0
  | Inf _ => False
  | NaN => True
  end.

(** The background that a fit works on is the caller's, up to its
    amplitude. *)
Definition background_of {R : RandomState} (bg : Background) (x : extra) : Prop :=
  exists a, fst x = Some (with_amp bg a).

(** ** Small inputs

    The mixtures, samples and settings on which the properties below are
    exercised, over the rational instance. *)

Module Inputs.

Import Rational.

(** A selection that lets the points below 1 pass. *)
Definition below_one (x : vec) : bool := fltb (at_ NaN x 0) f1.
Definition select_below_one : sel_cb :=
  fun batch _ st => (map below_one batch, st).

(** One standard normal component in one dimension. *)
Definition unit_gmm : GMM := mkGMM [f1] [[f0]] [[[f1]]] 1.

Definition tol3 : fl := Fin (1 # 1000).

(** Two samples near the component and one that only a widened
    component reaches: with the covariance floor [w = 2] and a cutoff of 3
    sigma the second iteration takes the far sample in and its
    log-likelihood falls. *)
Definition far_data : list vec := [[Fin 0]; [Fin 1]; [Fin (7 # 2)]].
Definition far_step := _EMstep far_data NoCov None None two None.
Definition far_init : em_state extra :=
  EM_init unit_gmm (new_buffers unit_gmm far_data) (@None Background, 0%nat).

(** A sample out of reach of the component under a cutoff of 3 sigma. *)
Definition lost_data : list vec := [[Fin 100]].
Definition lost_step := _EMstep lost_data NoCov None None f0 None.

(** Two equal components, and a choice of components to split and merge
    that is never asked for. *)
Definition twin_gmm : GMM := mkGMM [half; half] [[f0]; [f0]] [[[f1]]; [[f1]]] 1.
Definition no_choice : findSNM_t := fun _ _ _ _ _ => Raise ValueError.

(** Keyword arguments: a cutoff of 3 sigma and one round of split and
    merge. *)
Definition snm_args : fit_args := mkArgs f0 (Some (Fin 3)) None None None None tol3 1.

(** Two components of which the second, at 10, is out of reach of the
    sample [fitted_data] under a cutoff of 3 sigma. *)
Definition apart_gmm : GMM := mkGMM [half; half] [[f0]; [Fin 10]] [[[f1]]; [[f1]]] 1.
Definition apart_step := _EMstep [[Fin (-1)]; [Fin 1]] NoCov None None f0 None.

(** The sums of an M-step over two samples for [twin_gmm]. *)
Definition twin_stats : stats :=
  mkStats [Fin (3 # 2); Fin (1 # 2)] [[f1]; [f1]] [[[f1]]; [[f1]]] 2 None.

(** Three components in the plane, the third with covariance [4 I], and
    their neighborhoods among four samples. *)
Definition plane_gmm : GMM :=
  mkGMM [quarter; quarter; half]
        [[f0; f0]; [f1; f1]; [Fin 5; Fin 5]]
        [eye 2; eye 2; mscale four (eye 2)] 2.
Definition plane_U : list nbh := [Idx [0; 1]; Idx [1]; Idx [2; 3]]%nat.

(** A symmetric sample of which [unit_gmm] and [twin_gmm] are already
    the fit. *)
Definition fitted_data : list vec := [[Fin (-1)]; [Fin 1]].

(** Cross-validation input: each sample of [far_data] twice, so that
    both of two folds train on [far_data]; a flat background over
    [[-4, 4]] with adjustable amplitude; the covariance floor and cutoff of
    [far_step]. *)
Definition folded_data : list vec :=
  [[Fin 0]; [Fin 0]; [Fin 1]; [Fin 1]; [Fin (7 # 2)]; [Fin (7 # 2)]].
Definition flat_background : Background :=
  mkBackground (Fin (1 # 10)) ([Fin (-4)], [Fin 4]) true f1.
Definition cv_args : fit_args :=
  mkArgs two (Some (Fin 3)) None None None (Some flat_background) tol3 0.

(** One standard normal component in five dimensions and two equal
    samples at [13/25] along the first axis; the step with the covariance
    floor [w = 1]. *)
Definition wide_gmm : GMM := mkGMM [f1] [zeros 5] [eye 5] 5.
Definition near_data : list vec :=
  [[Fin (13 # 25); f0; f0; f0; f0]; [Fin (13 # 25); f0; f0; f0; f0]].
Definition near_step := _EMstep near_data NoCov None None f1 None.
Definition near_init : em_state extra :=
  EM_init wide_gmm (new_buffers wide_gmm near_data) (@None Background, 0%nat).

End Inputs.

(** * Matching, the choice of components to split and merge, stacking *)

From Stdlib Require Import Permutation Sorted.

(** ** Sorting and searching *)

(** [l[i]] for a non-negative index [i]: IndexError out of range. *)
Definition get {A} (l : list A) (i : nat) : result A :=
  match nth_error l i with
  | Some a => Ok a
  | None => Raise IndexError
  end.

(** [np.argsort] on an integer and on a float array, and
    [np.searchsorted(a, v)] (side left) for one key [v].  The order that
    numpy's default sort gives to equal keys, and what its binary search
    returns on an array that is not sorted, are not documented: the
    functions are fields, with what is documented as their laws. *)
Class Sorting : Type := {
  np_argsort_int : list Z -> list nat;
  np_argsort : vec -> list nat;
  np_searchsorted : list Z -> Z -> nat
}.

(** The keys below [v]. *)
Definition count_below (v : Z) (a : list Z) : nat :=
  length (filter (fun x => (x <? v)%Z) a).

Class SortingLaws (S : Sorting) : Prop := {
  (** [argsort] returns a permutation of the indices ... *)
  argsort_int_perm : forall a, Permutation (np_argsort_int a) (seq 0 (length a));
  (** ... that lists the keys in ascending order; *)
  argsort_int_sorted : forall a,
      StronglySorted Z.le (map (fun i => nth i a 0%Z) (np_argsort_int a));
  argsort_perm : forall v, Permutation (np_argsort v) (seq 0 (length v));
  (** on floats, NaN last: no key is below one that is listed before it; *)
  argsort_sorted : forall v i j,
      (i < j < length v)%nat ->
      fltb (nth (nth j (np_argsort v) O) v NaN) (nth (nth i (np_argsort v) O) v NaN) = false;
  (** [searchsorted] returns an insertion point, which on a sorted array
      is the number of keys below [v]. *)
  searchsorted_bound : forall a v, (np_searchsorted a v <= length a)%nat;
  searchsorted_sorted : forall a v,
      StronglySorted Z.le a -> np_searchsorted a v = count_below v a
}.

(** ** [match1d] *)

(** The arrays that [np.array(x, ndmin=1)] makes of the arguments, by
    dtype; [ObjectArray] is what it makes of None. *)
Inductive ndarray : Type :=
| IntArray (l : list Z)
| BoolArray (l : list bool)
| FloatArray (l : vec)
| ObjectArray.

(** [a.max()] of an integer array that is not empty. *)
Definition zmax (a : list Z) : Z :=
  match a with
  | [] => 0%Z
  | x :: a' => fold_left Z.max a' x
  end.

(** [np.unique(a).size]. *)
Definition unique_size (a : list Z) : nat := length (nodup Z.eq_dec a).

Section Match.

Context {S : Sorting}.

(** [match1d(arr1input, arr2input, presorted)]: the indices [(sub1, sub2)]
    of the matches between an array of unique integers and another. *)
Definition match1d (arr1 arr2 : ndarray) (presorted : bool)
  : result (list nat * list nat) :=
  match arr1, arr2 with
  | IntArray a1, IntArray a2 =>
      if Nat.eqb (length a1) 0 || Nat.eqb (length a2) 0 then Raise ValueError
      else if negb (Nat.eqb (unique_size a1) (length a1)) then Raise ValueError
      else
        let st1 := if presorted then None else Some (np_argsort_int a1) in
        sorted1 <- match st1 with
                   | Some st => mapM (get a1) st
                   | None => Ok a1
                   end ;;
        let sub1 := map (np_searchsorted sorted1) a2 in
        let sub1 :=
          if (zmax a1 <? zmax a2)%Z
          then map (fun s => if Nat.eqb s (length a1) then (length a1 - 1)%nat else s) sub1
          else sub1 in
        match st1 with
        | Some st =>
            i1 <- mapM (get st) sub1 ;;
            v1 <- mapM (get a1) i1 ;;
            let sub2 := flatnonzero (zipWith Z.eqb v1 a2) in
            s12 <- mapM (get sub1) sub2 ;;
            sub1' <- mapM (get st) s12 ;;
            Ok (sub1', sub2)
        | None =>
            v1 <- mapM (get a1) sub1 ;;
            let sub2 := flatnonzero (zipWith Z.eqb v1 a2) in
            sub1' <- mapM (get sub1) sub2 ;;
            Ok (sub1', sub2)
        end
  | _, _ => Raise ValueError
  end.

End Match.

(** ** The choice of the components to merge and to split *)

(** What [np.array(U[k], ndmin=1)] is: an integer array for an index
    array, a boolean array for the mask [H], an object array for None. *)
Definition to_array (u : nbh) : ndarray :=
  match u with
  | All => ObjectArray
  | Idx l => IntArray (map Z.of_nat l)
  | Mask m => BoolArray m
  end.

(** [a.argmax()] of a flat array: the first NaN if there is one, the
    first maximum otherwise; ValueError on an empty array. *)
Fixpoint argmax_from (best_i : nat) (best : fl) (i : nat) (l : vec) : nat :=
  match l with
  | [] => best_i
  | x :: l' =>
      if negb (is_nan best) && (is_nan x || fltb best x)
      then argmax_from i x (S i) l'
      else argmax_from best_i best (S i) l'
  end.
Definition np_argmax (l : vec) : result nat :=
  match l with
  | [] => Raise ValueError
  | x :: l' => Ok (argmax_from 0 x 1 l')
  end.

Section FindSNM.

Context {np : NumPy} {S : Sorting}.

(** [JM[k,j]] for [k < j]: the overlap of the posteriors on the samples
    that the two neighborhoods share. *)
Definition JM_entry (U : list nbh) (log_q : list vec) (k j : nat) : result fl :=
  '(i_k, i_j) <- match1d (to_array (at_ All U k)) (to_array (at_ All U j)) true ;;
  q_k <- mapM (get (at_ [] log_q k)) i_k ;;
  q_j <- mapM (get (at_ [] log_q j)) i_j ;;
  Ok (dot (map np_exp q_k) (map np_exp q_j)).

(** [_findSNMComponents]: the pair to merge is the one of largest overlap,
    or, where no neighborhoods overlap, the two components of smallest
    amplitude; the component to split is the one of largest leading
    singular value weighted by amplitude that is not in the pair. *)
Definition _findSNMComponents (gmm : GMM) (U : list nbh) (log_p : list vec) (log_S : vec)
           (N : nat) : result (list nat * bool) :=
  let log_q :=
    map (fun k => map (fun x => (x - np_log (at_ NaN (amp gmm) k))%fl)
                      (vsub (at_ [] log_p k) (sel_nbh NaN log_S (at_ All U k))))
        (seq 0 (K gmm)) in
  JM <- mapM (fun k =>
                mapM (fun j => if (k <? j)%nat then JM_entry U log_q k j else Ok f0)
                     (seq 0 (K gmm)))
             (seq 0 (K gmm)) ;;
  flat <- np_argmax (concat JM) ;;
  let j0 := (flat / K gmm)%nat in
  let k0 := (flat mod K gmm)%nat in
  let '(merge_jk, cleanup) :=
    if Nat.eqb j0 0 && Nat.eqb k0 0
    then (firstn 2 (np_argsort (amp gmm)), true)
    else ([j0; k0], false) in
  EV <- mapM (fun c => '(_, s, _) <- linalg_svd c ;; Ok s) (covar gmm) ;;
  EV0 <- mapM (fun s => get s 0) EV ;;
  let JS := zipWith fmul EV0 (amp gmm) in
  let order := np_argsort JS in
  let split_l3 := rev (skipn (length order - 3) order) in
  m0 <- get merge_jk 0 ;;
  m1 <- get merge_jk 1 ;;
  s0 <- get split_l3 0 ;;
  if mem s0 merge_jk then
    s1 <- get split_l3 1 ;;
    if negb (mem s1 merge_jk) then Ok ([m0; m1; s1], cleanup)
    else s2 <- get split_l3 2 ;; Ok ([m0; m1; s2], cleanup)
  else Ok ([m0; m1; s0], cleanup).

End FindSNM.

(** A neighborhood that [match1d] accepts: an index array that is not
    empty. *)
Definition index_array (u : nbh) : bool :=
  match u with
  | Idx (_ :: _) => true
  | _ => false
  end.

(** The log-densities [lp] of a component fit its neighborhood [u]
    among [n] samples: the neighborhood names samples below [n], and
    there is one log-density for each of them. *)
Definition fits (n : nat) (u : nbh) (lp : vec) : Prop :=
  match u with
  | All => length lp = n
  | Idx l => Forall (fun i => (i < n)%nat) l /\ length lp = length l
  | Mask m => length m = n /\ length lp = count_true m
  end.

(** A finite value. *)
Definition finite (a : fl) : Prop :=
  match a with
  | Fin _ => True
  | _ => False
  end.

(** ** Stacking *)

(** The loop of [stack] over the mixtures: amplitudes weighted, means
    and covariances concatenated.  [np.concatenate] raises ValueError on
    means of another dimension. *)
Fixpoint stack_from (D0 : nat) (gmms : list GMM) (weights : vec) (m : nat)
         (stacked : GMM) : result GMM :=
  match gmms with
  | [] => Ok stacked
  | g :: gmms' =>
      w <- get weights m ;;
      if negb (Nat.eqb (D g) D0) then Raise ValueError
      else
        stack_from D0 gmms' weights (S m)
                   (mkGMM (amp stacked ++ map (fmul w) (amp g))
                          (mean stacked ++ mean g)
                          (covar stacked ++ covar g) D0)
  end.

(** [stack(gmms, weights)]. *)
Definition stack (gmms : list GMM) (weights : vec) : result GMM :=
  g0 <- get gmms 0 ;;
  stacked <- stack_from (D g0) gmms weights 0 (mkGMM [] [] [] (D g0)) ;;
  Ok (mkGMM (vdivs (amp stacked) (fsum (amp stacked)))
            (mean stacked) (covar stacked) (D stacked)).

(** ** A sorting instance *)

Module InsertionSort.

Section By.

Variable A : Type.
Variable leb : A -> A -> bool.

(** Insert the index [i] after the indices whose keys are not above its
    key. *)
Fixpoint insert_by (key : nat -> A) (i : nat) (l : list nat) : list nat :=
  match l with
  | [] => [i]
  | j :: l' => if leb (key j) (key i) then j :: insert_by key i l' else i :: l
  end.

Definition argsort_by (d : A) (a : list A) : list nat :=
  fold_left (fun acc i => insert_by (fun k => nth k a d) i acc) (seq 0 (length a)) [].

End By.

(** The order of numpy's sort on floats: NaN last. *)
Definition fleb (x y : fl) : bool :=
  is_nan y || (negb (is_nan x) && negb (fltb y x)).

#[export] Instance insertion : Sorting := {|
  np_argsort_int := argsort_by Z.leb 0%Z;
  np_argsort := argsort_by fleb NaN;
  np_searchsorted := fun a v => count_below v a
|}.

End InsertionSort.

(** ** More small inputs *)

Module MoreInputs.

Import Rational Inputs.

(** Three equal components, of which the sample [fitted_data] is already
    the fit; one round of split and merge, without and with a
    background. *)
Definition third : fl := Fin (1 # 3).
Definition triple_gmm : GMM :=
  mkGMM [third; third; third] [[f0]; [f0]; [f0]] [[[f1]]; [[f1]]; [[f1]]] 1.
Definition snm_plain : fit_args := mkArgs f0 None None None None None tol3 1.
Definition snm_bg : fit_args :=
  mkArgs f0 None None None None (Some flat_background) tol3 1.

(** Log-densities for the neighborhoods [plane_U] of [plane_gmm]. *)
Definition plane_log_p : list vec := [[f0; f0]; [f0]; [f0; f0]].

(** The run of which [unit_gmm] is the fit from the start: its step, the
    head of its first iteration and that of its second. *)
Definition fitted_step := _EMstep fitted_data NoCov None None f0 None.
Definition fitted_init : em_state extra :=
  EM_init unit_gmm (new_buffers unit_gmm fitted_data) (@None Background, 0%nat).
(** A clustering that puts every sample into the first cluster. *)
Definition one_cluster (data : list vec) (K : nat) : list vec * list nat :=
  ([], map (fun _ => 0%nat) data).

Definition fitted_second : em_state extra :=
  match EM_iteration fitted_step None (cutoff_nd_of unit_gmm None)
                     (shift_cutoff_of unit_gmm None) tol3 fitted_init with
  | Ok f => after f
  | Raise _ => fitted_init
  end.

End MoreInputs.

(** ** Ranges *)

(** A draw of [rng.rand]: a finite value of the interval [[0, 1)]. *)
Definition unit_interval (u : fl) : Prop :=
  match u with
  | Fin q => 0 <= q /\ q < 1
  | _ => False
  end.

(** Two finite values in order. *)
Definition fle (a b : fl) : Prop :=
  match a, b with
  | Fin p, Fin q => p <= q
  | _, _ => False
  end.

(** ** Stacking of fitted mixtures *)

Section StackFit.

Context {np : NumPy} {R : RandomState}.

(** The loop of [stack_fit] over the mixtures: the cross-validation of
    [gmms[m]] with the arguments [kwargs[m]] (the covariance apart, as
    [fit] takes it), then, from the state that the generator had before
    it, the fit on all the data, which the mixture keeps.  The generator
    of [stack_fit] is taken to be the one of the fits; a background
    belongs to one entry of [kwargs] only. *)
Fixpoint stack_fit_models (findSNM : findSNM_t) (cpu_count : nat) (gmms : list GMM)
         (data : list vec) (kwargs : list (cov_arg * fit_args)) (L : nat) (m : nat)
         (st : rng_t) : result (list vec * list GMM * rng_t) :=
  match gmms with
  | [] => Ok ([], [], st)
  | g :: gmms' =>
      '(cov, a) <- get kwargs m ;;
      let rng_state := st in
      c <- cv_fit findSNM cpu_count g data L cov a st ;;
      r <- fit findSNM (cv_gmm c) data cov (with_background a (cv_background c))
               rng_state ;;
      '(lcvs, fitted, st') <-
         stack_fit_models findSNM cpu_count gmms' data kwargs L (S m) (f_rng r) ;;
      Ok (cv_lcv c :: lcvs, f_gmm r :: fitted, st')
  end.

(** The loop [while True and it < 20] of [stack_fit] on the weights
    [beta]: [fuel] is the number of iterations left to it. *)
Fixpoint stack_weights (fuel : nat) (it : nat) (lcvs : list vec) (N : nat) (tol : fl)
         (beta : vec) (logL : fl) : result vec :=
  match fuel with
  | O => Ok beta
  | S fuel' =>
      let log_p_k :=
        zipWith (fun row lb => map (fun x => (x + lb)%fl) row) lcvs (map np_log beta) in
      log_S <- logsum_axis0 N log_p_k ;;
      let log_p_k := map (fun row => vsub row log_S) log_p_k in
      ls <- mapM logsum log_p_k ;;
      let beta' := map (fun x => (np_exp x / of_nat N)%fl) ls in
      let logL_ := np_mean log_S in
      if (0 <? it)%nat && fltb (logL_ - logL)%fl tol then Ok beta'
      else stack_weights fuel' (S it) lcvs N tol beta' logL_
  end.

(** [stack_fit(gmms, data, kwargs, L, tol, rng)]. *)
Definition stack_fit (findSNM : findSNM_t) (cpu_count : nat) (gmms : list GMM)
           (data : list vec) (kwargs : list (cov_arg * fit_args)) (L : nat) (tol : fl)
           (st : rng_t) : result (GMM * list GMM * rng_t) :=
  let M := length gmms in
  let N := length data in
  '(lcvs, fitted, st') <- stack_fit_models findSNM cpu_count gmms data kwargs L 0 st ;;
  let beta := repeat (f1 / of_nat M)%fl M in
  beta' <- stack_weights 20 0 lcvs N tol beta NaN ;;
  stacked <- stack fitted beta' ;;
  Ok (stacked, fitted, st').

End StackFit.

(** ** Initialisation from k-means clusters *)

(** [a.mean(axis=0)] of the rows [members], of [D] columns: the sum over
    the count, NaN in every column where there is no row. *)
Definition cluster_mean (D : nat) (members : list vec) : vec :=
  vdivs (vsum D members) (of_nat (length members)).

Section InitKMeans.

(** [scipy.cluster.vq.kmeans2(data, K)]: the centers, and for each
    sample the label of its cluster. *)
Variable kmeans2 : list vec -> nat -> list vec * list nat.

(** [initFromKMeans]: amplitude, mean and covariance of each component
    from the samples of its cluster. *)
Definition initFromKMeans (gmm : GMM) (data : list vec) : GMM :=
  let '(center, label) := kmeans2 data (K gmm) in
  fold_left
    (fun g k =>
       let mask := map (fun l => Nat.eqb l k) label in
       let members := take_mask data mask in
       let mean_k := cluster_mean (D gmm) members in
       let d_m := map (fun x => vsub x mean_k) members in
       mkGMM (set_at (amp g) k (of_nat (count_true mask) * f1 / of_nat (length data))%fl)
             (set_at (mean g) k mean_k)
             (set_at (covar g) k
                     (mdivs (msum (D gmm) (map (fun d => outer d d) d_m))
                            (of_nat (length data))))
             (D g))
    (seq 0 (K gmm)) gmm.

End InitKMeans.
(** * Properties *)

(** ** Arithmetic of [fl] *)

Lemma Qltb_lt (a b : Q) : Qltb a b = true <-> a < b.
Proof.
  unfold Qltb. rewrite negb_true_iff. split; intro Hab.
  - apply Qnot_le_lt. intro Hle. apply Qle_bool_iff in Hle. congruence.
  - destruct (Qle_bool b a) eqn:E; [|reflexivity].
    apply Qle_bool_iff in E. exfalso. apply (Qlt_not_le _ _ Hab E).
Qed.

Lemma Qzero_iff (a : Q) : Qzero a = true <-> a == 0.
Proof. unfold Qzero. apply Qeq_bool_iff. Qed.

Lemma Qzero_false (a : Q) : ~ a == 0 -> Qzero a = false.
Proof.
  intro Hn. destruct (Qzero a) eqn:E; [|reflexivity].
  apply Qzero_iff in E. contradiction.
Qed.

Lemma feq_refl (a : fl) : feq a a.
Proof. destruct a; simpl; auto. reflexivity. Qed.

Lemma feq_sym (a b : fl) : feq a b -> feq b a.
Proof. destruct a, b; simpl; auto. intro E. symmetry. exact E. Qed.

Lemma feq_trans (a b c : fl) : feq a b -> feq b c -> feq a c.
Proof.
  destruct a, b, c; simpl; try tauto; try congruence.
  intros E1 E2. rewrite E1. exact E2.
Qed.

Lemma fadd_Fin (x y : Q) : feq (Fin x + Fin y) (Fin (x + y)).
Proof. unfold fadd, feq. apply Qred_correct. Qed.

Lemma fdiv_Fin (x y : Q) : ~ y == 0 -> feq (Fin x / Fin y) (Fin (x / y)).
Proof. intro Hy. unfold fdiv, feq. rewrite (Qzero_false Hy). apply Qred_correct. Qed.

Lemma fdiv_zero_zero : (f0 / f0)%fl = NaN.
Proof. reflexivity. Qed.

Lemma fdiv_NaN_r (a : fl) : (a / NaN)%fl = NaN.
Proof. destruct a; reflexivity. Qed.

Lemma fdiv_NaN_l (a : fl) : (NaN / a)%fl = NaN.
Proof. reflexivity. Qed.

(** A regression beyond the tolerance is a fortiori below the upper
    tolerance band. *)
Lemma fltb_minus_plus (x l tol : fl) :
  nonneg tol -> fltb x (l - tol)%fl = true -> fltb x (l + tol)%fl = true.
Proof.
  destruct tol as [t| |]; cbn [nonneg]; try tauto. intro Ht.
  destruct x as [a|sa|], l as [b|sb|]; unfold fsub, fneg, fadd, fltb; auto.
  rewrite !Qltb_lt, !Qred_correct. lra.
Qed.

(** ** Lists *)

Lemma set_at_length {A} (l : list A) k v : length (set_at l k v) = length l.
Proof.
  revert k. induction l as [|a l IH]; intros [|k]; simpl; auto.
Qed.

Lemma set_idx_length {A} (idx : list nat) : forall (l vs : list A),
  length (set_idx l idx vs) = length l.
Proof.
  induction idx as [|k idx IH]; intros l [|v vs]; simpl; auto.
  rewrite IH. apply set_at_length.
Qed.

Lemma at_set_at_same {A} (d : A) (l : list A) k v :
  (k < length l)%nat -> at_ d (set_at l k v) k = v.
Proof.
  unfold at_. revert k. induction l as [|a l IH]; intros [|k] Hk; simpl in *; try lia; auto.
  apply IH. lia.
Qed.

Lemma at_set_at_other {A} (d : A) (l : list A) k j v :
  k <> j -> at_ d (set_at l k v) j = at_ d l j.
Proof.
  unfold at_. revert k j. induction l as [|a l IH]; intros [|k] [|j] Hkj; simpl; auto; try lia.
Qed.

(** Writing one value [f k] at every index [k] of [idx]. *)
Lemma at_set_idx_in {A} (d : A) (f : nat -> A) (idx : list nat) : forall (l : list A) k,
  In k idx -> (k < length l)%nat -> at_ d (set_idx l idx (map f idx)) k = f k.
Proof.
  induction idx as [|j idx IH]; intros l k Hin Hk; simpl in *; [tauto|].
  destruct (in_dec Nat.eq_dec k idx) as [Hi|Hni].
  - apply IH; auto. rewrite set_at_length. exact Hk.
  - destruct Hin as [->|Hin]; [|contradiction].
    clear IH. revert Hni.
    generalize (set_at l k (f k)) (at_set_at_same d l (f k) Hk).
    induction idx as [|i idx IH']; intros l' Hl' Hni; simpl; auto.
    apply IH'.
    + rewrite at_set_at_other; auto. intros ->. apply Hni. left. reflexivity.
    + intro Hi. apply Hni. right. exact Hi.
Qed.

Lemma at_set_idx_notin {A} (d : A) (idx : list nat) : forall (l vs : list A) k,
  ~ In k idx -> at_ d (set_idx l idx vs) k = at_ d l k.
Proof.
  induction idx as [|j idx IH]; intros l [|v vs] k Hni; simpl; auto.
  rewrite IH.
  - apply at_set_at_other. intros ->. apply Hni. left. reflexivity.
  - intro Hi. apply Hni. right. exact Hi.
Qed.

Lemma take_mask_seq_in (m : list bool) : forall s k,
  In k (take_mask (seq s (length m)) m) <->
  (s <= k < s + length m)%nat /\ nth (k - s) m false = true.
Proof.
  induction m as [|b m IH]; intros s k; simpl.
  - split; [tauto|]. intros [Hk _]. lia.
  - destruct b; simpl; rewrite ?IH.
    + split.
      * intros [<-|[Hk Hn]].
        -- split; [lia|]. rewrite Nat.sub_diag. reflexivity.
        -- split; [lia|]. destruct (k - s)%nat as [|j] eqn:E; [lia|].
           replace (k - S s)%nat with j in Hn by lia. exact Hn.
      * intros [Hk Hn]. destruct (k - s)%nat as [|j] eqn:E.
        -- left. lia.
        -- right. split; [lia|]. replace (k - S s)%nat with j by lia. exact Hn.
    + split.
      * intros [Hk Hn]. split; [lia|]. destruct (k - s)%nat as [|j] eqn:E; [lia|].
        replace (k - S s)%nat with j in Hn by lia. exact Hn.
      * intros [Hk Hn]. destruct (k - s)%nat as [|j] eqn:E; [discriminate|].
        split; [lia|]. replace (k - S s)%nat with j by lia. exact Hn.
Qed.

Lemma flatnonzero_in (m : list bool) k :
  In k (flatnonzero m) <-> nth k m false = true.
Proof.
  unfold flatnonzero. rewrite take_mask_seq_in. rewrite Nat.sub_0_r. split.
  - tauto.
  - intro Hn. split; [|exact Hn]. split; [lia|].
    destruct (Nat.lt_ge_cases k (length m)) as [Hlt|Hge]; [lia|].
    rewrite nth_overflow in Hn by exact Hge. discriminate.
Qed.

Lemma mapM_Ok_length {A B} (f : A -> result B) : forall l r,
  mapM f l = Ok r -> length r = length l.
Proof.
  induction l as [|a l IH]; intros r Hr; simpl in Hr.
  - inversion Hr. reflexivity.
  - destruct (f a) as [b|e]; simpl in Hr; [|discriminate].
    destruct (mapM f l) as [bs|e]; simpl in Hr; [|discriminate].
    inversion Hr. simpl. f_equal. apply IH. reflexivity.
Qed.

Lemma mapM_Ok_nth {A B} (f : A -> result B) (da : A) (db : B) : forall l r j,
  mapM f l = Ok r -> (j < length l)%nat -> f (nth j l da) = Ok (nth j r db).
Proof.
  induction l as [|a l IH]; intros r j Hr Hj; simpl in *; [lia|].
  destruct (f a) as [b|e] eqn:Ea; simpl in Hr; [|discriminate].
  destruct (mapM f l) as [bs|e]; simpl in Hr; [|discriminate].
  inversion Hr; subst. destruct j as [|j]; simpl; auto. apply IH; auto. lia.
Qed.

(** ** The EM driver *)

Section DriverProps.

Context {np : NumPy}.
Variable X : Type.
Variable step : GMM -> buffers -> X -> nat -> option fl ->
                result (fl * nat * nat * GMM * buffers * X).


(** What an iteration does, case by case, once its step and the
    displacements are computed. *)
Lemma EM_iteration_cases cutoff cnd sc tol (st : em_state X)
      log_L_ N N2 gmm buf x shift2 :
  step (e_gmm st) (e_buf st) (e_x st) (e_N2 st) cnd = Ok (log_L_, N, N2, gmm, buf, x) ->
  shift2_of gmm (e_gmm_ st) = Ok shift2 ->
  let moved := moved_of shift2 sc in
  let out := e_out st ++ [mkReport (e_it st) N N2 log_L_ (K gmm - length moved)] in
  let next :=
    Next (mkEM gmm (assign (e_gmm_ st) gmm)
               (set_U buf (reset_moved cutoff (U buf) moved)) x log_L_ N N2
               (S (e_it st)) out) in
  EM_iteration step cutoff cnd sc tol st =
  Ok (if (0 <? e_it st)%nat && fltb log_L_ (e_log_L st + tol)%fl then
        if fltb log_L_ (e_log_L st - tol)%fl then
          Break (mkEM (assign gmm (e_gmm_ st)) (e_gmm_ st) buf x (e_log_L st) N N2
                      (e_it st) out)
        else if Nat.eqb (length moved) 0 then
          Break (mkEM gmm (e_gmm_ st) buf x log_L_ N N2 (e_it st) out)
        else next
      else next).
Proof.
  intros Hstep Hshift. unfold EM_iteration. rewrite Hstep. cbn [bind].
  rewrite Hshift. cbn [bind].
  destruct ((0 <? e_it st)%nat && fltb log_L_ (e_log_L st + tol)%fl); [|reflexivity].
  destruct (fltb log_L_ (e_log_L st - tol)%fl); [reflexivity|].
  destruct (Nat.eqb (length (moved_of shift2 sc)) 0); reflexivity.
Qed.

(** An iteration that returns has run its step and computed the
    displacements. *)
Lemma EM_iteration_inv cutoff cnd sc tol (st : em_state X) f :
  EM_iteration step cutoff cnd sc tol st = Ok f ->
  exists log_L_ N N2 gmm buf x shift2,
    step (e_gmm st) (e_buf st) (e_x st) (e_N2 st) cnd = Ok (log_L_, N, N2, gmm, buf, x)
    /\ shift2_of gmm (e_gmm_ st) = Ok shift2.
Proof.
  unfold EM_iteration. intro Hf.
  destruct (step (e_gmm st) (e_buf st) (e_x st) (e_N2 st) cnd)
    as [[[[[[log_L_ N] N2] gmm] buf] x]|e] eqn:Hstep; cbn [bind] in Hf; [|discriminate].
  destruct (shift2_of gmm (e_gmm_ st)) as [shift2|e] eqn:Hshift; cbn [bind] in Hf;
    [|discriminate].
  exists log_L_, N, N2, gmm, buf, x, shift2. split; [reflexivity|exact Hshift].
Qed.

Lemma EM_iteration_Next cutoff cnd sc tol (st st' : em_state X) :
  EM_iteration step cutoff cnd sc tol st = Ok (Next st') ->
  exists log_L_ N N2 gmm buf x shift2,
    step (e_gmm st) (e_buf st) (e_x st) (e_N2 st) cnd = Ok (log_L_, N, N2, gmm, buf, x)
    /\ shift2_of gmm (e_gmm_ st) = Ok shift2
    /\ st' = mkEM gmm (assign (e_gmm_ st) gmm)
                  (set_U buf (reset_moved cutoff (U buf) (moved_of shift2 sc)))
                  x log_L_ N N2 (S (e_it st))
                  (e_out st ++ [mkReport (e_it st) N N2 log_L_
                                         (K gmm - length (moved_of shift2 sc))]).
Proof.
  intro Hf. destruct (EM_iteration_inv _ _ _ _ _ Hf)
    as (log_L_ & N & N2 & gmm & buf & x & shift2 & Hstep & Hshift).
  exists log_L_, N, N2, gmm, buf, x, shift2. split; [exact Hstep|]. split; [exact Hshift|].
  rewrite (EM_iteration_cases cutoff sc tol st Hstep Hshift) in Hf.
  destruct ((0 <? e_it st)%nat && fltb log_L_ (e_log_L st + tol)%fl).
  - destruct (fltb log_L_ (e_log_L st - tol)%fl); [discriminate|].
    destruct (Nat.eqb (length (moved_of shift2 sc)) 0); [discriminate|].
    inversion Hf. reflexivity.
  - inversion Hf. reflexivity.
Qed.

(** Every iteration prints one report; only an iteration that goes on
    increments [it]. *)
Lemma EM_iteration_counts cutoff cnd sc tol (st : em_state X) f :
  EM_iteration step cutoff cnd sc tol st = Ok f ->
  length (e_out (after f)) = S (length (e_out st))
  /\ e_it (after f) = match f with Next _ => S (e_it st) | Break _ => e_it st end.
Proof.
  intro Hf. destruct (EM_iteration_inv _ _ _ _ _ Hf)
    as (log_L_ & N & N2 & gmm & buf & x & shift2 & Hstep & Hshift).
  rewrite (EM_iteration_cases cutoff sc tol st Hstep Hshift) in Hf.
  inversion Hf as [Hf']. clear Hf.
  destruct ((0 <? e_it st)%nat && fltb log_L_ (e_log_L st + tol)%fl);
    [destruct (fltb log_L_ (e_log_L st - tol)%fl);
     [|destruct (Nat.eqb (length (moved_of shift2 sc)) 0)]|];
    cbn [after e_out e_it]; rewrite length_app; cbn [length]; split; auto; lia.
Qed.

(** [maxiter - it] units of fuel are enough. *)
Lemma EM_loop_fuel maxiter cutoff cnd sc tol : forall fuel (st : em_state X),
  (maxiter - e_it st <= fuel)%nat ->
  exists r, EM_loop step fuel maxiter cutoff cnd sc tol st = Some r.
Proof.
  induction fuel as [|fuel IH]; intros st Hfuel.
  - cbn [EM_loop]. destruct (e_it st <? maxiter)%nat eqn:E.
    + apply Nat.ltb_lt in E. lia.
    + eexists. reflexivity.
  - cbn [EM_loop]. destruct (e_it st <? maxiter)%nat eqn:E; [|eexists; reflexivity].
    destruct (EM_iteration step cutoff cnd sc tol st) as [[st'|st']|e] eqn:Hit;
      try (eexists; reflexivity).
    apply IH. destruct (EM_iteration_counts _ _ _ _ _ Hit) as [_ Hi].
    cbn [after] in Hi. rewrite Hi. lia.
Qed.

(** The reports count the iterations: at most [maxiter] of them are
    executed. *)
Lemma EM_loop_reports maxiter cutoff cnd sc tol : forall fuel (st st' : em_state X),
  (e_it st <= maxiter)%nat -> length (e_out st) = e_it st ->
  EM_loop step fuel maxiter cutoff cnd sc tol st = Some (Ok st') ->
  (length (e_out st') <= maxiter)%nat /\ (e_it st' <= maxiter)%nat.
Proof.
  induction fuel as [|fuel IH]; intros st st' Hle Hout Hrun; cbn [EM_loop] in Hrun.
  - destruct (e_it st <? maxiter)%nat; [discriminate|]. inversion Hrun; subst. lia.
  - destruct (e_it st <? maxiter)%nat eqn:E.
    2:{ inversion Hrun; subst. lia. }
    apply Nat.ltb_lt in E.
    destruct (EM_iteration step cutoff cnd sc tol st) as [[s1|s1]|e] eqn:Hit; [| |discriminate].
    + destruct (EM_iteration_counts _ _ _ _ _ Hit) as [Ho Hi]. cbn [after] in Ho, Hi.
      apply (IH s1 st'); auto; lia.
    + destruct (EM_iteration_counts _ _ _ _ _ Hit) as [Ho Hi]. cbn [after] in Ho, Hi.
      inversion Hrun; subst. lia.
Qed.

Lemma loop_head_it maxiter cutoff cnd sc tol (s0 s : em_state X) :
  loop_head step maxiter cutoff cnd sc tol s0 s -> (e_it s0 <= e_it s)%nat.
Proof.
  induction 1 as [|s s' _ IH _ Hit]; [lia|].
  destruct (EM_iteration_counts _ _ _ _ _ Hit) as [_ Hi]. cbn [after] in Hi. lia.
Qed.

(** The loop started in [s0] passes through each of its heads. *)
Lemma loop_head_run maxiter cutoff cnd sc tol (s0 s : em_state X) :
  loop_head step maxiter cutoff cnd sc tol s0 s ->
  forall fuel,
    EM_loop step (fuel + (e_it s - e_it s0)) maxiter cutoff cnd sc tol s0 =
    EM_loop step fuel maxiter cutoff cnd sc tol s.
Proof.
  induction 1 as [|s s' Hh IH Hlt Hit]; intro fuel.
  - rewrite Nat.sub_diag, Nat.add_0_r. reflexivity.
  - destruct (EM_iteration_counts _ _ _ _ _ Hit) as [_ Hi]. cbn [after] in Hi.
    pose proof (loop_head_it Hh) as Hle.
    replace (fuel + (e_it s' - e_it s0))%nat with (S fuel + (e_it s - e_it s0))%nat by lia.
    rewrite IH. cbn [EM_loop].
    apply Nat.ltb_lt in Hlt. rewrite Hlt, Hit. reflexivity.
Qed.

(** At every head of the loop the backup holds the parameters of the
    mixture. *)
Lemma loop_head_backup maxiter cutoff cnd sc tol (s0 s : em_state X) :
  loop_head step maxiter cutoff cnd sc tol s0 s ->
  amp (e_gmm_ s0) = amp (e_gmm s0) /\ mean (e_gmm_ s0) = mean (e_gmm s0)
  /\ covar (e_gmm_ s0) = covar (e_gmm s0) ->
  amp (e_gmm_ s) = amp (e_gmm s) /\ mean (e_gmm_ s) = mean (e_gmm s)
  /\ covar (e_gmm_ s) = covar (e_gmm s).
Proof.
  induction 1 as [|s s' _ _ _ Hit]; intro H0; [exact H0|].
  destruct (EM_iteration_Next _ _ _ _ _ Hit)
    as (l & N & N2 & g & b & x & sh & _ & _ & ->).
  cbn. auto.
Qed.

End DriverProps.

Section DriverGuarantees.

Context {np : NumPy}.
Variable X : Type.
Variable step : GMM -> buffers -> X -> nat -> option fl ->
                result (fl * nat * nat * GMM * buffers * X).

(** C2.  When the log-likelihood [l1] of an iteration after the first
    falls below the log-likelihood [lp] of the iteration before it minus
    the (non-negative) tolerance, the driver returns at once with the
    amplitudes, means and covariances [gp] that the previous iteration
    had left, and the log-likelihood it returns is [lp], not [l1].  The
    premises name the two iterations: the previous one starts in the loop
    head [s], runs the step to [(lp, gp)] and goes on to the head [st]; the
    regressing one runs the step in [st] to [l1]. *)
Theorem regression_restores_previous
        gmm buf x cutoff tol (s st : em_state X)
        lp Np N2p gp bp xp l1 N1 N21 g1 b1 x1 shift2 :
  let maxiter := maxiter_of gmm in
  let cnd := cutoff_nd_of gmm cutoff in
  let sc := shift_cutoff_of gmm cutoff in
  loop_head step maxiter cutoff cnd sc tol (EM_init gmm buf x) s ->
  (e_it s < maxiter)%nat ->
  step (e_gmm s) (e_buf s) (e_x s) (e_N2 s) cnd = Ok (lp, Np, N2p, gp, bp, xp) ->
  EM_iteration step cutoff cnd sc tol s = Ok (Next st) ->
  (e_it st < maxiter)%nat ->
  step (e_gmm st) (e_buf st) (e_x st) (e_N2 st) cnd = Ok (l1, N1, N21, g1, b1, x1) ->
  shift2_of g1 (e_gmm_ st) = Ok shift2 ->
  nonneg tol ->
  fltb l1 (lp - tol)%fl = true ->
  exists st',
    EM_with step gmm buf x cutoff tol = Ok st'
    /\ amp (e_gmm st') = amp gp
    /\ mean (e_gmm st') = mean gp
    /\ covar (e_gmm st') = covar gp
    /\ e_log_L st' = lp
    /\ length (e_out st') = S (e_it st).
Proof.
  intros maxiter cnd sc Hhead Hlt Hprev Hnext Hlt' Hstep Hshift Htol Hreg.
  pose proof Hnext as Hn. apply EM_iteration_Next in Hn.
  destruct Hn as (l & N & N2 & g & b & x' & sh & Hprev' & _ & Hst).
  rewrite Hprev in Hprev'. inversion Hprev'; subst l N N2 g b x'. clear Hprev'.
  assert (Hhead' : loop_head step maxiter cutoff cnd sc tol (EM_init gmm buf x) st)
    by (eapply head_next; eauto).
  assert (Hout : length (e_out st) = e_it st).
  { clear - Hhead'. induction Hhead' as [|a a' _ IH _ Hit]; [reflexivity|].
    apply EM_iteration_counts in Hit. destruct Hit as [Ho Hi]. cbn [after] in Ho, Hi. lia. }
  assert (Hit : (0 < e_it st)%nat) by (rewrite Hst; cbn; lia).
  assert (Hll : e_log_L st = lp) by (rewrite Hst; reflexivity).
  assert (Hbk : amp (e_gmm_ st) = amp gp /\ mean (e_gmm_ st) = mean gp
                /\ covar (e_gmm_ st) = covar gp) by (rewrite Hst; cbn; auto).
  pose proof (@EM_iteration_cases _ _ step cutoff _ sc tol st _ _ _ _ _ _ _ Hstep Hshift)
    as Hcase.
  cbv zeta in Hcase. rewrite Hll in Hcase.
  apply Nat.ltb_lt in Hit. rewrite Hit, (@fltb_minus_plus _ _ _ Htol Hreg), Hreg in Hcase.
  cbn [andb] in Hcase.
  eexists. split.
  - unfold EM_with. fold maxiter cnd sc.
    pose proof (loop_head_run Hhead' (maxiter - e_it st)) as Hrun.
    replace (maxiter - e_it st + (e_it st - e_it (EM_init gmm buf x)))%nat
      with maxiter in Hrun by (cbn [EM_init e_it]; lia).
    rewrite Hrun.
    destruct (maxiter - e_it st)%nat as [|fuel] eqn:Ef; [lia|].
    cbn [EM_loop]. apply Nat.ltb_lt in Hlt'. rewrite Hlt', Hcase. reflexivity.
  - cbn [e_gmm e_log_L e_out assign amp mean covar]. rewrite length_app, Hout.
    cbn [length]. destruct Hbk as (Ha & Hm & Hc). repeat split; auto; lia.
Qed.


Lemma zero_or_nan_fsub (a : fl) : zero_or_nan (a - a)%fl.
Proof.
  destruct a as [q|s|]; unfold fsub, fneg, fadd, zero_or_nan; auto.
  - rewrite !Qred_correct. ring.
  - destruct s; exact I.
Qed.

Lemma zero_or_nan_fadd (a b : fl) : zero_or_nan a -> zero_or_nan b -> zero_or_nan (a + b)%fl.
Proof.
  destruct a as [p|s|], b as [q|t|]; unfold fadd, zero_or_nan; try tauto.
  intros Hp Hq. rewrite Qred_correct, Hp, Hq. reflexivity.
Qed.

Lemma zero_or_nan_fmul (a b : fl) : zero_or_nan a -> zero_or_nan (a * b)%fl.
Proof.
  destruct a as [p|s|], b as [q|t|]; unfold fmul, zero_or_nan; try tauto.
  - intros Hp. rewrite Qred_correct, Hp. ring.
  - intros Hp. apply Qzero_iff in Hp. rewrite Hp. exact I.
Qed.

Lemma zero_or_nan_fsum_from (l : vec) : forall acc,
  zero_or_nan acc -> Forall zero_or_nan l -> zero_or_nan (fold_left fadd l acc).
Proof.
  induction l as [|a l IH]; intros acc Hacc Hl; cbn [fold_left]; [exact Hacc|].
  inversion Hl; subst. apply IH; auto. apply zero_or_nan_fadd; auto.
Qed.

Lemma zero_or_nan_quad (m : vec) (T : mat) : zero_or_nan (quad (vsub m m) T).
Proof.
  unfold quad, dot, fsum. apply zero_or_nan_fsum_from; [reflexivity|].
  unfold zipWith. apply Forall_map. generalize (matvec T (vsub m m)) as y.
  unfold vsub, zipWith.
  induction m as [|a m IH]; intros [|b y]; cbn [combine map]; constructor.
  - cbn [fst snd]. apply zero_or_nan_fmul, zero_or_nan_fsub.
  - apply IH.
Qed.

Lemma zero_or_nan_not_beyond (a sc : fl) :
  zero_or_nan a -> fltb sc f0 = false -> fgtb a sc = false.
Proof.
  unfold fgtb. destruct a as [q|s|], sc as [c|t|]; unfold fltb, zero_or_nan, f0;
    try tauto; auto.
  - intros Hq Hc. destruct (Qltb c q) eqn:E; [|reflexivity].
    apply Qltb_lt in E. rewrite Hq in E. apply Qltb_lt in E. congruence.
Qed.

(** The displacements of a mixture from itself. *)
Lemma zero_or_nan_shifts (l : list vec) : forall (C : list mat) k,
  zero_or_nan (nth k (zipWith (fun d T => quad d T) (zipWith vsub l l) C) NaN).
Proof.
  unfold zipWith.
  induction l as [|m l IH]; intros C k.
  - cbn [combine map]. destruct k; exact I.
  - destruct C as [|T C]; [cbn [combine map]; destruct k; exact I|].
    cbn [combine map fst snd]. destruct k as [|k]; cbn [nth].
    + apply zero_or_nan_quad.
    + apply IH.
Qed.

Lemma shift2_of_restored (g b : GMM) shift2 k :
  mean g = mean b -> shift2_of g b = Ok shift2 -> zero_or_nan (at_ NaN shift2 k).
Proof.
  unfold shift2_of. intros Hm. rewrite Hm.
  destruct (mapM linalg_inv (covar b)) as [C|e]; cbn [bind]; [|discriminate].
  intro Hs. inversion Hs. apply zero_or_nan_shifts.
Qed.

(** With a truncation cutoff configured, a component whose mean, as an
    iteration leaves it, lies beyond a threshold [sc] that is not negative
    from the mean the previous iteration had left, in the metric of the
    previous covariance, has its neighborhood set to None by that
    iteration, whatever the threshold the loop is run with. *)
Lemma beyond_threshold_reset
        c cnd sc tol (st : em_state X) f shift2 k :
  fltb sc f0 = false ->
  EM_iteration step (Some c) cnd sc tol st = Ok f ->
  shift2_of (e_gmm (after f)) (e_gmm_ st) = Ok shift2 ->
  fgtb (at_ NaN shift2 k) sc = true ->
  (k < length (U (e_buf (after f))))%nat ->
  at_ (Idx []) (U (e_buf (after f))) k = All.
Proof.
  intros Hsc Hf Hshift Hk Hlen.
  pose proof Hf as Hi. apply EM_iteration_inv in Hi.
  destruct Hi as (l1 & N1 & N21 & g1 & b1 & x1 & sh & Hstep & Hsh).
  rewrite (@EM_iteration_cases _ _ step (Some c) _ sc tol st _ _ _ _ _ _ _ Hstep Hsh) in Hf.
  cbv zeta in Hf.
  assert (Hmoved : after f = mkEM g1 (assign (e_gmm_ st) g1)
                     (set_U b1 (reset_moved (Some c) (U b1) (moved_of sh sc)))
                     x1 l1 N1 N21 (S (e_it st))
                     (e_out st ++ [mkReport (e_it st) N1 N21 l1
                                            (K g1 - length (moved_of sh sc))]) ->
                   at_ (Idx []) (U (e_buf (after f))) k = All).
  { intro Hn. rewrite Hn in Hshift, Hlen |- *. cbn [e_gmm e_buf set_U U] in *.
    rewrite Hsh in Hshift. inversion Hshift; subst sh. clear Hshift.
    unfold reset_moved in *. rewrite set_idx_length in Hlen.
    apply (at_set_idx_in (Idx []) (fun _ => All)); [|exact Hlen].
    unfold moved_of. apply flatnonzero_in.
    unfold at_ in Hk.
    destruct (Nat.lt_ge_cases k (length shift2)) as [Hlt|Hge].
    - rewrite (nth_indep _ false (fgtb NaN sc)) by (rewrite length_map; exact Hlt).
      rewrite (map_nth (fun s => fgtb s sc)). exact Hk.
    - rewrite nth_overflow in Hk by exact Hge. destruct sc; discriminate. }
  destruct ((0 <? e_it st)%nat && fltb l1 (e_log_L st + tol)%fl).
  - destruct (fltb l1 (e_log_L st - tol)%fl).
    + inversion Hf; subst f. cbn [after e_gmm assign] in Hshift.
      assert (Hz : zero_or_nan (at_ NaN shift2 k)).
      { eapply shift2_of_restored; [|exact Hshift]. reflexivity. }
      rewrite (@zero_or_nan_not_beyond _ _ Hz Hsc) in Hk. discriminate.
    + destruct (Nat.eqb (length (moved_of sh sc)) 0) eqn:E.
      * inversion Hf; subst f. cbn [after e_gmm] in Hshift.
        rewrite Hsh in Hshift. inversion Hshift; subst sh. clear Hshift.
        apply Nat.eqb_eq in E. apply length_zero_iff_nil in E.
        assert (Hin : In k (moved_of shift2 sc)).
        { unfold moved_of. apply flatnonzero_in. unfold at_ in Hk.
          destruct (Nat.lt_ge_cases k (length shift2)) as [Hlt|Hge].
          - rewrite (nth_indep _ false (fgtb NaN sc)) by (rewrite length_map; exact Hlt).
            rewrite (map_nth (fun s => fgtb s sc)). exact Hk.
          - rewrite nth_overflow in Hk by exact Hge. destruct sc; discriminate. }
        rewrite E in Hin. destruct Hin.
      * inversion Hf; subst f. apply Hmoved. reflexivity.
  - inversion Hf; subst f. apply Hmoved. reflexivity.
Qed.

(** C7, as the code has it.  With a truncation cutoff [c] configured,
    the driver runs its iterations with the displacement threshold
    [shift_cutoff = chi2_cutoff(D, min(0.25, c/2))].  A component whose
    mean, as an iteration leaves it, lies beyond that threshold from the
    mean the previous iteration had left, the squared displacement being
    measured in the metric of the previous covariance, has its
    neighborhood set to None by that iteration: no neighborhood is
    retained across an iteration in which its component moved that far.
    The threshold is a chi-square quantile and so not negative. *)
Theorem moved_component_loses_neighborhood
        gmm c tol (st : em_state X) f shift2 k :
  let cnd := cutoff_nd_of gmm (Some c) in
  let sc := shift_cutoff_of gmm (Some c) in
  sc = chi2_cutoff (D gmm) (py_min quarter (c / two)%fl)
  /\ (fltb sc f0 = false ->
      EM_iteration step (Some c) cnd sc tol st = Ok f ->
      shift2_of (e_gmm (after f)) (e_gmm_ st) = Ok shift2 ->
      fgtb (at_ NaN shift2 k) sc = true ->
      (k < length (U (e_buf (after f))))%nat ->
      at_ (Idx []) (U (e_buf (after f))) k = All).
Proof.
  intros cnd sc. split; [reflexivity|].
  intros Hsc Hf Hshift Hk Hlen.
  exact (@beyond_threshold_reset c cnd sc tol st f shift2 k Hsc Hf Hshift Hk Hlen).
Qed.

(** C9.  The loop of the driver executes at most [max(100, K)]
    iterations: that many units of fuel, one per iteration, always bring
    it to an end, and a run that returns has printed at most that many
    iteration reports.  A run that reaches the cap, i.e. a loop head with
    [it = maxiter], ends there and returns that state normally. *)
Theorem EM_iteration_cap gmm buf (x : X) cutoff tol :
  let maxiter := Nat.max 100 (K gmm) in
  let cnd := cutoff_nd_of gmm cutoff in
  let sc := shift_cutoff_of gmm cutoff in
  (exists r, EM_loop step maxiter maxiter cutoff cnd sc tol (EM_init gmm buf x) = Some r
             /\ EM_with step gmm buf x cutoff tol = r)
  /\ (forall st', EM_with step gmm buf x cutoff tol = Ok st' ->
                  (length (e_out st') <= maxiter)%nat /\ (e_it st' <= maxiter)%nat)
  /\ (forall st, loop_head step maxiter cutoff cnd sc tol (EM_init gmm buf x) st ->
                 e_it st = maxiter ->
                 EM_with step gmm buf x cutoff tol = Ok st).
Proof.
  intros maxiter cnd sc.
  assert (Hfuel : exists r, EM_loop step maxiter maxiter cutoff cnd sc tol
                                    (EM_init gmm buf x) = Some r).
  { apply EM_loop_fuel. lia. }
  destruct Hfuel as [r Hr].
  assert (Hwith : EM_with step gmm buf x cutoff tol = r).
  { unfold EM_with, maxiter_of. fold maxiter cnd sc. rewrite Hr. reflexivity. }
  split; [|split].
  - exists r. split; assumption.
  - intros st' Hst'. rewrite Hwith in Hst'. rewrite Hst' in Hr.
    eapply EM_loop_reports; [| |exact Hr]; cbn [EM_init e_it e_out length]; lia.
  - intros st Hhead Hcap. rewrite Hwith. 
    pose proof (loop_head_run Hhead 0) as Hrun.
    cbn [EM_init e_it] in Hrun. rewrite Nat.sub_0_r, Nat.add_0_l, Hcap in Hrun.
    rewrite Hrun in Hr. cbn [EM_loop] in Hr.
    rewrite Hcap, Nat.ltb_irrefl in Hr. congruence.
Qed.

End DriverGuarantees.

Section DriverRuns.

Import Rational Inputs.

Lemma regression_restores_previous_witness :
  exists st',
    _EM far_data NoCov None None two None unit_gmm (new_buffers unit_gmm far_data)
        (@None Background, 0%nat) (Some (Fin 3)) tol3 = Ok st'
    /\ amp (e_gmm st') = [Fin 1]
    /\ mean (e_gmm st') = [[Fin (1 # 2)]]
    /\ covar (e_gmm st') = [[[Fin (13 # 3)]]]
    /\ e_log_L st' = Fin (-347 # 226).
Proof.
  edestruct (@regression_restores_previous _ _ far_step unit_gmm
               (new_buffers unit_gmm far_data) (@None Background, 0%nat)
               (Some (Fin 3)) tol3 far_init)
    as (st' & Hrun & Ha & Hm & Hc & Hl & _).
  - unfold far_init. apply head_first.
  - vm_compute. lia.
  - vm_compute. reflexivity.
  - vm_compute. reflexivity.
  - vm_compute. lia.
  - vm_compute. reflexivity.
  - vm_compute. reflexivity.
  - vm_compute. discriminate.
  - vm_compute. reflexivity.
  - exists st'. split; [exact Hrun|]. repeat split; assumption.
Defined.

Lemma moved_component_loses_neighborhood_witness :
  exists f,
    EM_iteration far_step (Some (Fin 3)) (cutoff_nd_of unit_gmm (Some (Fin 3)))
                 (shift_cutoff_of unit_gmm (Some (Fin 3))) tol3 far_init = Ok f
    /\ at_ (Idx []) (U (e_buf (after f))) 0 = All.
Proof.
  eexists. split.
  - vm_compute. reflexivity.
  - eapply (proj2 (@moved_component_loses_neighborhood _ _ far_step unit_gmm (Fin 3) tol3
                     far_init _ _ 0%nat)).
    + vm_compute. reflexivity.
    + vm_compute. reflexivity.
    + vm_compute. reflexivity.
    + vm_compute. reflexivity.
    + vm_compute. lia.
Defined.

(** C7, as stated, fails in more than one dimension, where the
    chi-square quantile of the threshold lies above a quarter, the square
    of half a standard deviation.  In five dimensions the first iteration
    on [near_data] moves the mean of [wide_gmm] by [13/25] of a standard
    deviation of the previous covariance, more than a half; the squared
    displacement [169/625] is below the threshold ([5/16] with the
    stand-in quantile; the chi-square quantile itself is about 2.3), the
    component is not counted as moved and it keeps the neighborhood that
    the E-step gave it. *)
Lemma half_sigma_move_keeps_neighborhood :
  exists st,
    EM_iteration near_step (Some (Fin 3)) (cutoff_nd_of wide_gmm (Some (Fin 3)))
                 (shift_cutoff_of wide_gmm (Some (Fin 3))) tol3 near_init = Ok (Next st)
    /\ mean (e_gmm_ near_init) = [zeros 5]
    /\ covar (e_gmm_ near_init) = [eye 5]
    /\ mean (e_gmm st) = [[Fin (13 # 25); f0; f0; f0; f0]]
    /\ shift2_of (e_gmm st) (e_gmm_ near_init) = Ok [(Fin (13 # 25) * Fin (13 # 25))%fl]
    /\ fgtb (Fin (13 # 25)) half = true
    /\ at_ All (U (e_buf st)) 0 = Idx [0; 1]%nat.
Proof.
  eexists. split; [vm_compute; reflexivity|].
  repeat split; vm_compute; reflexivity.
Qed.

Lemma EM_iteration_cap_witness :
  exists st,
    EM_with lost_step unit_gmm (new_buffers unit_gmm lost_data)
            (@None Background, 0%nat) (Some (Fin 3)) tol3 = Ok st
    /\ e_it st = 100%nat
    /\ (length (e_out st) <= 100)%nat.
Proof.
  destruct (@EM_iteration_cap _ _ lost_step unit_gmm (new_buffers unit_gmm lost_data)
              (@None Background, 0%nat) (Some (Fin 3)) tol3) as (_ & Hbound & _).
  eexists. split; [vm_compute; reflexivity|]. split; [reflexivity|].
  eapply Hbound. vm_compute. reflexivity.
Defined.

End DriverRuns.

(** ** The number of components is fixed *)

Lemma bind_Ok {A B} (m : result A) (f : A -> result B) (b : B) :
  bind m f = Ok b -> exists a, m = Ok a /\ f a = Ok b.
Proof. destruct m as [a|e]; cbn [bind]; [|discriminate]. intro H. exists a. auto. Qed.

Lemma Ok_inj {A} (a b : A) : Ok a = Ok b -> a = b.
Proof. intro E. inversion E. reflexivity. Qed.

Lemma update_amp_length gmm A12 N12 altered :
  length (update_amp gmm A12 N12 altered) = K gmm.
Proof.
  unfold update_amp, vdivs. rewrite length_map. unfold update_amp_raw.
  destruct altered as [alt|].
  - rewrite set_idx_length. reflexivity.
  - rewrite length_map, length_seq. reflexivity.
Qed.

Lemma update_K gmm s Hsize i N2 w altered background :
  K (fst (_update gmm s Hsize i N2 w altered background)) = K gmm.
Proof. unfold _update. cbn [fst]. unfold K at 1. cbn [amp]. apply update_amp_length. Qed.

Lemma update_D gmm s Hsize i N2 w altered background :
  D (fst (_update gmm s Hsize i N2 w altered background)) = D gmm.
Proof. reflexivity. Qed.

Section StepProps.

Context {np : NumPy} {R : RandomState}.

(** What [_EMstep] returns is what [_update] makes of the mixture it was
    given. *)
Lemma EMstep_update data cov sel_callback covar_callback w altered gmm b x N2 cutoff
      log_L N N2' gmm' b' x' :
  _EMstep data cov sel_callback covar_callback w altered gmm b x N2 cutoff
  = Ok (log_L, N, N2', gmm', b', x') ->
  exists s Hsize i st,
    (gmm', fst x') = _update gmm s Hsize i N2' w altered (fst x) /\ x' = (fst x', st).
Proof.
  unfold _EMstep. destruct x as [background st]. intro Hs.
  apply bind_Ok in Hs. destruct Hs as ([l b1] & _ & Hs).
  apply bind_Ok in Hs. destruct Hs as (s & _ & Hs).
  apply bind_Ok in Hs. destruct Hs as ([[i n2] st1] & _ & Hs).
  destruct (_update gmm s (length (H b1)) i n2 w altered background) as [g bg] eqn:Eu.
  inversion Hs; subst. do 4 eexists.
  cbn [fst]. rewrite Eu. split; reflexivity.
Qed.

End StepProps.

Section LoopInvariant.

Context {np : NumPy}.
Variable X : Type.
Variable step : GMM -> buffers -> X -> nat -> option fl ->
                result (fl * nat * nat * GMM * buffers * X).
Variable P : em_state X -> Prop.
Variables (maxiter : nat) (cutoff cnd : option fl) (sc tol : fl).

Hypothesis P_iteration : forall st f,
  P st -> EM_iteration step cutoff cnd sc tol st = Ok f -> P (after f).

(** A property that every iteration keeps holds of the state the loop
    returns. *)
Lemma EM_loop_invariant : forall fuel st st',
  P st -> EM_loop step fuel maxiter cutoff cnd sc tol st = Some (Ok st') -> P st'.
Proof.
  induction fuel as [|fuel IH]; intros st st' HP Hrun; cbn [EM_loop] in Hrun.
  - destruct (e_it st <? maxiter)%nat; [discriminate|]. inversion Hrun; subst. exact HP.
  - destruct (e_it st <? maxiter)%nat.
    2:{ inversion Hrun; subst. exact HP. }
    destruct (EM_iteration step cutoff cnd sc tol st) as [[s1|s1]|e] eqn:Hit;
      [| |discriminate].
    + apply (IH s1); [|exact Hrun]. apply (P_iteration HP Hit).
    + inversion Hrun; subst. apply (P_iteration HP Hit).
Qed.

End LoopInvariant.

Section ComponentCount.

Context {np : NumPy}.
Variable X : Type.
Variable step : GMM -> buffers -> X -> nat -> option fl ->
                result (fl * nat * nat * GMM * buffers * X).

Hypothesis step_K : forall gmm b x N2 c log_L N N2' gmm' b' x',
  step gmm b x N2 c = Ok (log_L, N, N2', gmm', b', x') -> K gmm' = K gmm.

Lemma EM_with_K gmm buf x cutoff tol st' :
  EM_with step gmm buf x cutoff tol = Ok st' -> K (e_gmm st') = K gmm.
Proof.
  unfold EM_with. intro Hrun.
  destruct (EM_loop step (maxiter_of gmm) (maxiter_of gmm) cutoff (cutoff_nd_of gmm cutoff)
                    (shift_cutoff_of gmm cutoff) tol (EM_init gmm buf x))
    as [r|] eqn:Hloop; [|discriminate]. subst r.
  refine (proj1 (@EM_loop_invariant _ _ step
                   (fun st => K (e_gmm st) = K gmm /\ K (e_gmm_ st) = K gmm)
                   _ _ _ _ _ _ _ _ _ _ Hloop)).
  - intros st f [Hg Hb] Hf. pose proof Hf as Hi. apply EM_iteration_inv in Hi.
    destruct Hi as (l1 & N1 & N21 & g1 & b1 & x1 & sh & Hstep & Hsh).
    rewrite (@EM_iteration_cases _ _ step cutoff _ (shift_cutoff_of gmm cutoff) tol st
               _ _ _ _ _ _ _ Hstep Hsh) in Hf.
    apply step_K in Hstep.
    destruct ((0 <? e_it st)%nat && fltb l1 (e_log_L st + tol)%fl);
      [destruct (fltb l1 (e_log_L st - tol)%fl);
       [|destruct (Nat.eqb (length (moved_of sh (shift_cutoff_of gmm cutoff))) 0)]|];
      inversion Hf; subst f;
      cbn [after e_gmm e_gmm_]; unfold assign, K in *; cbn [amp]; split; congruence.
  - cbn [EM_init e_gmm e_gmm_]. unfold assign, K. cbn [amp]. auto.
Qed.

End ComponentCount.

Section FitProps.

Context {np : NumPy} {R : RandomState}.

Lemma EMstep_K data cov sel_callback covar_callback w altered gmm b x N2 cutoff
      log_L N N2' gmm' b' x' :
  _EMstep data cov sel_callback covar_callback w altered gmm b x N2 cutoff
  = Ok (log_L, N, N2', gmm', b', x') -> K gmm' = K gmm.
Proof.
  intro Hs. apply EMstep_update in Hs. destruct Hs as (s & Hsize & i & st & Hu & _).
  apply (f_equal fst) in Hu. cbn [fst] in Hu. rewrite Hu. apply update_K.
Qed.

Lemma EM_K data cov sel_callback covar_callback w altered gmm buf x cutoff tol e :
  _EM data cov sel_callback covar_callback w altered gmm buf x cutoff tol = Ok e ->
  K (e_gmm e) = K gmm.
Proof.
  unfold _EM. apply EM_with_K. intros until x'. apply EMstep_K.
Qed.

(** The split-and-merge loop does nothing on fewer than 3 components. *)
Lemma snm_loop_below_3 findSNM data cov a cutoff n gmm buf x log_L N N2 :
  (K gmm < 3)%nat ->
  snm_loop findSNM data cov a cutoff n gmm buf x log_L N N2 =
  Ok (mkFitted log_L (U buf) gmm (fst x) (snd x)).
Proof.
  intro HK. destruct n as [|n]; [reflexivity|]. cbn [snm_loop].
  destruct (3 <=? K gmm)%nat eqn:E; [|reflexivity].
  apply Nat.leb_le in E. lia.
Qed.

(** C5, as the code has it.  Requesting split-and-merge for a mixture
    of fewer than 3 components is not an error: [fit] skips the
    split-and-merge loop and does, raises and returns what it does without
    the request.  (An initialisation callback works in place and keeps the
    number of components.) *)
Theorem fit_skips_split_n_merge_below_3 findSNM gmm data cov a st :
  (K gmm < 3)%nat ->
  (forall cb gmm' st', a_init_callback a = Some cb ->
                       cb gmm data cov st = Ok (gmm', st') -> K gmm' = K gmm) ->
  fit findSNM gmm data cov a st = fit findSNM gmm data cov (with_split_n_merge a 0) st.
Proof.
  intros HK Hinit. unfold fit. cbn [with_split_n_merge a_init_callback a_sel_callback
    a_covar_callback a_background a_cutoff a_w a_tol a_split_n_merge].
  destruct (match a_init_callback a with
            | Some cb => cb gmm data cov st
            | None => Ok (gmm, st)
            end) as [[gmm' st']|e] eqn:Ei; cbn [bind]; [|reflexivity].
  assert (HK' : (K gmm' < 3)%nat).
  { destruct (a_init_callback a) as [cb|] eqn:Ecb.
    - rewrite (Hinit cb gmm' st' eq_refl Ei). exact HK.
    - inversion Ei; subst. exact HK. }
  destruct (_ && _ && _); [reflexivity|].
  match goal with
  | |- bind ?m _ = _ => destruct m as [e|err] eqn:Eem; cbn [bind]; [|reflexivity]
  end.
  rewrite !snm_loop_below_3; [reflexivity| |]; rewrite (EM_K _ _ _ _ _ _ _ _ _ _ _ Eem); exact HK'.
Qed.

End FitProps.

Section FitRuns.

Import Rational Inputs.

Lemma fit_skips_split_n_merge_below_3_witness :
  fit no_choice twin_gmm fitted_data NoCov snm_args 0%nat =
  fit no_choice twin_gmm fitted_data NoCov (with_split_n_merge snm_args 0) 0%nat.
Proof.
  apply (@fit_skips_split_n_merge_below_3 _ _ no_choice twin_gmm fitted_data NoCov
           snm_args 0%nat).
  - vm_compute. lia.
  - intros cb gmm' st' Hcb. vm_compute in Hcb. discriminate.
Defined.

(** C5, as stated, fails: a fit of two components with one round of
    split-and-merge requested raises nothing and returns the result of the
    EM run. *)
Lemma fit_below_3_returns :
  (K twin_gmm < 3)%nat
  /\ a_split_n_merge snm_args = 1%nat
  /\ fit no_choice twin_gmm fitted_data NoCov snm_args 0%nat =
     Ok (mkFitted (Fin (-807 # 452)) [Idx [0; 1]; Idx [0; 1]]%nat twin_gmm None 0%nat).
Proof.
  split; [vm_compute; lia|]. split; [reflexivity|]. vm_compute. reflexivity.
Qed.

End FitRuns.

(** ** Split and merge *)

Section SplitProps.

Context {np : NumPy}.

Lemma at_set_idx_pair {A} (d : A) (l : list A) a b v k :
  at_ d (set_idx l [a; b] [v; v]) k =
  if Nat.eqb k b then (if (b <? length l)%nat then v else d)
  else if Nat.eqb k a then (if (a <? length l)%nat then v else d)
  else at_ d l k.
Proof.
  cbn [set_idx].
  destruct (Nat.eqb k b) eqn:Eb.
  - apply Nat.eqb_eq in Eb. subst k.
    destruct (b <? length l)%nat eqn:El.
    + apply at_set_at_same. rewrite set_at_length. apply Nat.ltb_lt. exact El.
    + apply Nat.ltb_ge in El. unfold at_. apply nth_overflow.
      rewrite !set_at_length. exact El.
  - apply Nat.eqb_neq in Eb. rewrite at_set_at_other by congruence.
    destruct (Nat.eqb k a) eqn:Ea.
    + apply Nat.eqb_eq in Ea. subst k.
      destruct (a <? length l)%nat eqn:El.
      * apply at_set_at_same. apply Nat.ltb_lt. exact El.
      * apply Nat.ltb_ge in El. unfold at_. apply nth_overflow.
        rewrite set_at_length. exact El.
    + apply Nat.eqb_neq in Ea. apply at_set_at_other. congruence.
Qed.

(** The split proper: what [split_snm] makes of the component
    [altered[2]]. *)
Lemma split_snm_children gmm a0 a1 a2 gmm' :
  a1 <> a2 -> (a1 < K gmm)%nat -> (a2 < K gmm)%nat -> well_shaped gmm ->
  split_snm gmm [a0; a1; a2] = Ok gmm' ->
  exists u radius2 rotation,
    linalg_svd (at_ [] (covar gmm) a2) = Ok (u, radius2, rotation)
    /\ let dl := vdivs (vscale (np_sqrt (at_ NaN radius2 0)) (at_ [] rotation 0)) four in
       let r := np_power (linalg_det (at_ [] (covar gmm) a2)) (f1 / of_nat (D gmm))%fl in
       at_ NaN (amp gmm') a1 = (at_ NaN (amp gmm) a2 / two)%fl
       /\ at_ NaN (amp gmm') a2 = (at_ NaN (amp gmm) a2 / two)%fl
       /\ at_ [] (mean gmm') a1 = vsub (at_ [] (mean gmm) a2) dl
       /\ at_ [] (mean gmm') a2 = vadd (at_ [] (mean gmm) a2) dl
       /\ at_ [] (covar gmm') a1 = mscale r (eye (D gmm))
       /\ at_ [] (covar gmm') a2 = mscale r (eye (D gmm)).
Proof.
  intros Hne H1 H2 [Hm Hc]. unfold split_snm. cbv zeta. cbn [at_ nth skipn map].
  intro Hs. apply bind_Ok in Hs. destruct Hs as ([[u radius2] rotation] & Hsvd & Hs).
  exists u, radius2, rotation. split; [exact Hsvd|].
  apply Ok_inj in Hs. subst gmm'. cbn [amp mean covar]. unfold K, vec, mat in *.
  repeat split.
  - rewrite at_set_at_other by congruence. apply at_set_at_same. exact H1.
  - apply at_set_at_same. rewrite set_at_length. exact H2.
  - rewrite at_set_at_other by congruence. apply at_set_at_same. lia.
  - rewrite at_set_at_same by (rewrite set_at_length; lia).
    rewrite at_set_at_other by congruence. reflexivity.
  - rewrite at_set_idx_pair. rewrite Nat.eqb_refl.
    destruct (Nat.eqb a1 a2) eqn:E; [apply Nat.eqb_eq in E; contradiction|].
    match goal with
    | |- context [(?a <? ?b)%nat] => destruct (a <? b)%nat eqn:El
    end; [reflexivity|]. apply Nat.ltb_ge in El. lia.
  - rewrite at_set_idx_pair. rewrite Nat.eqb_refl.
    match goal with
    | |- context [(?a <? ?b)%nat] => destruct (a <? b)%nat eqn:El
    end; [reflexivity|]. apply Nat.ltb_ge in El. lia.
Qed.

(** The merge into [a0] leaves the other components as they are. *)
Lemma update_snm_split gmm a0 a1 a2 U N cleanup gmm' U' :
  _update_snm gmm [a0; a1; a2] U N cleanup = Ok (gmm', U') ->
  exists amp1 mean1 covar1,
    split_snm (mkGMM amp1 mean1 covar1 (D gmm)) [a0; a1; a2] = Ok gmm'
    /\ length amp1 = length (amp gmm)
    /\ length mean1 = length (mean gmm)
    /\ length covar1 = length (covar gmm)
    /\ forall k, k <> a0 ->
                 at_ NaN amp1 k = at_ NaN (amp gmm) k
                 /\ at_ [] mean1 k = at_ [] (mean gmm) k
                 /\ at_ [] covar1 k = at_ [] (covar gmm) k.
Proof.
  unfold _update_snm. cbn [at_ nth firstn]. intro Hs.
  apply bind_Ok in Hs. destruct Hs as ([[mean1 covar1] U1] & Hmerge & Hs).
  apply bind_Ok in Hs. destruct Hs as (gmm2 & Hsplit & Hs).
  apply bind_Ok in Hs. destruct Hs as (u2 & _ & Hs). inversion Hs; subst gmm2 U'. clear Hs.
  exists (set_at (amp gmm) a0 (fsum (take_idx NaN (amp gmm) [a0; a1]))), mean1, covar1.
  split; [exact Hsplit|]. rewrite set_at_length.
  destruct cleanup; cbn [negb] in Hmerge.
  - inversion Hmerge; subst. rewrite !set_at_length. repeat split; auto;
      apply at_set_at_other; congruence.
  - apply bind_Ok in Hmerge. destruct Hmerge as (u & _ & Hmerge).
    inversion Hmerge; subst. rewrite !set_at_length. repeat split; auto;
      apply at_set_at_other; congruence.
Qed.

(** C6, as the code has it.  The split halves the amplitude of the
    chosen component [a2] into the two children [a1] and [a2], displaces
    their means in opposite directions by [dl], the leading right-singular
    vector of the original covariance scaled by a quarter of the square
    root of the leading singular value, and sets the covariance of both to
    the isotropic matrix [r I] whose diagonal entries are the D-th root [r]
    of the determinant of the original covariance. *)
Theorem split_children gmm a0 a1 a2 U N cleanup gmm' U' :
  a0 <> a2 -> a1 <> a2 -> (a1 < K gmm)%nat -> (a2 < K gmm)%nat -> well_shaped gmm ->
  _update_snm gmm [a0; a1; a2] U N cleanup = Ok (gmm', U') ->
  exists u radius2 rotation,
    linalg_svd (at_ [] (covar gmm) a2) = Ok (u, radius2, rotation)
    /\ let dl := vdivs (vscale (np_sqrt (at_ NaN radius2 0)) (at_ [] rotation 0)) four in
       let r := np_power (linalg_det (at_ [] (covar gmm) a2)) (f1 / of_nat (D gmm))%fl in
       at_ NaN (amp gmm') a1 = (at_ NaN (amp gmm) a2 / two)%fl
       /\ at_ NaN (amp gmm') a2 = (at_ NaN (amp gmm) a2 / two)%fl
       /\ at_ [] (mean gmm') a1 = vsub (at_ [] (mean gmm) a2) dl
       /\ at_ [] (mean gmm') a2 = vadd (at_ [] (mean gmm) a2) dl
       /\ at_ [] (covar gmm') a1 = mscale r (eye (D gmm))
       /\ at_ [] (covar gmm') a2 = mscale r (eye (D gmm)).
Proof.
  intros H02 H12 H1 H2 [Hm Hc] Hs.
  apply update_snm_split in Hs.
  destruct Hs as (amp1 & mean1 & covar1 & Hsplit & La & Lm & Lc & Hkeep).
  apply split_snm_children in Hsplit; auto.
  - destruct Hsplit as (u & radius2 & rotation & Hsvd & Hch).
    cbn [amp mean covar D] in Hsvd, Hch.
    destruct (Hkeep a2 (not_eq_sym H02)) as (Ea & Em & Ec).
    rewrite Ea, Em, Ec in Hch. rewrite Ec in Hsvd.
    exists u, radius2, rotation. split; [exact Hsvd|exact Hch].
  - unfold K, vec, mat in *. cbn [amp]. lia.
  - unfold K, vec, mat in *. cbn [amp]. lia.
  - unfold well_shaped, K, vec, mat in *. cbn [amp mean covar]. lia.
Qed.

End SplitProps.

Section SplitRuns.

Import Rational Inputs.

Lemma split_children_witness :
  exists gmm' U',
    _update_snm plane_gmm [0; 1; 2]%nat plane_U 4 false = Ok (gmm', U')
    /\ at_ NaN (amp gmm') 1 = quarter
    /\ at_ NaN (amp gmm') 2 = quarter
    /\ at_ [] (mean gmm') 1 = [Fin (9 # 2); Fin 5]
    /\ at_ [] (mean gmm') 2 = [Fin (11 # 2); Fin 5]
    /\ at_ [] (covar gmm') 1 = mscale four (eye 2)
    /\ at_ [] (covar gmm') 2 = mscale four (eye 2).
Proof.
  destruct (_update_snm plane_gmm [0; 1; 2]%nat plane_U 4 false) as [[gmm' U']|e] eqn:Eu;
    [|vm_compute in Eu; discriminate].
  exists gmm', U'. split; [reflexivity|].
  destruct (@split_children _ plane_gmm 0%nat 1%nat 2%nat plane_U 4%nat false gmm' U')
    as (u & radius2 & rotation & Hsvd & Ha1 & Ha2 & Hm1 & Hm2 & Hc1 & Hc2).
  - discriminate.
  - discriminate.
  - vm_compute. lia.
  - vm_compute. lia.
  - split; reflexivity.
  - exact Eu.
  - vm_compute in Hsvd. apply Ok_inj in Hsvd.
    injection Hsvd as <- <- <-.
    rewrite Ha1, Ha2, Hm1, Hm2, Hc1, Hc2. vm_compute. repeat split; reflexivity.
Defined.

(** C6, as stated, fails in the plane: the covariance of both children
    of a component with covariance [4 I] is [4 I] again, whose determinant
    is 16, the determinant of the original, and not its square root 4. *)
Lemma split_covariance_determinant :
  exists gmm' U',
    _update_snm plane_gmm [0; 1; 2]%nat plane_U 4 false = Ok (gmm', U')
    /\ linalg_det (at_ [] (covar gmm') 1) = Fin 16
    /\ linalg_det (at_ [] (covar gmm') 2) = Fin 16
    /\ np_power (linalg_det (at_ [] (covar plane_gmm) 2)) (f1 / of_nat (D plane_gmm))%fl
       = Fin 4
    /\ ~ feq (Fin 16) (Fin 4).
Proof.
  eexists. eexists. split; [vm_compute; reflexivity|].
  repeat split; try (vm_compute; reflexivity).
  unfold feq. intro E. vm_compute in E. discriminate.
Qed.

End SplitRuns.

(** ** The E-step *)

Lemma map_at_seq {A} (d : A) (l : list A) : map (at_ d l) (seq 0 (length l)) = l.
Proof.
  apply (nth_ext _ _ d d).
  - rewrite length_map, length_seq. reflexivity.
  - intros n Hn. rewrite length_map, length_seq in Hn.
    rewrite (nth_indep _ d (at_ d l 0)) by (rewrite length_map, length_seq; exact Hn).
    rewrite (map_nth (at_ d l)). rewrite seq_nth by exact Hn. reflexivity.
Qed.

Lemma sel_nbh_candidates {A} (d : A) (a : list A) (u : nbh) :
  is_mask u = false -> sel_nbh d a u = map (at_ d a) (candidates u (length a)).
Proof.
  destruct u as [|l|m]; cbn [is_mask sel_nbh candidates]; intro Hm.
  - symmetry. apply map_at_seq.
  - reflexivity.
  - discriminate.
Qed.

Lemma mapM_map {A B C} (f : B -> result C) (g : A -> B) (l : list A) :
  mapM f (map g l) = mapM (fun a => f (g a)) l.
Proof.
  induction l as [|a l IH]; cbn [map mapM]; [reflexivity|]. rewrite IH. reflexivity.
Qed.

Lemma mapM_Ok_map {A B} (f : A -> result B) (d : B) : forall l r,
  mapM f l = Ok r ->
  r = map (fun a => match f a with Ok b => b | Raise _ => d end) l
  /\ forall a, In a l -> f a = Ok (match f a with Ok b => b | Raise _ => d end).
Proof.
  induction l as [|a l IH]; intros r Hr; cbn [mapM] in Hr.
  - apply Ok_inj in Hr. subst r. split; [reflexivity|]. intros a [].
  - apply bind_Ok in Hr. destruct Hr as (b & Hb & Hr).
    apply bind_Ok in Hr. destruct Hr as (bs & Hbs & Hr).
    apply Ok_inj in Hr. subst r. destruct (IH bs Hbs) as [-> Hall].
    split.
    + cbn [map]. rewrite Hb. reflexivity.
    + intros a' [<-|Hin]; [rewrite Hb; reflexivity|apply Hall; exact Hin].
Qed.

Lemma zipWith_map {A B C E} (g : B -> C -> E) (f1 : A -> B) (f2 : A -> C) (l : list A) :
  zipWith g (map f1 l) (map f2 l) = map (fun a => g (f1 a) (f2 a)) l.
Proof.
  unfold zipWith. induction l as [|a l IH]; cbn [map combine fst snd]; [reflexivity|].
  rewrite IH. reflexivity.
Qed.

Lemma take_mask_map_filter {A B} (f : A -> B) (p : A -> bool) (l : list A) :
  take_mask (map f l) (map p l) = map f (filter p l).
Proof.
  induction l as [|a l IH]; cbn [map take_mask filter]; [reflexivity|].
  destruct (p a); cbn [map]; rewrite IH; reflexivity.
Qed.

Lemma take_mask_filter {A} (p : A -> bool) (l : list A) :
  take_mask l (map p l) = filter p l.
Proof.
  rewrite <- (map_id l) at 1. rewrite take_mask_map_filter. apply map_id.
Qed.

Lemma flatnonzero_map_seq (p : nat -> bool) (n : nat) :
  flatnonzero (map p (seq 0 n)) = filter p (seq 0 n).
Proof.
  unfold flatnonzero. rewrite length_map, length_seq. apply take_mask_filter.
Qed.

Section EStepProps.

Context {np : NumPy}.

(** The distances that [_Esum] computes are the squared Mahalanobis
    distances of the candidates, each under the inverse of its total
    covariance. *)
Lemma chi2_k_spec k U_k gmm data cov T chi2 :
  is_mask U_k = false -> cov_shape cov (length data) ->
  chi2_k k U_k gmm data cov = Ok (T, chi2) ->
  chi2 = map (fun i => mahalanobis2 (inv_at gmm k cov i) (at_ [] data i)
                                    (at_ [] (mean gmm) k))
             (candidates U_k (length data))
  /\ forall i, In i (candidates U_k (length data)) ->
               linalg_inv (total_cov gmm k cov i) = Ok (inv_at gmm k cov i).
Proof.
  intros Hm Hshape. unfold chi2_k. cbv zeta.
  rewrite (sel_nbh_candidates [] data U_k Hm).
  destruct cov as [|c|cs]; intro Hr.
  - apply bind_Ok in Hr. destruct Hr as (C_inv & Hinv & Hr). apply Ok_inj in Hr.
    injection Hr as _ <-. unfold inv_at, total_cov. rewrite Hinv, !map_map.
    split; [reflexivity|]. intros; reflexivity.
  - apply bind_Ok in Hr. destruct Hr as (C_inv & Hinv & Hr). apply Ok_inj in Hr.
    injection Hr as _ <-. unfold inv_at, total_cov. rewrite Hinv, !map_map.
    split; [reflexivity|]. intros; reflexivity.
  - cbn [cov_shape] in Hshape.
    apply bind_Ok in Hr. destruct Hr as (Ts & HTs & Hr). apply Ok_inj in Hr.
    injection Hr as _ <-.
    rewrite (sel_nbh_candidates [] cs U_k Hm) in HTs. unfold vec, mat in *.
    rewrite Hshape, mapM_map in HTs.
    apply (mapM_Ok_map _ []) in HTs. destruct HTs as [-> Hall].
    split.
    + rewrite map_map, zipWith_map. reflexivity.
    + intros i Hi. unfold inv_at, total_cov. apply (Hall i Hi).
Qed.

(** With a cutoff, [_Esum] keeps of the candidates those whose distance
    is below it, and returns one log-density for each. *)
Lemma Esum_cutoff k U_k gmm data cov c lp U' T' :
  is_mask U_k = false -> cov_shape cov (length data) ->
  _Esum k U_k gmm data cov (Some c) = Ok (lp, U', T') ->
  let near i := fltb (mahalanobis2 (inv_at gmm k cov i) (at_ [] data i)
                                   (at_ [] (mean gmm) k)) c in
  let kept := filter near (candidates U_k (length data)) in
  U' = Idx kept /\ length lp = length kept.
Proof.
  intros Hm Hshape. unfold _Esum. intro Hr.
  apply bind_Ok in Hr. destruct Hr as ([T chi2] & Hchi & Hr).
  destruct (chi2_k_spec k U_k gmm data cov Hm Hshape Hchi) as [-> _].
  destruct (linalg_slogdet (at_ [] (covar gmm) k)) as [sign logdet].
  apply Ok_inj in Hr. injection Hr as <- <- _. cbv zeta.
  rewrite map_map, take_mask_map_filter, !length_map.
  split; [|reflexivity].
  destruct U_k as [|l|m]; cbn [is_mask restrict_nbh candidates] in *.
  - rewrite (flatnonzero_map_seq (fun i => fltb (mahalanobis2 (inv_at gmm k cov i)
               (at_ [] data i) (at_ [] (mean gmm) k)) c)). reflexivity.
  - rewrite (take_mask_filter (fun i => fltb (mahalanobis2 (inv_at gmm k cov i)
               (at_ [] data i) (at_ [] (mean gmm) k)) c)). reflexivity.
  - discriminate.
Qed.

(** C3.  With a truncation cutoff [c] configured, the neighborhood that
    [_Esum] returns for component [k] holds a candidate sample [i] if and
    only if the squared Mahalanobis distance of the sample to the mean of
    the component, under the inverse [T] of the component covariance (plus
    the noise covariance of the sample when there is one), is strictly
    below [c]: every candidate at or above the cutoff is left out.  The
    candidates are the previous neighborhood, or all samples. *)
Theorem Esum_truncation k U_k gmm data cov c lp U' T' :
  is_mask U_k = false -> cov_shape cov (length data) ->
  _Esum k U_k gmm data cov (Some c) = Ok (lp, U', T') ->
  exists kept,
    U' = Idx kept
    /\ forall i,
        In i kept <->
        In i (candidates U_k (length data))
        /\ exists T,
            linalg_inv (total_cov gmm k cov i) = Ok T
            /\ fltb (mahalanobis2 T (at_ [] data i) (at_ [] (mean gmm) k)) c = true.
Proof.
  intros Hm Hshape Hr.
  pose proof Hr as Hc. apply Esum_cutoff in Hc; [|exact Hm|exact Hshape].
  destruct Hc as [-> _].
  eexists. split; [reflexivity|]. intro i. rewrite filter_In.
  assert (Hinv : forall j, In j (candidates U_k (length data)) ->
                           linalg_inv (total_cov gmm k cov j) = Ok (inv_at gmm k cov j)).
  { unfold _Esum in Hr. apply bind_Ok in Hr. destruct Hr as ([T chi2] & Hchi & _).
    apply (chi2_k_spec k U_k gmm data cov Hm Hshape Hchi). }
  split.
  - intros [Hin Hnear]. split; [exact Hin|].
    exists (inv_at gmm k cov i). split; [apply Hinv; exact Hin|exact Hnear].
  - intros [Hin (T & HT & Hnear)]. split; [exact Hin|].
    unfold inv_at. rewrite HT. exact Hnear.
Qed.

End EStepProps.

Section EStepRuns.

Import Rational Inputs.

Lemma Esum_truncation_witness :
  exists lp T' kept,
    _Esum 0 All unit_gmm far_data NoCov (Some (Fin 9)) = Ok (lp, Idx kept, T')
    /\ forall i,
        In i kept <->
        In i (candidates All (length far_data))
        /\ exists T,
            linalg_inv (total_cov unit_gmm 0 NoCov i) = Ok T
            /\ fltb (mahalanobis2 T (at_ [] far_data i) (at_ [] (mean unit_gmm) 0))
                    (Fin 9) = true.
Proof.
  destruct (_Esum 0 All unit_gmm far_data NoCov (Some (Fin 9))) as [[[lp U'] T']|e] eqn:Er;
    [|vm_compute in Er; discriminate].
  destruct (@Esum_truncation _ 0%nat All unit_gmm far_data NoCov (Fin 9) lp U' T')
    as (kept & -> & Hkept).
  - reflexivity.
  - exact I.
  - exact Er.
  - exists lp, T', kept. split; [reflexivity|exact Hkept].
Defined.

End EStepRuns.

(** ** The M-step and the update of a component without samples *)

Lemma at_map_seq {A} (d : A) (f : nat -> A) (n k : nat) :
  (k < n)%nat -> at_ d (map f (seq 0 n)) k = f k.
Proof.
  intro Hk. unfold at_.
  rewrite (nth_indep _ d (f 0%nat)) by (rewrite length_map, length_seq; exact Hk).
  rewrite (map_nth f). rewrite seq_nth by exact Hk. reflexivity.
Qed.

Lemma at_map {A B} (da : A) (db : B) (f : A -> B) (l : list A) (k : nat) :
  (k < length l)%nat -> at_ db (map f l) k = f (at_ da l k).
Proof.
  intro Hk. unfold at_.
  rewrite (nth_indep _ db (f da)) by (rewrite length_map; exact Hk).
  apply map_nth.
Qed.

Section MStepProps.

Context {np : NumPy}.

Lemma Msums_empty k U_k T_inv_k gmm data log_S :
  _Msums k U_k [] T_inv_k gmm data log_S = Ok Zero3.
Proof. reflexivity. Qed.

(** The entry of a component without log-densities in the arrays of
    [_Mstep]. *)
Lemma Mstep_empty gmm b data background s k :
  length (U b) = K gmm -> length (log_p b) = K gmm -> length (T_inv b) = K gmm ->
  (k < K gmm)%nat -> at_ [] (log_p b) k = [] ->
  _Mstep gmm b data background = Ok s ->
  at_ NaN (sA s) k = f0
  /\ at_ [] (sM s) k = zeros (D gmm)
  /\ at_ [] (sC s) k = zeros2 (D gmm) (D gmm).
Proof.
  intros LU Lp LT Hk Hempty. unfold _Mstep. intro Hs.
  apply bind_Ok in Hs. destruct Hs as (res & Hres & Hs). apply Ok_inj in Hs. subst s.
  cbn [sA sM sC].
  pose proof (mapM_Ok_length _ _ Hres) as Lres.
  rewrite !length_combine, length_seq, LU, Lp, LT, !Nat.min_id in Lres.
  assert (Hz : nth k res Zero3 = Zero3).
  { pose proof (@mapM_Ok_nth _ _ _ (0%nat, All, [], NoCov) Zero3 _ _ k Hres) as Hn.
    rewrite !length_combine, length_seq, LU, Lp, LT, !Nat.min_id in Hn.
    specialize (Hn Hk).
    rewrite !combine_nth in Hn
      by (rewrite ?length_combine, ?length_seq; unfold vec, mat in *; lia).
    unfold at_ in Hempty. rewrite Hempty in Hn. cbv beta iota in Hn.
    rewrite Msums_empty in Hn. apply Ok_inj in Hn. symmetry. exact Hn. }
  rewrite (at_map Zero3 NaN bcast_A), (at_map Zero3 [] (bcast_M (D gmm))),
    (at_map Zero3 [] (bcast_C (D gmm))) by lia.
  unfold at_. rewrite Hz. repeat split; reflexivity.
Qed.

End MStepProps.

(** A component outside of [altered] keeps its mean and covariance in a
    partial update. *)
Lemma update_unaltered gmm s Hsize i N2 w alt background k :
  (k < K gmm)%nat -> mem k alt = false ->
  let gmm' := fst (_update gmm s Hsize i N2 w (Some alt) background) in
  at_ [] (mean gmm') k = at_ [] (mean gmm) k
  /\ at_ [] (covar gmm') k = at_ [] (covar gmm) k.
Proof.
  intros Hk Hmem. unfold _update. cbn [fst mean covar].
  split.
  - rewrite at_map_seq by exact Hk. cbn [is_changed]. rewrite Hmem. reflexivity.
  - destruct (fgtb w f0); rewrite at_map_seq by exact Hk; cbn [is_changed];
      rewrite Hmem; reflexivity.
Qed.

Section EmptyComponent.

Context {np : NumPy}.

(** C4, as the code has it.  A component whose neighborhood comes out
    of the E-step empty has no log-densities; [_Msums] returns the zero
    statistics for it without raising, and they are the zero entries of
    the arrays [A], [M] and [C] of [_Mstep].  The update that follows
    leaves the mean and the covariance of a component unchanged when it is
    a partial update whose [altered] does not hold the component. *)
Theorem empty_neighborhood_statistics :
  (forall k U_k gmm data cov c lp T',
      is_mask U_k = false -> cov_shape cov (length data) ->
      _Esum k U_k gmm data cov (Some c) = Ok (lp, Idx [], T') -> lp = [])
  /\ (forall k U_k T_inv_k gmm data log_S,
         _Msums k U_k [] T_inv_k gmm data log_S = Ok Zero3)
  /\ (forall gmm b data background s k,
         length (U b) = K gmm -> length (log_p b) = K gmm -> length (T_inv b) = K gmm ->
         (k < K gmm)%nat -> at_ [] (log_p b) k = [] ->
         _Mstep gmm b data background = Ok s ->
         at_ NaN (sA s) k = f0
         /\ at_ [] (sM s) k = zeros (D gmm)
         /\ at_ [] (sC s) k = zeros2 (D gmm) (D gmm))
  /\ (forall gmm s Hsize i N2 w alt background k,
         (k < K gmm)%nat -> mem k alt = false ->
         let gmm' := fst (_update gmm s Hsize i N2 w (Some alt) background) in
         at_ [] (mean gmm') k = at_ [] (mean gmm) k
         /\ at_ [] (covar gmm') k = at_ [] (covar gmm) k).
Proof.
  split; [|split; [|split]].
  - intros k U_k gmm data cov c lp T' Hm Hshape Hr.
    apply Esum_cutoff in Hr; [|exact Hm|exact Hshape].
    destruct Hr as [Hkept Hlen]. apply Ok_inj in Hkept || injection Hkept as Hkept.
    rewrite <- Hkept in Hlen. apply length_zero_iff_nil. exact Hlen.
  - intros. apply Msums_empty.
  - intros gmm b data background s k. apply Mstep_empty.
  - intros gmm s Hsize i N2 w alt background k. apply update_unaltered.
Qed.

End EmptyComponent.

Section EmptyComponentRuns.

Import Rational Inputs.

Lemma empty_neighborhood_statistics_witness :
  exists log_L b s,
    _Estep apart_gmm (new_buffers apart_gmm fitted_data) fitted_data NoCov None
           (Some (Fin 9)) = Ok (log_L, b)
    /\ at_ All (U b) 1 = Idx []
    /\ _Mstep apart_gmm b fitted_data None = Ok s
    /\ at_ NaN (sA s) 1 = f0
    /\ at_ [] (sM s) 1 = zeros 1
    /\ at_ [] (sC s) 1 = zeros2 1 1.
Proof.
  destruct (_Estep apart_gmm (new_buffers apart_gmm fitted_data) fitted_data NoCov None
                   (Some (Fin 9))) as [[log_L b]|e] eqn:Ee;
    [|vm_compute in Ee; discriminate].
  pose proof Ee as Hb. vm_compute in Hb. apply Ok_inj in Hb. injection Hb as _ Hb.
  destruct (_Mstep apart_gmm b fitted_data None) as [s|e] eqn:Em;
    [|rewrite <- Hb in Em; vm_compute in Em; discriminate].
  exists log_L, b, s. split; [reflexivity|].
  split; [rewrite <- Hb; reflexivity|]. split; [exact Em|].
  destruct empty_neighborhood_statistics as (_ & _ & Hzero & _).
  apply (Hzero apart_gmm b fitted_data None s 1%nat); try (rewrite <- Hb; reflexivity).
  - vm_compute. lia.
  - exact Em.
Defined.

(** C4, as stated, fails in a full update: the second component of
    [apart_gmm] gets the empty neighborhood from a sample it does not
    reach, and the iteration, which completes, turns its mean and its
    covariance from 10 and 1 into NaN. *)
Lemma empty_component_is_not_kept :
  exists log_L N N2 gmm' b' x',
    apart_step apart_gmm (new_buffers apart_gmm fitted_data) (@None Background, 0%nat) 0
               (Some (Fin 9)) = Ok (log_L, N, N2, gmm', b', x')
    /\ at_ All (U b') 1 = Idx []
    /\ at_ [] (mean apart_gmm) 1 = [Fin 10]
    /\ at_ [] (mean gmm') 1 = [NaN]
    /\ at_ [] (covar apart_gmm) 1 = [[f1]]
    /\ at_ [] (covar gmm') 1 = [[NaN]].
Proof.
  do 6 eexists. split; [vm_compute; reflexivity|].
  repeat split; vm_compute; reflexivity.
Qed.

End EmptyComponentRuns.

(** ** The amplitudes after the update *)

Lemma above_zero_nonneg (a : fl) : above_zero a -> nonneg a.
Proof. destruct a; cbn [above_zero nonneg]; auto. apply Qlt_le_weak. Qed.

Lemma fold_fadd_Fin : forall (l : vec) (a : Q),
  Forall nonneg l ->
  exists q, fold_left fadd l (Fin a) = Fin q /\ q == a + Qsum l.
Proof.
  induction l as [|x l IH]; intros a Hl.
  - exists a. split; [reflexivity|]. cbn [Qsum fold_right]. ring.
  - inversion Hl as [|x' l' Hx Hl']; subst. destruct x as [qx| |]; cbn [nonneg] in Hx;
      try contradiction.
    destruct (IH (Qred (a + qx)) Hl') as (q & Hq & Eq).
    exists q. split; [exact Hq|]. rewrite Eq, Qred_correct.
    cbn [Qsum fold_right toQ]. fold (Qsum l). ring.
Qed.

Lemma fsum_Fin (l : vec) :
  Forall nonneg l -> exists q, fsum l = Fin q /\ q == Qsum l.
Proof.
  intro Hl. destruct (fold_fadd_Fin 0 Hl) as (q & Hq & Eq).
  exists q. split; [exact Hq|]. rewrite Eq. ring.
Qed.

Lemma Qsum_nonneg (l : vec) : Forall nonneg l -> 0 <= Qsum l.
Proof.
  induction 1 as [|x l Hx _ IH]; cbn [Qsum fold_right]; [apply Qle_refl|].
  fold (Qsum l). destruct x; cbn [nonneg toQ] in *; try contradiction. lra.
Qed.

Lemma Qsum_positive (l : vec) : Forall nonneg l -> Exists above_zero l -> 0 < Qsum l.
Proof.
  intros Hl He. induction He as [x l Hx|x l _ IH].
  - inversion Hl as [|x' l' _ Hl']; subst. cbn [Qsum fold_right]. fold (Qsum l).
    pose proof (Qsum_nonneg Hl'). destruct x; cbn [above_zero toQ] in *; try contradiction.
    lra.
  - inversion Hl as [|x' l' Hx Hl']; subst. cbn [Qsum fold_right]. fold (Qsum l).
    specialize (IH Hl'). destruct x; cbn [nonneg toQ] in *; try contradiction. lra.
Qed.

Lemma vdivs_nonneg (l : vec) (s : Q) :
  0 < s -> Forall nonneg l -> Forall nonneg (vdivs l (Fin s)).
Proof.
  intros Hs Hl. unfold vdivs. apply Forall_map.
  induction Hl as [|x l Hx _ IH]; constructor; [|exact IH].
  destruct x as [q| |]; cbn [nonneg] in Hx; try contradiction.
  unfold fdiv. rewrite Qzero_false by lra. cbn [nonneg]. rewrite Qred_correct.
  apply Qle_shift_div_l; [exact Hs|]. lra.
Qed.

Lemma Qsum_vdivs (l : vec) (s : Q) :
  0 < s -> Forall nonneg l -> Qsum (vdivs l (Fin s)) == Qsum l / s.
Proof.
  intros Hs Hl. induction Hl as [|x l Hx _ IH].
  - cbn. field. lra.
  - unfold vdivs in *. cbn [map Qsum fold_right]. fold (Qsum l).
    fold (Qsum (map (fun x0 => (x0 / Fin s)%fl) l)). rewrite IH.
    destruct x as [q| |]; cbn [nonneg] in Hx; try contradiction.
    unfold fdiv. rewrite Qzero_false by lra. cbn [toQ]. rewrite Qred_correct.
    field. lra.
Qed.

(** The renormalisation [amp /= amp.sum()] of finite, non-negative
    amplitudes that are not all zero. *)
Lemma renormalised (raw : vec) :
  Forall nonneg raw -> Exists above_zero raw ->
  Forall nonneg (vdivs raw (fsum raw)) /\ feq (fsum (vdivs raw (fsum raw))) f1.
Proof.
  intros Hn Hp. destruct (fsum_Fin Hn) as (s & Hs & Es). rewrite Hs.
  assert (Hpos : 0 < s) by (rewrite Es; apply Qsum_positive; assumption).
  pose proof (vdivs_nonneg Hpos Hn) as Hn'.
  split; [exact Hn'|].
  destruct (fsum_Fin Hn') as (t & Ht & Et). rewrite Ht. unfold feq, f1.
  rewrite Et, (Qsum_vdivs Hpos Hn), <- Es. field. lra.
Qed.

Lemma fdiv_nonneg (a : fl) (s : Q) : 0 < s -> nonneg a -> nonneg (a / Fin s)%fl.
Proof.
  intros Hs Ha. destruct a as [q| |]; cbn [nonneg] in Ha; try contradiction.
  unfold fdiv. rewrite Qzero_false by lra. cbn [nonneg]. rewrite Qred_correct.
  apply Qle_shift_div_l; [exact Hs|]. lra.
Qed.

Lemma fdiv_above_zero (a : fl) (s : Q) : 0 < s -> above_zero a -> above_zero (a / Fin s)%fl.
Proof.
  intros Hs Ha. destruct a as [q| |]; cbn [above_zero] in Ha; try contradiction.
  unfold fdiv. rewrite Qzero_false by lra. cbn [above_zero]. rewrite Qred_correct.
  apply Qlt_shift_div_l; [exact Hs|]. lra.
Qed.

Lemma fmul_nonneg (a : fl) (r : Q) : 0 < r -> nonneg a -> nonneg (a * Fin r)%fl.
Proof.
  intros Hr Ha. destruct a as [q| |]; cbn [nonneg] in Ha; try contradiction.
  unfold fmul. cbn [nonneg]. rewrite Qred_correct. apply Qmult_le_0_compat; lra.
Qed.

Lemma fmul_above_zero (a : fl) (r : Q) : 0 < r -> above_zero a -> above_zero (a * Fin r)%fl.
Proof.
  intros Hr Ha. destruct a as [q| |]; cbn [above_zero] in Ha; try contradiction.
  unfold fmul. cbn [above_zero]. rewrite Qred_correct. apply Qmult_lt_0_compat; lra.
Qed.

Lemma of_nat_above_zero (n : nat) : (0 < n)%nat -> exists q, of_nat n = Fin q /\ 0 < q.
Proof.
  intro Hn. exists (inject_Z (Z.of_nat n)). split; [reflexivity|].
  replace 0 with (inject_Z 0) by reflexivity. rewrite <- Zlt_Qlt. lia.
Qed.

Lemma mem_In (k : nat) (l : list nat) : mem k l = true <-> In k l.
Proof.
  unfold mem. rewrite existsb_exists. split.
  - intros (x & Hx & E). apply Nat.eqb_eq in E. subst x. exact Hx.
  - intro Hk. exists k. split; [exact Hk|apply Nat.eqb_refl].
Qed.

(** The amplitudes of a full update before the renormalisation. *)
Lemma update_amp_raw_full gmm A12 N12 :
  amp_support gmm A12 N12 None ->
  Forall nonneg (update_amp_raw gmm A12 N12 None)
  /\ Exists above_zero (update_amp_raw gmm A12 N12 None).
Proof.
  intros (HN & HL & Hn & Hp). cbn [update_amp_raw].
  destruct (of_nat_above_zero HN) as (n & -> & Hpos).
  rewrite <- HL.
  assert (E : map (fun k => (at_ NaN A12 k / Fin n)%fl) (seq 0 (length A12))
              = map (fun a => (a / Fin n)%fl) A12).
  { rewrite <- (map_at_seq NaN A12) at 2. rewrite map_map. reflexivity. }
  rewrite E. split.
  - apply Forall_map. eapply Forall_impl; [|exact Hn]. intros a. apply fdiv_nonneg, Hpos.
  - apply Exists_exists in Hp. destruct Hp as (a & Ha & Hpa).
    apply Exists_exists. exists (a / Fin n)%fl. split.
    + apply in_map_iff. exists a. split; [reflexivity|exact Ha].
    + apply fdiv_above_zero; assumption.
Qed.

(** The amplitudes of a partial update before the renormalisation. *)
Lemma update_amp_raw_partial gmm A12 N12 alt :
  amp_support gmm A12 N12 (Some alt) ->
  Forall nonneg (update_amp_raw gmm A12 N12 (Some alt))
  /\ Exists above_zero (update_amp_raw gmm A12 N12 (Some alt)).
Proof.
  intros (Hun & Hrest & Halt & (k0 & Hk0 & Hp0)). cbn [update_amp_raw].
  cbv zeta. unfold take_idx. rewrite map_map.
  set (rest := (f1 - fsum (take_mask (amp gmm)
                  (map (fun k => negb (mem k alt)) (seq 0 (K gmm)))))%fl) in *.
  assert (Hsum : Forall nonneg (map (at_ NaN A12) alt)).
  { apply Forall_map. apply Forall_forall. intros k Hk. apply (Halt k Hk). }
  assert (Hex : Exists above_zero (map (at_ NaN A12) alt)).
  { apply Exists_exists. exists (at_ NaN A12 k0). split; [|exact Hp0].
    apply in_map. exact Hk0. }
  destruct (fsum_Fin Hsum) as (t & Ht & Et). rewrite Ht.
  assert (Hpos : 0 < t) by (rewrite Et; apply Qsum_positive; assumption).
  destruct rest as [r| |] eqn:Er; cbn [above_zero] in Hrest; try contradiction.
  set (F := fun k => (at_ NaN A12 k / Fin t * Fin r)%fl).
  split.
  - apply Forall_nth. intros i d Hi. rewrite set_idx_length in Hi. fold (K gmm) in Hi.
    destruct (mem i alt) eqn:Em.
    + apply mem_In in Em. 
      change (nonneg (at_ d (set_idx (amp gmm) alt (map F alt)) i)).
      rewrite (at_set_idx_in d F alt (amp gmm) Em Hi).
      apply fmul_nonneg; [exact Hrest|]. apply fdiv_nonneg; [exact Hpos|].
      apply (Halt i Em).
    + change (nonneg (at_ d (set_idx (amp gmm) alt (map F alt)) i)).
      rewrite at_set_idx_notin.
      * unfold at_. rewrite (nth_indep _ d NaN) by exact Hi. apply (Hun i Hi Em).
      * intro Hin. apply mem_In in Hin. congruence.
  - apply Exists_exists. destruct (Halt k0 Hk0) as [Hlt _].
    exists (at_ NaN (set_idx (amp gmm) alt (map F alt)) k0). split.
    + apply nth_In. rewrite set_idx_length. exact Hlt.
    + rewrite (at_set_idx_in NaN F alt (amp gmm) Hk0 Hlt).
      apply fmul_above_zero; [exact Hrest|]. apply fdiv_above_zero; assumption.
Qed.

(** C1, as the code has it.  When the sums have support, the amplitude
    vector that [_update] leaves has finite, non-negative entries and sums
    to 1 (exactly: the arithmetic of the model does not round). *)
Theorem update_amplitudes_normalised gmm s Hsize i N2 w altered background :
  amp_support gmm (plus_A (sA s) i) (sN s + N2) altered ->
  let gmm' := fst (_update gmm s Hsize i N2 w altered background) in
  Forall nonneg (amp gmm') /\ feq (fsum (amp gmm')) f1.
Proof.
  intro Hs. unfold _update. cbn [fst amp]. unfold update_amp. cbv zeta.
  apply renormalised; destruct altered as [alt|].
  - apply (update_amp_raw_partial Hs).
  - apply (update_amp_raw_full Hs).
  - apply (update_amp_raw_partial Hs).
  - apply (update_amp_raw_full Hs).
Qed.

Section AmplitudeRuns.

Import Rational Inputs.

Lemma update_amplitudes_normalised_witness :
  let gmm' := fst (_update twin_gmm twin_stats 2 None 0 f0 None None) in
  Forall nonneg (amp gmm') /\ feq (fsum (amp gmm')) f1.
Proof.
  apply (@update_amplitudes_normalised twin_gmm twin_stats 2%nat None 0%nat f0 None None).
  split; [vm_compute; lia|]. split; [reflexivity|]. split.
  - repeat constructor; vm_compute; intro; discriminate.
  - constructor. vm_compute. reflexivity.
Defined.

(** C1, as stated, fails where no sample has support: the one sample of
    [lost_data] is beyond the cutoff of the component, the iteration
    completes with [N = 0], and the amplitude it leaves is [0/0], NaN,
    which is neither non-negative nor of sum 1. *)
Lemma amplitudes_without_support :
  exists log_L N N2 gmm' b' x',
    lost_step unit_gmm (new_buffers unit_gmm lost_data) (@None Background, 0%nat) 0
              (Some (Fin 9)) = Ok (log_L, N, N2, gmm', b', x')
    /\ N = 0%nat
    /\ amp gmm' = [NaN]
    /\ ~ Forall nonneg (amp gmm')
    /\ ~ feq (fsum (amp gmm')) f1.
Proof.
  do 6 eexists. split; [vm_compute; reflexivity|].
  split; [reflexivity|]. split; [reflexivity|]. split.
  - intro Hn. inversion Hn as [|a l Ha _]. exact Ha.
  - vm_compute. auto.
Qed.

End AmplitudeRuns.

(** ** Sampling under a selection *)

Lemma list_sum_cons (x : nat) (l : list nat) : list_sum (x :: l) = (x + list_sum l)%nat.
Proof. reflexivity. Qed.

Lemma count_occ_sum (a : nat) (l : list nat) :
  list_sum (map (fun k => if Nat.eq_dec a k then 1 else 0)%nat l) = count_occ Nat.eq_dec l a.
Proof.
  induction l as [|k l IH]; [reflexivity|].
  cbn [map count_occ]. rewrite list_sum_cons, IH.
  destruct (Nat.eq_dec a k) as [E|E], (Nat.eq_dec k a) as [E'|E'];
    try reflexivity; congruence.
Qed.

Lemma list_sum_map_add {A} (f g : A -> nat) (l : list A) :
  list_sum (map (fun k => f k + g k)%nat l) = (list_sum (map f l) + list_sum (map g l))%nat.
Proof.
  induction l as [|k l IH]; [reflexivity|].
  cbn [map]. rewrite !list_sum_cons, IH. lia.
Qed.

(** The counts of [np.bincount] add up to the number of indices. *)
Lemma bincount_sum_upto (ind : list nat) (n : nat) :
  Forall (fun a => a < n)%nat ind ->
  list_sum (map (fun k => count_occ Nat.eq_dec ind k) (seq 0 n)) = length ind.
Proof.
  induction 1 as [|a ind Ha _ IH]; cbn [length].
  - cbn [count_occ]. induction (seq 0 n) as [|k l IHl]; [reflexivity|].
    cbn [map]. rewrite list_sum_cons, IHl. reflexivity.
  - rewrite <- IH.
    rewrite (map_ext (fun k => count_occ Nat.eq_dec (a :: ind) k)
                     (fun k => (if Nat.eq_dec a k then 1 else 0)
                               + count_occ Nat.eq_dec ind k)%nat).
    2:{ intro k. cbn [count_occ]. destruct (Nat.eq_dec a k); reflexivity. }
    rewrite list_sum_map_add, count_occ_sum.
    assert (E : count_occ Nat.eq_dec (seq 0 n) a = 1%nat).
    { apply NoDup_count_occ'; [apply seq_NoDup|]. apply in_seq. lia. }
    rewrite E. reflexivity.
Qed.

Lemma bincount_sum (ind : list nat) (minlength : nat) :
  list_sum (bincount ind minlength) = length ind.
Proof.
  unfold bincount. apply bincount_sum_upto.
  destruct ind as [|a ind]; [constructor|].
  apply Forall_forall. intros x Hx.
  pose proof (proj1 (list_max_le (a :: ind) (list_max (a :: ind))) (Nat.le_refl _)) as Hmax.
  rewrite Forall_forall in Hmax. specialize (Hmax x Hx). lia.
Qed.

(** Summing the entries at the non-zero positions sums them all. *)
Lemma flatnonzero_nat_filter (N : list nat) :
  flatnonzero_nat N =
  filter (fun k => negb (Nat.eqb (at_ O N k) 0)) (seq 0 (length N)).
Proof.
  unfold flatnonzero_nat. rewrite <- (map_at_seq O N) at 1. rewrite map_map.
  apply flatnonzero_map_seq.
Qed.

Lemma list_sum_filter_nonzero (f : nat -> nat) (l : list nat) :
  list_sum (map f (filter (fun k => negb (Nat.eqb (f k) 0)) l)) = list_sum (map f l).
Proof.
  induction l as [|k l IH]; [reflexivity|].
  cbn [filter map]. destruct (Nat.eqb (f k) 0) eqn:E; cbn [negb map];
    rewrite ?list_sum_cons, IH.
  - apply Nat.eqb_eq in E. lia.
  - reflexivity.
Qed.

Lemma list_sum_flatnonzero (N : list nat) :
  list_sum (map (at_ O N) (flatnonzero_nat N)) = list_sum N.
Proof.
  rewrite flatnonzero_nat_filter, (list_sum_filter_nonzero (at_ O N)), map_at_seq.
  reflexivity.
Qed.

Lemma length_take_mask {A} (l : list A) : forall m,
  length m = length l -> length (take_mask l m) = count_true m.
Proof.
  unfold count_true.
  induction l as [|a l IH]; intros [|b m] Hm; cbn in *; try discriminate; auto.
  destruct b; cbn [length]; rewrite IH by lia; reflexivity.
Qed.

Lemma count_true_le (m : list bool) : (count_true m <= length m)%nat.
Proof. unfold count_true. apply filter_length_le. Qed.

Lemma filter_all {A} (p : A -> bool) (l : list A) :
  length (filter p l) = length l -> Forall (fun x => p x = true) l.
Proof.
  induction l as [|a l IH]; cbn [filter]; intro Hl; [constructor|].
  destruct (p a) eqn:E.
  - cbn [length] in Hl. constructor; [exact E|]. apply IH. lia.
  - pose proof (filter_length_le p l). cbn [length] in Hl. lia.
Qed.

Lemma count_true_map {A} (p : A -> bool) (l : list A) :
  count_true (map p l) = length (filter p l).
Proof.
  unfold count_true. induction l as [|a l IH]; cbn [map filter]; [reflexivity|].
  destruct (p a); cbn [length]; rewrite IH; reflexivity.
Qed.

Section DrawProps.

Context {R : RandomState} {RS : RandomStateShapes R}.

Lemma draw_components_length gmm N : forall ks st,
  length (fst (draw_components gmm N ks st)) = list_sum (map (at_ O N) ks).
Proof.
  induction ks as [|k ks IH]; intro st; [reflexivity|].
  cbn [draw_components map]. rewrite list_sum_cons.
  pose proof (rng_multivariate_normal_length (at_ [] (mean gmm) k) (at_ [] (covar gmm) k)
                                              (at_ O N k) st) as Hl.
  destruct (rng_multivariate_normal (at_ [] (mean gmm) k) (at_ [] (covar gmm) k)
                                    (at_ O N k) st) as [rows st1].
  specialize (IH st1). destruct (draw_components gmm N ks st1) as [rest st2].
  cbn [fst] in *. rewrite length_app, Hl, IH. reflexivity.
Qed.

(** A batch has as many points as were asked for. *)
Lemma first_batch_length gmm size st samples st2 :
  first_batch gmm size st = Ok (samples, st2) -> length samples = size.
Proof.
  unfold first_batch. intro Hb.
  apply bind_Ok in Hb. destruct Hb as ([ind st1] & Hc & Hb). apply Ok_inj in Hb.
  pose proof (draw_components_length gmm (bincount ind (K gmm))
                (flatnonzero_nat (bincount ind (K gmm))) st1) as Hl.
  rewrite Hb in Hl. cbn [fst] in Hl.
  rewrite Hl, list_sum_flatnonzero, bincount_sum.
  apply (rng_choice_length _ _ _ _ Hc).
Qed.

(** [draw] with a selection redraws the shortfall, and only the
    shortfall. *)
Lemma draw_rec_shortfall depth gmm size cb invert_callback st :
  draw_rec (S depth) gmm size (Some cb) invert_callback st =
  ('(samples, st2) <- first_batch gmm size st ;;
   let '(sel_, st3) := batch_mask cb invert_callback samples st2 in
   let size_in := count_true sel_ in
   if Nat.eqb size_in size then Ok (samples, st3)
   else
     '(ssamples, st4) <-
        draw_rec depth gmm (size - size_in) (Some cb) invert_callback st3 ;;
     Ok (take_mask samples sel_ ++ ssamples, st4)).
Proof.
  cbn [draw_rec]. unfold first_batch, batch_mask.
  destruct (rng_choice (K gmm) size (vdivs (amp gmm) (fsum (amp gmm))) st)
    as [[ind st1]|e]; cbn [bind]; [|reflexivity].
  destruct (draw_components gmm (bincount ind (K gmm))
                            (flatnonzero_nat (bincount ind (K gmm))) st1) as [samples st2].
  destruct (cb samples None st2) as [sel0 st3]. reflexivity.
Qed.

Section Selection.

Variables (gmm : GMM) (cb : sel_cb) (accept : vec -> bool) (invert_callback : bool).
Hypothesis cb_pointwise : pointwise cb accept.

Let passes (x : vec) : bool :=
  if invert_callback then negb (accept x) else accept x.

Lemma batch_mask_passes samples st :
  fst (batch_mask cb invert_callback samples st) = map passes samples.
Proof.
  unfold batch_mask. pose proof (cb_pointwise samples None st) as Hp.
  destruct (cb samples None st) as [sel0 st3]. cbn [fst] in *. subst sel0.
  unfold passes. destruct invert_callback; [apply map_map|reflexivity].
Qed.

Lemma draw_rec_selected : forall depth size st samples st',
  draw_rec depth gmm size (Some cb) invert_callback st = Ok (samples, st') ->
  length samples = size /\ Forall (fun x => passes x = true) samples.
Proof.
  induction depth as [|depth IH]; intros size st samples st' Hd; [discriminate|].
  rewrite draw_rec_shortfall in Hd.
  apply bind_Ok in Hd. destruct Hd as ([batch st2] & Hb & Hd). cbv beta iota in Hd.
  pose proof (first_batch_length _ _ _ Hb) as Hlen.
  pose proof (batch_mask_passes batch st2) as Hm.
  destruct (batch_mask cb invert_callback batch st2) as [sel_ st3]. cbn [fst] in Hm.
  subst sel_. cbv zeta in Hd. rewrite count_true_map in Hd.
  destruct (Nat.eqb (length (filter passes batch)) size) eqn:E.
  - apply Ok_inj in Hd. injection Hd as <- <-. split; [exact Hlen|].
    apply Nat.eqb_eq in E. apply filter_all. lia.
  - apply bind_Ok in Hd. destruct Hd as ([ss st4] & Hrec & Hd). apply Ok_inj in Hd.
    injection Hd as <- <-. destruct (IH _ _ _ _ Hrec) as [Hl Hall].
    rewrite take_mask_filter. split.
    + rewrite length_app, Hl. pose proof (filter_length_le passes batch). lia.
    + apply Forall_app. split; [|exact Hall].
      apply Forall_forall. intros x Hx. apply filter_In in Hx. tauto.
Qed.

Hypothesis choice_total : forall size st,
  exists r, rng_choice (K gmm) size (vdivs (amp gmm) (fsum (amp gmm))) st = Ok r.
Hypothesis acceptance : accepts_some gmm cb invert_callback.

Lemma first_batch_total size st : exists r, first_batch gmm size st = Ok r.
Proof.
  unfold first_batch. destruct (choice_total size st) as ([ind st1] & ->). cbn [bind].
  eexists. reflexivity.
Qed.

Lemma draw_rec_terminates : forall depth size st,
  (size < depth)%nat ->
  exists samples st', draw_rec depth gmm size (Some cb) invert_callback st
                      = Ok (samples, st').
Proof.
  induction depth as [|depth IH]; intros size st Hlt; [lia|].
  rewrite draw_rec_shortfall.
  destruct (first_batch_total size st) as ([batch st2] & Hb). rewrite Hb. cbn [bind].
  cbv beta iota.
  pose proof (first_batch_length _ _ _ Hb) as Hlen.
  pose proof (@acceptance size st batch st2) as Hacc.
  pose proof (batch_mask_passes batch st2) as Hm.
  destruct (batch_mask cb invert_callback batch st2) as [sel_ st3]. cbn [fst] in Hm, Hacc.
  cbv zeta. destruct (Nat.eqb (count_true sel_) size) eqn:E.
  - do 2 eexists. reflexivity.
  - apply Nat.eqb_neq in E.
    assert (Hpos : (0 < size)%nat).
    { destruct size as [|size]; [|lia]. exfalso. apply E.
      pose proof (count_true_le sel_) as Hle. subst sel_.
      rewrite length_map, Hlen in Hle. lia. }
    specialize (Hacc Hpos Hb).
    destruct (IH (size - count_true sel_)%nat st3) as (ss & st4 & Hrec); [lia|].
    rewrite Hrec. cbn [bind]. do 2 eexists. reflexivity.
Qed.

End Selection.

(** C8.  For every size and every callback that selects point by
    point, [draw] with the callback returns, when it returns, exactly
    [size] points, each of which passes the selection (or fails it, when
    the inversion flag is set); a call that is short of points redraws the
    shortfall, and only the shortfall, recursively; and the recursion
    comes to an end, within [size] further calls, when the selection has
    nonzero acceptance: every batch that is not empty holds a point that
    passes. *)
Theorem draw_with_selection (gmm : GMM) (cb : sel_cb) (accept : vec -> bool)
        (invert_callback : bool) :
  pointwise cb accept ->
  let passes (x : vec) := if invert_callback then negb (accept x) else accept x in
  (forall depth size st samples st',
      draw_rec depth gmm size (Some cb) invert_callback st = Ok (samples, st') ->
      length samples = size /\ Forall (fun x => passes x = true) samples)
  /\ (forall depth size st,
         draw_rec (S depth) gmm size (Some cb) invert_callback st =
         ('(samples, st2) <- first_batch gmm size st ;;
          let '(sel_, st3) := batch_mask cb invert_callback samples st2 in
          let size_in := count_true sel_ in
          if Nat.eqb size_in size then Ok (samples, st3)
          else
            '(ssamples, st4) <-
               draw_rec depth gmm (size - size_in) (Some cb) invert_callback st3 ;;
            Ok (take_mask samples sel_ ++ ssamples, st4)))
  /\ ((forall size st,
          exists r, rng_choice (K gmm) size (vdivs (amp gmm) (fsum (amp gmm))) st = Ok r) ->
      accepts_some gmm cb invert_callback ->
      forall depth size st,
        (size < depth)%nat ->
        exists samples st', draw_rec depth gmm size (Some cb) invert_callback st
                            = Ok (samples, st')).
Proof.
  intros Hp passes. split; [|split].
  - intros depth size st samples st' Hd.
    apply (@draw_rec_selected gmm cb accept invert_callback Hp depth size st samples st' Hd).
  - intros. apply draw_rec_shortfall.
  - intros Hc Ha depth size st Hlt.
    apply (@draw_rec_terminates gmm cb accept invert_callback Hp Hc Ha depth size st Hlt).
Qed.

End DrawProps.

Section DrawRuns.

Import Rational Inputs.

Lemma counter_shapes : RandomStateShapes counter.
Proof.
  constructor.
  - intros K size p st ind st' Hc. cbn in Hc. unfold counter_choice in Hc.
    destruct (Nat.eqb K 0 && negb (Nat.eqb size 0)); [discriminate|].
    apply Ok_inj in Hc. injection Hc as <- _. rewrite length_map, length_seq. reflexivity.
  - intros K size p st ind st' Hc. cbn in Hc. unfold counter_choice in Hc.
    destruct (Nat.eqb K 0) eqn:EK.
    + destruct size as [|size]; [|discriminate]. cbn in Hc. apply Ok_inj in Hc.
      injection Hc as <- _. constructor.
    + cbn [andb] in Hc. apply Ok_inj in Hc. injection Hc as <- _.
      apply Forall_map, Forall_forall. intros i _. apply Nat.mod_upper_bound.
      apply Nat.eqb_neq in EK. exact EK.
  - intros m c n st. cbn. rewrite length_map, length_seq. reflexivity.
Qed.

Lemma count_occ_zeros (l : list nat) :
  Forall (fun x => x = 0%nat) l ->
  count_occ Nat.eq_dec l 0%nat = length l /\ list_max l = 0%nat.
Proof.
  induction 1 as [|x l Hx _ [IHc IHm]]; [split; reflexivity|]. subst x.
  cbn [count_occ length]. destruct (Nat.eq_dec 0%nat 0%nat) as [_|E]; [|congruence].
  split; [rewrite IHc; reflexivity|].
  change (list_max (0%nat :: l)) with (Nat.max 0%nat (list_max l)). rewrite IHm. reflexivity.
Qed.

(** Every batch of the counter generator for [unit_gmm] starts with the
    mean itself, which is below one. *)
Lemma unit_batches_accept : accepts_some unit_gmm select_below_one false.
Proof.
  intros size st samples st2 Hsize Hb.
  unfold first_batch in Hb. cbn [rng_choice counter] in Hb. unfold counter_choice in Hb.
  change (K unit_gmm) with 1%nat in Hb. cbn [Nat.eqb andb bind] in Hb.
  apply Ok_inj in Hb.
  set (ind := map (fun i => ((st + i) mod 1)%nat) (seq 0 size)) in Hb.
  assert (Hz : Forall (fun x => x = 0%nat) ind).
  { apply Forall_map, Forall_forall. intros i _. apply Nat.mod_1_r. }
  assert (Hlen : length ind = size) by (unfold ind; rewrite length_map, length_seq; reflexivity).
  destruct (count_occ_zeros Hz) as [Hc Hm].
  assert (HN : bincount ind 1%nat = [size]).
  { unfold bincount. destruct ind as [|a ind'] eqn:Ei.
    - cbn in Hlen. subst size. lia.
    - rewrite Hm. cbn [Nat.max seq map]. rewrite Hc, Hlen. reflexivity. }
  rewrite HN in Hb. destruct size as [|n]; [lia|].
  cbn in Hb. injection Hb as <- _. cbn. lia.
Qed.

Lemma draw_with_selection_witness :
  exists samples st',
    draw_rec 4 unit_gmm 3 (Some select_below_one) false 0%nat = Ok (samples, st')
    /\ length samples = 3%nat
    /\ Forall (fun x => below_one x = true) samples.
Proof.
  destruct (@draw_with_selection counter counter_shapes unit_gmm select_below_one
              below_one false) as (Hsel & _ & Hterm).
  - intros batch g st. reflexivity.
  - destruct (Hterm (fun size st => ex_intro _ _ eq_refl) unit_batches_accept
                    4%nat 3%nat 0%nat) as (samples & st' & Hd); [lia|].
    exists samples, st'. split; [exact Hd|]. apply (Hsel _ _ _ _ _ Hd).
Defined.

End DrawRuns.

(** ** Cross-validation leaves the model as it was *)

Section ExtraInvariant.

Context {np : NumPy}.
Variable X : Type.
Variable step : GMM -> buffers -> X -> nat -> option fl ->
                result (fl * nat * nat * GMM * buffers * X).
Variable Q : X -> Prop.

Hypothesis step_Q : forall gmm b x N2 c log_L N N2' gmm' b' x',
  Q x -> step gmm b x N2 c = Ok (log_L, N, N2', gmm', b', x') -> Q x'.

(** What every step keeps of the state that only it touches, the driver
    keeps. *)
Lemma EM_with_extra gmm buf x cutoff tol st' :
  Q x -> EM_with step gmm buf x cutoff tol = Ok st' -> Q (e_x st').
Proof.
  unfold EM_with. intros HQ Hrun.
  destruct (EM_loop step (maxiter_of gmm) (maxiter_of gmm) cutoff (cutoff_nd_of gmm cutoff)
                    (shift_cutoff_of gmm cutoff) tol (EM_init gmm buf x))
    as [r|] eqn:Hloop; [|discriminate]. subst r.
  refine (@EM_loop_invariant _ _ step (fun st => Q (e_x st))
                             _ _ _ _ _ _ _ _ _ _ Hloop).
  - intros st f HP Hf. pose proof Hf as Hi. apply EM_iteration_inv in Hi.
    destruct Hi as (l1 & N1 & N21 & g1 & b1 & x1 & sh & Hstep & Hsh).
    rewrite (@EM_iteration_cases _ _ step cutoff _ (shift_cutoff_of gmm cutoff) tol st
               _ _ _ _ _ _ _ Hstep Hsh) in Hf.
    apply (step_Q HP) in Hstep.
    destruct ((0 <? e_it st)%nat && fltb l1 (e_log_L st + tol)%fl);
      [destruct (fltb l1 (e_log_L st - tol)%fl);
       [|destruct (Nat.eqb (length (moved_of sh (shift_cutoff_of gmm cutoff))) 0)]|];
      apply Ok_inj in Hf; subst f; exact Hstep.
  - exact HQ.
Qed.

End ExtraInvariant.

Section CrossValidationProps.

Context {np : NumPy} {R : RandomState}.

Lemma update_background gmm s Hsize i N2 w altered bg a :
  exists a',
    snd (_update gmm s Hsize i N2 w altered (Some (with_amp bg a))) = Some (with_amp bg a').
Proof.
  unfold _update. cbn [snd adjust_amp with_amp].
  destruct (adjust_amp bg); [|exists a; reflexivity].
  destruct (sB s) as [B|]; [|exists NaN; reflexivity].
  destruct i as [[s2 H2size]|]; [|eexists; reflexivity].
  destruct (sB s2); eexists; reflexivity.
Qed.

Lemma EMstep_background bg data cov sel_callback covar_callback w altered
      gmm b x N2 cutoff log_L N N2' gmm' b' x' :
  background_of bg x ->
  _EMstep data cov sel_callback covar_callback w altered gmm b x N2 cutoff
  = Ok (log_L, N, N2', gmm', b', x') ->
  background_of bg x'.
Proof.
  intros [a Ha] Hs. apply EMstep_update in Hs.
  destruct Hs as (s & Hsize & i & st & Hu & _).
  rewrite Ha in Hu. apply (f_equal snd) in Hu. cbn [snd] in Hu.
  destruct (update_background gmm s Hsize i N2' w altered bg a) as [a' Ha'].
  exists a'. rewrite Hu. exact Ha'.
Qed.

Lemma EM_background bg data cov sel_callback covar_callback w altered
      gmm buf x cutoff tol e :
  background_of bg x ->
  _EM data cov sel_callback covar_callback w altered gmm buf x cutoff tol = Ok e ->
  background_of bg (e_x e).
Proof.
  unfold _EM. apply EM_with_extra. intros until x'. apply EMstep_background.
Qed.

Lemma snm_loop_background bg findSNM data cov a cutoff : forall n gmm buf x log_L N N2 r,
  background_of bg x ->
  snm_loop findSNM data cov a cutoff n gmm buf x log_L N N2 = Ok r ->
  exists v, f_background r = Some (with_amp bg v).
Proof.
  induction n as [|n IH]; intros gmm buf x log_L N N2 r Hx Hr; cbn [snm_loop] in Hr.
  - apply Ok_inj in Hr. subst r. exact Hx.
  - destruct (3 <=? K gmm)%nat.
    2:{ apply Ok_inj in Hr. subst r. exact Hx. }
    apply bind_Ok in Hr. destruct Hr as (U_ & _ & Hr).
    apply bind_Ok in Hr. destruct Hr as ([altered cleanup] & _ & Hr). cbv beta iota in Hr.
    apply bind_Ok in Hr. destruct Hr as ([gmm1 U1] & _ & Hr). cbv beta iota in Hr.
    apply bind_Ok in Hr. destruct Hr as (e1 & He1 & Hr).
    apply bind_Ok in Hr. destruct Hr as (e2 & He2 & Hr).
    eapply EM_background in He1; [|exact Hx].
    eapply EM_background in He2; [|exact He1].
    cbv zeta in Hr. destruct (fgeb log_L (e_log_L e2)).
    + apply Ok_inj in Hr. subst r. exact He2.
    + eapply IH; [exact He2|exact Hr].
Qed.

Lemma fit_background bg findSNM gmm data cov a st r :
  a_background a = Some bg ->
  fit findSNM gmm data cov a st = Ok r ->
  exists v, f_background r = Some (with_amp bg v).
Proof.
  intros Hbg. unfold fit. intro Hr.
  apply bind_Ok in Hr. destruct Hr as ([gmm' st'] & _ & Hr). cbv beta iota in Hr.
  destruct (_ && _ && _); [discriminate|].
  apply bind_Ok in Hr. destruct Hr as (e & He & Hr).
  assert (Hx : background_of bg (a_background a, st')).
  { exists (bg_amp bg). cbn [fst]. rewrite Hbg. destruct bg; reflexivity. }
  eapply EM_background in He; [|exact Hx].
  eapply snm_loop_background; [exact He|exact Hr].
Qed.

(** What the folds keep: the caller's parameters, and the caller's
    background. *)
Lemma cv_folds_restores findSNM cpu_count L gmm0 bg_amp0 data cov a rng_state :
  (forall bg, a_background a = Some bg -> bg_amp0 = bg_amp bg) ->
  forall folds c c',
    amp (cv_gmm c) = amp gmm0 /\ mean (cv_gmm c) = mean gmm0
    /\ covar (cv_gmm c) = covar gmm0 ->
    (forall bg, a_background a = Some bg -> cv_background c = Some bg) ->
    cv_folds findSNM cpu_count L folds gmm0 bg_amp0 data cov a rng_state c = Ok c' ->
    (amp (cv_gmm c') = amp gmm0 /\ mean (cv_gmm c') = mean gmm0
     /\ covar (cv_gmm c') = covar gmm0)
    /\ (forall bg, a_background a = Some bg -> cv_background c' = Some bg).
Proof.
  intros Hamp0. induction folds as [|i folds IH]; intros c c' Hg Hb Hc; cbn [cv_folds] in Hc.
  - apply Ok_inj in Hc. subst c'. split; assumption.
  - apply bind_Ok in Hc. destruct Hc as (r & Hfit & Hc).
    apply bind_Ok in Hc. destruct Hc as (ll & _ & Hc). cbv zeta in Hc.
    apply IH in Hc; [exact Hc| |].
    + cbn [cv_gmm assign amp mean covar]. auto.
    + intros bg Ea. cbn [cv_background]. rewrite Ea.
      assert (Hbg : a_background (with_background a (cv_background c)) = Some bg)
        by (cbn [with_background a_background]; auto).
      destruct (fit_background _ _ _ _ _ _ Hbg Hfit) as [v Hv]. rewrite Hv.
      rewrite (Hamp0 bg Ea). destruct bg; reflexivity.
Qed.

(** C10. When [cv_fit] returns, the caller's mixture has the amplitudes,
    means and covariances it had at entry, and a background that was
    supplied is the one supplied, its amplitude included, whatever the fits
    of the folds did to them. *)
Theorem cv_fit_restores_model findSNM cpu_count gmm data L cov a st c :
  cv_fit findSNM cpu_count gmm data L cov a st = Ok c ->
  amp (cv_gmm c) = amp gmm /\ mean (cv_gmm c) = mean gmm
  /\ covar (cv_gmm c) = covar gmm
  /\ (forall bg, a_background a = Some bg ->
      cv_background c = Some bg /\
      exists bg', cv_background c = Some bg' /\ bg_amp bg' = bg_amp bg).
Proof.
  unfold cv_fit. destruct (a_init_callback a); [discriminate|]. cbv zeta. intro Hc.
  apply cv_folds_restores in Hc.
  - destruct Hc as [(Ha & Hm & Hc) Hb]. cbn [assign amp mean covar] in Ha, Hm, Hc.
    repeat split; try assumption.
    + apply Hb; assumption.
    + exists bg. split; [apply Hb; assumption|reflexivity].
  - intros bg Ea. rewrite Ea. reflexivity.
  - cbn [cv_gmm assign amp mean covar]. auto.
  - cbn [cv_background]. auto.
Qed.

End CrossValidationProps.

Section CrossValidationRuns.

Import Rational Inputs.

(** The fit of a fold does change the mixture and the background it is
    given: on [far_data] the mean moves to [3/2], the covariance to [51/8]
    and the background amplitude away from [1/10]. *)
Example fold_fit_moves_model :
  exists r, fit no_choice unit_gmm far_data NoCov cv_args 0%nat = Ok r
            /\ mean (f_gmm r) = [[Fin (3 # 2)]]
            /\ covar (f_gmm r) = [[[Fin (51 # 8)]]]
            /\ f_background r <> Some flat_background.
Proof.
  destruct (fit no_choice unit_gmm far_data NoCov cv_args 0%nat) as [r|e] eqn:Hr;
    vm_compute in Hr; [|discriminate].
  exists r. split; [reflexivity|]. apply Ok_inj in Hr. subst r. cbn [f_gmm mean covar].
  repeat split; try reflexivity. cbn [f_background]. discriminate.
Qed.

(** Two folds over [folded_data] with a background, each training on
    [far_data]: the run returns the six scores and leaves the unit
    component and the background amplitude [1/10]. *)
Lemma cv_fit_restores_model_witness :
  let c := mkCV [Fin (-339171 # 122944); Fin (-339171 # 122944);
                 Fin (-959657 # 368832); Fin (-959657 # 368832);
                 Fin (-1068137 # 368832); Fin (-1068137 # 368832)]
                unit_gmm (Some flat_background) 0%nat in
  cv_fit no_choice 1 unit_gmm folded_data 2 NoCov cv_args 0%nat = Ok c
  /\ amp (cv_gmm c) = amp unit_gmm /\ mean (cv_gmm c) = mean unit_gmm
  /\ covar (cv_gmm c) = covar unit_gmm
  /\ cv_background c = Some flat_background.
Proof.
  intro c.
  assert (Hc : cv_fit no_choice 1 unit_gmm folded_data 2 NoCov cv_args 0%nat = Ok c)
    by (vm_compute; reflexivity).
  split; [exact Hc|].
  destruct (@cv_fit_restores_model _ _ no_choice 1%nat unit_gmm folded_data 2%nat NoCov
              cv_args 0%nat c Hc) as (Ha & Hm & Hv & Hb).
  split; [exact Ha|]. split; [exact Hm|]. split; [exact Hv|].
  apply (Hb flat_background). reflexivity.
Defined.

End CrossValidationRuns.

(** * Properties of matching, of the choice of components and of stacking *)

(** ** Checked indexing *)

Lemma get_Ok {A} (l : list A) (i : nat) (a : A) :
  get l i = Ok a <-> nth_error l i = Some a.
Proof.
  unfold get. destruct (nth_error l i) as [b|]; split; intro E;
    inversion E; reflexivity.
Qed.

Lemma get_lt {A} (d : A) (l : list A) (i : nat) :
  (i < length l)%nat -> get l i = Ok (nth i l d).
Proof.
  intro Hi. apply get_Ok. apply nth_error_nth'. exact Hi.
Qed.

Lemma get_inv {A} (d : A) (l : list A) (i : nat) (a : A) :
  get l i = Ok a -> (i < length l)%nat /\ a = nth i l d.
Proof.
  intro E. apply get_Ok in E. split.
  - apply nth_error_Some. congruence.
  - symmetry. apply nth_error_nth. exact E.
Qed.

Lemma get_out {A} (l : list A) (i : nat) :
  (length l <= i)%nat -> get l i = Raise IndexError.
Proof.
  intro Hi. unfold get. apply nth_error_None in Hi. rewrite Hi. reflexivity.
Qed.

Lemma mapM_get {A} (d : A) (l : list A) : forall idx,
  Forall (fun i => (i < length l)%nat) idx ->
  mapM (get l) idx = Ok (map (fun i => nth i l d) idx).
Proof.
  induction idx as [|i idx IH]; intro Hall; [reflexivity|].
  inversion Hall as [|i' idx' Hi Hidx]; subst.
  cbn [mapM map]. rewrite (get_lt d l Hi). cbn [bind]. rewrite (IH Hidx). reflexivity.
Qed.

Lemma mapM_get_inv {A} (d : A) (l : list A) : forall idx vs,
  mapM (get l) idx = Ok vs ->
  Forall (fun i => (i < length l)%nat) idx /\ vs = map (fun i => nth i l d) idx.
Proof.
  induction idx as [|i idx IH]; intros vs Hvs; cbn [mapM] in Hvs.
  - apply Ok_inj in Hvs. subst vs. split; [constructor|reflexivity].
  - apply bind_Ok in Hvs. destruct Hvs as (a & Ha & Hvs).
    apply bind_Ok in Hvs. destruct Hvs as (bs & Hbs & Hvs).
    apply Ok_inj in Hvs. subst vs. apply (get_inv d) in Ha. destruct Ha as [Hi ->].
    destruct (IH bs Hbs) as [Hall ->]. split; [constructor; assumption|reflexivity].
Qed.

Lemma map_nth_seq {A} (d : A) (l : list A) :
  map (fun i => nth i l d) (seq 0 (length l)) = l.
Proof.
  apply (nth_ext _ _ d d).
  - rewrite length_map, length_seq. reflexivity.
  - intros n Hn. rewrite length_map, length_seq in Hn.
    rewrite (nth_indep _ d (nth 0 l d)) by (rewrite length_map, length_seq; exact Hn).
    rewrite (map_nth (fun i => nth i l d)). rewrite seq_nth by exact Hn. reflexivity.
Qed.

Lemma nth_zipWith {A B C} (f : A -> B -> C) (da : A) (db : B) (dc : C) :
  forall (l : list A) (m : list B) j,
    (j < length l)%nat -> (j < length m)%nat ->
    nth j (zipWith f l m) dc = f (nth j l da) (nth j m db).
Proof.
  unfold zipWith.
  induction l as [|a l IH]; intros [|b m] j Hl Hm; cbn in *; try lia.
  destruct j as [|j]; [reflexivity|]. apply IH; lia.
Qed.

Lemma length_zipWith {A B C} (f : A -> B -> C) (l : list A) (m : list B) :
  length (zipWith f l m) = Nat.min (length l) (length m).
Proof. unfold zipWith. rewrite length_map, length_combine. reflexivity. Qed.

(** ** The keys below a value in a sorted array *)

Lemma count_below_le (v : Z) (a : list Z) : (count_below v a <= length a)%nat.
Proof. unfold count_below. apply filter_length_le. Qed.

Lemma count_below_none (v : Z) (a : list Z) :
  Forall (fun x => (v <= x)%Z) a -> count_below v a = 0%nat.
Proof.
  unfold count_below. induction 1 as [|x a Hx _ IH]; cbn [filter]; [reflexivity|].
  destruct (Z.ltb_spec x v); [lia|exact IH].
Qed.

(** In a sorted array the insertion point of a key that occurs is the
    place of its first occurrence. *)
Lemma count_below_found (v : Z) : forall a,
  StronglySorted Z.le a -> In v a -> nth_error a (count_below v a) = Some v.
Proof.
  induction a as [|x a IH]; intros Hs Hin; [destruct Hin|].
  inversion Hs as [|x' a' Hs' Hall]; subst.
  unfold count_below. cbn [filter]. destruct (Z.ltb_spec x v) as [Hlt|Hge].
  - cbn [length nth_error]. apply IH; [exact Hs'|].
    destruct Hin as [E|Hin]; [lia|exact Hin].
  - fold (count_below v a). rewrite count_below_none.
    + cbn [nth_error]. f_equal. destruct Hin as [E|Hin]; [exact E|].
      rewrite Forall_forall in Hall. specialize (Hall v Hin). lia.
    + rewrite Forall_forall in Hall |- *. intros y Hy. specialize (Hall y Hy). lia.
Qed.

(** A key that is not above the last one has its insertion point inside
    the array. *)
Lemma count_below_inside (v : Z) (a : list Z) (m : Z) :
  In m a -> (v <= m)%Z -> (count_below v a < length a)%nat.
Proof.
  unfold count_below. induction a as [|x a IH]; intros Hin Hv; [destruct Hin|].
  cbn [filter length]. destruct Hin as [E|Hin].
  - subst x. destruct (Z.ltb_spec m v); [lia|].
    pose proof (filter_length_le (fun x => (x <? v)%Z) a). lia.
  - specialize (IH Hin Hv). destruct (x <? v)%Z; cbn [length]; lia.
Qed.

Lemma fold_max_spec : forall (a : list Z) (x : Z),
  (In (fold_left Z.max a x) (x :: a))
  /\ Forall (fun y => (y <= fold_left Z.max a x)%Z) (x :: a).
Proof.
  induction a as [|y a IH]; intro x; cbn [fold_left].
  - split; [left; reflexivity|]. constructor; [lia|constructor].
  - destruct (IH (Z.max x y)) as [Hin Hall]. split.
    + destruct Hin as [E|Hin]; [|right; right; exact Hin].
      rewrite <- E. destruct (Z.max_spec x y) as [[_ ->]|[_ ->]]; [right; left|left];
        reflexivity.
    + inversion Hall as [|m l Hm Hl]; subst.
      constructor; [lia|]. constructor; [lia|exact Hl].
Qed.

Lemma zmax_spec (a : list Z) :
  a <> [] -> In (zmax a) a /\ Forall (fun y => (y <= zmax a)%Z) a.
Proof.
  destruct a as [|x a]; [congruence|]. intros _. apply fold_max_spec.
Qed.

Lemma zmax_perm (a b : list Z) : Permutation a b -> zmax a = zmax b.
Proof.
  intro Hp. destruct a as [|x a].
  - apply Permutation_nil in Hp. subst b. reflexivity.
  - assert (Ha : x :: a <> []) by discriminate.
    assert (Hb : b <> []).
    { intro E. subst b. apply Permutation_sym, Permutation_nil in Hp. discriminate. }
    destruct (zmax_spec Ha) as [Hia Hla]. destruct (zmax_spec Hb) as [Hib Hlb].
    rewrite Forall_forall in Hla, Hlb.
    pose proof (Hlb _ (Permutation_in _ Hp Hia)).
    pose proof (Hla _ (Permutation_in _ (Permutation_sym Hp) Hib)). lia.
Qed.

Lemma unique_size_NoDup (a : list Z) : unique_size a = length a <-> NoDup a.
Proof.
  unfold unique_size. split.
  - induction a as [|x a IH]; intro E; [constructor|]. cbn [nodup length] in E.
    pose proof (nodup_incl Z.eq_dec a) as Hincl.
    assert (Hle : (length (nodup Z.eq_dec a) <= length a)%nat).
    { apply NoDup_incl_length; [apply NoDup_nodup|].
      intros y Hy. apply nodup_In in Hy. exact Hy. }
    destruct (in_dec Z.eq_dec x a) as [Hin|Hnin]; [lia|].
    cbn [length] in E. constructor; [exact Hnin|]. apply IH. lia.
  - intro Hn. rewrite nodup_fixed_point by exact Hn. reflexivity.
Qed.

Lemma Forall_map_nth {A} (P : A -> Prop) (d : A) (l : list A) (idx : list nat) :
  Forall P l -> Forall (fun i => (i < length l)%nat) idx ->
  Forall P (map (fun i => nth i l d) idx).
Proof.
  intros Hl Hidx. rewrite Forall_forall in Hl. induction Hidx as [|i idx Hi _ IH];
    cbn [map]; constructor; [|exact IH].
  apply Hl. apply nth_In. exact Hi.
Qed.

Lemma flatnonzero_lt (m : list bool) :
  Forall (fun k => (k < length m)%nat) (flatnonzero m).
Proof.
  apply Forall_forall. intros k Hk. apply flatnonzero_in in Hk.
  destruct (Nat.lt_ge_cases k (length m)) as [Hlt|Hge]; [exact Hlt|].
  rewrite nth_overflow in Hk by exact Hge. discriminate.
Qed.

(** ** [match1d] *)

Section MatchProps.

Context {S : Sorting} {L : SortingLaws S}.

Lemma argsort_int_range (a : list Z) :
  Forall (fun i => (i < length a)%nat) (np_argsort_int a).
Proof.
  apply (Permutation_Forall (Permutation_sym (argsort_int_perm a))).
  apply Forall_forall. intros i Hi. apply in_seq in Hi. lia.
Qed.

Lemma argsort_int_length (a : list Z) : length (np_argsort_int a) = length a.
Proof. rewrite (Permutation_length (argsort_int_perm a)). apply length_seq. Qed.

Lemma sorted_view_perm (a : list Z) :
  Permutation (map (fun i => nth i a 0%Z) (np_argsort_int a)) a.
Proof.
  rewrite <- (map_nth_seq 0%Z a) at 2. apply Permutation_map. apply argsort_int_perm.
Qed.

(** After the correction at the high end, every insertion point is an
    index of [arr1]. *)
Lemma clamped_inside (sorted1 a1 a2 : list Z) :
  a1 <> [] -> StronglySorted Z.le sorted1 -> Permutation sorted1 a1 ->
  Forall (fun s => (s < length a1)%nat)
         (if (zmax a1 <? zmax a2)%Z
          then map (fun s => if Nat.eqb s (length a1) then (length a1 - 1)%nat else s)
                   (map (np_searchsorted sorted1) a2)
          else map (np_searchsorted sorted1) a2).
Proof.
  intros Hne Hs Hp.
  assert (Hlen : length sorted1 = length a1) by (apply Permutation_length; exact Hp).
  assert (Hpos : (0 < length a1)%nat) by (destruct a1; [congruence|cbn; lia]).
  destruct (Z.ltb_spec (zmax a1) (zmax a2)) as [Hlt|Hge].
  - rewrite map_map. apply Forall_forall. intros s Hin. apply in_map_iff in Hin.
    destruct Hin as (v & <- & _). pose proof (searchsorted_bound sorted1 v) as Hb.
    destruct (Nat.eqb_spec (np_searchsorted sorted1 v) (length a1)); lia.
  - apply Forall_forall. intros s Hin. apply in_map_iff in Hin.
    destruct Hin as (v & <- & Hv). rewrite (searchsorted_sorted _ Hs), <- Hlen.
    destruct a2 as [|y a2]; [destruct Hv|].
    destruct (zmax_spec (a := y :: a2)) as [_ Hall2]; [discriminate|].
    rewrite Forall_forall in Hall2. specialize (Hall2 v Hv).
    destruct (zmax_spec Hne) as [Hin1 _].
    apply count_below_inside with (m := zmax a1).
    + apply (Permutation_in _ (Permutation_sym Hp)). exact Hin1.
    + lia.
Qed.

(** A key of [arr2] that occurs in [arr1] is found at its insertion
    point, which the correction leaves alone. *)
Lemma search_found (sorted1 a1 : list Z) (v : Z) :
  StronglySorted Z.le sorted1 -> Permutation sorted1 a1 -> In v a1 ->
  nth_error sorted1 (np_searchsorted sorted1 v) = Some v
  /\ (np_searchsorted sorted1 v < length a1)%nat.
Proof.
  intros Hs Hp Hin. rewrite (searchsorted_sorted _ Hs).
  assert (Hf : nth_error sorted1 (count_below v sorted1) = Some v).
  { apply count_below_found; [exact Hs|].
    apply (Permutation_in _ (Permutation_sym Hp)). exact Hin. }
  split; [exact Hf|]. rewrite <- (Permutation_length Hp).
  apply nth_error_Some. congruence.
Qed.

Lemma match1d_checks (a1 a2 : list Z) :
  a1 <> [] -> a2 <> [] -> NoDup a1 ->
  (Nat.eqb (length a1) 0 || Nat.eqb (length a2) 0 = false)
  /\ negb (Nat.eqb (unique_size a1) (length a1)) = false.
Proof.
  intros H1 H2 Hn. split.
  - destruct a1; [congruence|]. destruct a2; [congruence|]. reflexivity.
  - apply unique_size_NoDup in Hn. rewrite Hn, Nat.eqb_refl. reflexivity.
Qed.

Lemma match1d_returns (a1 a2 : list Z) (presorted : bool) :
  (presorted = true -> StronglySorted Z.le a1) ->
  a1 <> [] -> a2 <> [] -> NoDup a1 ->
  exists sub1 sub2, match1d (IntArray a1) (IntArray a2) presorted = Ok (sub1, sub2).
Proof.
  intros Hsorted H1 H2 Hn. unfold match1d.
  destruct (match1d_checks H1 H2 Hn) as [-> ->]. destruct presorted.
  - cbn [bind]. specialize (Hsorted eq_refl).
    pose proof (clamped_inside a2 H1 Hsorted (Permutation_refl a1)) as Hin.
    set (sub1 := if (zmax a1 <? zmax a2)%Z then _ else _) in *.
    rewrite (mapM_get 0%Z a1 Hin). cbn [bind].
    set (sub2 := flatnonzero _).
    assert (H2in : Forall (fun k => (k < length sub1)%nat) sub2).
    { subst sub2. eapply Forall_impl; [|apply flatnonzero_lt].
      intros k Hk. rewrite length_zipWith, length_map in Hk. lia. }
    rewrite (mapM_get 0%nat sub1 H2in). cbn [bind]. eauto.
  - rewrite (mapM_get 0%Z a1 (argsort_int_range a1)). cbn [bind].
    pose proof (clamped_inside a2 H1 (argsort_int_sorted a1) (sorted_view_perm a1))
      as Hin.
    set (sub1 := if (zmax a1 <? zmax a2)%Z then _ else _) in *.
    assert (Hin' : Forall (fun s => (s < length (np_argsort_int a1))%nat) sub1)
      by (rewrite argsort_int_length; exact Hin).
    rewrite (mapM_get 0%nat (np_argsort_int a1) Hin'). cbn [bind].
    assert (Hi1 : Forall (fun i => (i < length a1)%nat)
                         (map (fun i => nth i (np_argsort_int a1) 0%nat) sub1))
      by (apply Forall_map_nth; [apply argsort_int_range|exact Hin']).
    rewrite (mapM_get 0%Z a1 Hi1). cbn [bind].
    set (sub2 := flatnonzero _).
    assert (H2in : Forall (fun k => (k < length sub1)%nat) sub2).
    { subst sub2. eapply Forall_impl; [|apply flatnonzero_lt].
      intros k Hk. rewrite length_zipWith, !length_map in Hk. lia. }
    rewrite (mapM_get 0%nat sub1 H2in). cbn [bind].
    assert (H12 : Forall (fun s => (s < length (np_argsort_int a1))%nat)
                         (map (fun i => nth i sub1 0%nat) sub2))
      by (apply Forall_map_nth; assumption).
    rewrite (mapM_get 0%nat (np_argsort_int a1) H12). cbn [bind]. eauto.
Qed.

(** What a call that returns has computed, in one form for both values
    of [presorted]: [p] maps a place in the sorted order to the index in
    [arr1]. *)
Lemma match1d_Ok_inv (a1 a2 : list Z) (presorted : bool) (sub1 sub2 : list nat) :
  match1d (IntArray a1) (IntArray a2) presorted = Ok (sub1, sub2) ->
  let p := fun s => if presorted then s else nth s (np_argsort_int a1) 0%nat in
  let sorted1 :=
    if presorted then a1 else map (fun i => nth i a1 0%Z) (np_argsort_int a1) in
  let s1 :=
    if (zmax a1 <? zmax a2)%Z
    then map (fun s => if Nat.eqb s (length a1) then (length a1 - 1)%nat else s)
             (map (np_searchsorted sorted1) a2)
    else map (np_searchsorted sorted1) a2 in
  a1 <> [] /\ a2 <> [] /\ NoDup a1
  /\ Forall (fun s => (p s < length a1)%nat) s1
  /\ sub2 = flatnonzero (zipWith Z.eqb (map (fun s => nth (p s) a1 0%Z) s1) a2)
  /\ sub1 = map (fun j => p (nth j s1 0%nat)) sub2.
Proof.
  unfold match1d. intro Hm.
  destruct (Nat.eqb (length a1) 0 || Nat.eqb (length a2) 0) eqn:Elen; [discriminate|].
  destruct (negb (Nat.eqb (unique_size a1) (length a1))) eqn:Eun; [discriminate|].
  apply orb_false_iff in Elen. destruct Elen as [E1 E2].
  apply Nat.eqb_neq in E1, E2. apply negb_false_iff, Nat.eqb_eq, unique_size_NoDup in Eun.
  cbv zeta. split; [destruct a1; [cbn in E1; lia|discriminate]|].
  split; [destruct a2; [cbn in E2; lia|discriminate]|]. split; [exact Eun|].
  destruct presorted.
  - cbn [bind] in Hm. apply bind_Ok in Hm. destruct Hm as (v1 & Hv1 & Hm).
    apply bind_Ok in Hm. destruct Hm as (s' & Hs' & Hm). apply Ok_inj in Hm.
    injection Hm as <- <-.
    apply (mapM_get_inv 0%Z) in Hv1. destruct Hv1 as [Hin ->].
    apply (mapM_get_inv 0%nat) in Hs'. destruct Hs' as [_ ->].
    split; [exact Hin|]. split; reflexivity.
  - apply bind_Ok in Hm. destruct Hm as (sorted1 & Hsorted1 & Hm).
    apply (mapM_get_inv 0%Z) in Hsorted1. destruct Hsorted1 as [_ ->].
    apply bind_Ok in Hm. destruct Hm as (i1 & Hi1 & Hm).
    apply bind_Ok in Hm. destruct Hm as (v1 & Hv1 & Hm).
    apply bind_Ok in Hm. destruct Hm as (s12 & Hs12 & Hm).
    apply bind_Ok in Hm. destruct Hm as (s' & Hs' & Hm). apply Ok_inj in Hm.
    injection Hm as <- <-.
    apply (mapM_get_inv 0%nat) in Hi1. destruct Hi1 as [_ ->].
    apply (mapM_get_inv 0%Z) in Hv1. destruct Hv1 as [Hin ->].
    apply (mapM_get_inv 0%nat) in Hs12. destruct Hs12 as [_ ->].
    apply (mapM_get_inv 0%nat) in Hs'. destruct Hs' as [_ ->].
    rewrite Forall_map in Hin. split; [exact Hin|].
    rewrite !map_map. split; reflexivity.
Qed.

End MatchProps.

(** ** The insertion sort is a sort *)

Lemma StronglySorted_nth {A} (R : A -> A -> Prop) (d : A) : forall (l : list A) i j,
  StronglySorted R l -> (i < j < length l)%nat -> R (nth i l d) (nth j l d).
Proof.
  induction l as [|a l IH]; intros i j Hs Hij; [cbn in Hij; lia|].
  inversion Hs as [|a' l' Hs' Hall]; subst. destruct j as [|j]; [lia|].
  destruct i as [|i]; cbn [nth].
  - rewrite Forall_forall in Hall. apply Hall. apply nth_In. cbn in Hij. lia.
  - apply IH; [exact Hs'|]. cbn in Hij. lia.
Qed.

Lemma StronglySorted_map {A B} (R : A -> A -> Prop) (Q : B -> B -> Prop) (f : A -> B) :
  (forall x y, R x y -> Q (f x) (f y)) ->
  forall l, StronglySorted R l -> StronglySorted Q (map f l).
Proof.
  intros Hf l Hs. induction Hs as [|a l _ IH Hall]; cbn [map]; constructor; [exact IH|].
  rewrite Forall_map. eapply Forall_impl; [|exact Hall]. intros y Hy. apply Hf. exact Hy.
Qed.

Section InsertionSortProps.

Import InsertionSort.

Variable A : Type.
Variable leb : A -> A -> bool.
Hypothesis leb_total : forall x y, leb x y = true \/ leb y x = true.
Hypothesis leb_trans : forall x y z, leb x y = true -> leb y z = true -> leb x z = true.

Lemma insert_by_perm (key : nat -> A) (i : nat) : forall l,
  Permutation (insert_by leb key i l) (i :: l).
Proof.
  induction l as [|j l IH]; cbn [insert_by]; [apply Permutation_refl|].
  destruct (leb (key j) (key i)); [|apply Permutation_refl].
  apply (perm_trans (perm_skip j IH)). apply perm_swap.
Qed.

Lemma insert_by_sorted (key : nat -> A) (i : nat) : forall l,
  StronglySorted (fun a b => leb (key a) (key b) = true) l ->
  StronglySorted (fun a b => leb (key a) (key b) = true) (insert_by leb key i l).
Proof.
  induction l as [|j l IH]; intro Hs; cbn [insert_by].
  - constructor; constructor.
  - inversion Hs as [|j' l' Hs' Hall]; subst.
    destruct (leb (key j) (key i)) eqn:E.
    + constructor; [apply IH; exact Hs'|].
      apply (Permutation_Forall (Permutation_sym (insert_by_perm key i l))).
      constructor; assumption.
    + constructor; [exact Hs|].
      assert (Hij : leb (key i) (key j) = true)
        by (destruct (leb_total (key i) (key j)); congruence).
      constructor; [exact Hij|].
      eapply Forall_impl; [|exact Hall]. intros y Hy. exact (leb_trans Hij Hy).
Qed.

Lemma fold_insert_by (key : nat -> A) : forall l acc,
  Permutation (fold_left (fun acc i => insert_by leb key i acc) l acc) (acc ++ l)
  /\ (StronglySorted (fun a b => leb (key a) (key b) = true) acc ->
      StronglySorted (fun a b => leb (key a) (key b) = true)
                     (fold_left (fun acc i => insert_by leb key i acc) l acc)).
Proof.
  induction l as [|i l IH]; intro acc; cbn [fold_left].
  - rewrite app_nil_r. split; [apply Permutation_refl|auto].
  - destruct (IH (insert_by leb key i acc)) as [Hp Hs]. split.
    + apply (perm_trans Hp).
      apply (perm_trans (Permutation_app_tail l (insert_by_perm key i acc))).
      cbn [app]. apply Permutation_middle.
    + intro Hacc. apply Hs. apply insert_by_sorted. exact Hacc.
Qed.

Lemma argsort_by_perm (d : A) (a : list A) :
  Permutation (argsort_by leb d a) (seq 0 (length a)).
Proof. unfold argsort_by. apply (proj1 (fold_insert_by _ _ [])). Qed.

Lemma argsort_by_sorted (d : A) (a : list A) :
  StronglySorted (fun i j => leb (nth i a d) (nth j a d) = true) (argsort_by leb d a).
Proof. unfold argsort_by. apply (proj2 (fold_insert_by _ _ [])). constructor. Qed.

End InsertionSortProps.

Lemma fleb_total (x y : fl) :
  InsertionSort.fleb x y = true \/ InsertionSort.fleb y x = true.
Proof.
  unfold InsertionSort.fleb.
  destruct x as [p|s|], y as [q|t|]; cbn [is_nan fltb orb andb negb]; auto.
  - unfold Qltb. destruct (Qle_bool p q) eqn:E1, (Qle_bool q p) eqn:E2; cbn; auto.
    exfalso. assert (~ p <= q) by (rewrite <- Qle_bool_iff; congruence).
    assert (~ q <= p) by (rewrite <- Qle_bool_iff; congruence). lra.
  - destruct t; cbn; auto.
  - destruct s; cbn; auto.
  - destruct s, t; cbn; auto.
Qed.

Lemma fleb_trans (x y z : fl) :
  InsertionSort.fleb x y = true -> InsertionSort.fleb y z = true ->
  InsertionSort.fleb x z = true.
Proof.
  unfold InsertionSort.fleb.
  destruct x as [p|s|], y as [q|t|], z as [r|u|];
    cbn [is_nan fltb orb andb negb]; try reflexivity; try discriminate;
    try (destruct s); try (destruct t); try (destruct u); cbn; try reflexivity;
    try discriminate.
  unfold Qltb. rewrite !negb_involutive. rewrite !Qle_bool_iff. intros. lra.
Qed.

(** The insertion sort has the documented properties of numpy's. *)
Lemma insertion_laws : SortingLaws InsertionSort.insertion.
Proof.
  assert (Zt : forall x y, (x <=? y)%Z = true \/ (y <=? x)%Z = true)
    by (intros x y; rewrite !Z.leb_le; lia).
  assert (Ztr : forall x y z, (x <=? y)%Z = true -> (y <=? z)%Z = true -> (x <=? z)%Z = true)
    by (intros x y z; rewrite !Z.leb_le; lia).
  constructor; cbn [np_argsort_int np_argsort np_searchsorted InsertionSort.insertion].
  - intro a. apply argsort_by_perm; assumption.
  - intro a.
    apply (StronglySorted_map (R := fun i j => (nth i a 0 <=? nth j a 0)%Z = true)).
    + intros x y Hxy. apply Z.leb_le. exact Hxy.
    + apply argsort_by_sorted; assumption.
  - intro v. apply argsort_by_perm; [apply fleb_total|apply fleb_trans].
  - intros v i j Hij.
    pose proof (@argsort_by_sorted _ _ fleb_total fleb_trans NaN v) as Hs.
    assert (Hlen : length (InsertionSort.argsort_by InsertionSort.fleb NaN v) = length v).
    { rewrite (Permutation_length (@argsort_by_perm _ _ fleb_total fleb_trans NaN v)).
      apply length_seq. }
    apply (StronglySorted_nth 0%nat) with (i := i) (j := j) in Hs; [|lia].
    revert Hs. unfold InsertionSort.fleb.
    destruct (nth (nth j _ 0%nat) v NaN) as [q|t|]; cbn [is_nan orb fltb];
      try reflexivity; intro Hs; apply andb_prop in Hs; destruct Hs as [_ Hs];
      apply negb_true_iff in Hs; exact Hs.
  - intros a v. apply count_below_le.
  - intros a v _. reflexivity.
Qed.

Lemma take_mask_seq_sorted (m : list bool) : forall s,
  StronglySorted lt (take_mask (seq s (length m)) m).
Proof.
  induction m as [|b m IH]; intro s; cbn [length seq take_mask]; [constructor|].
  destruct b; [|apply IH]. constructor; [apply IH|].
  apply Forall_forall. intros k Hk. apply take_mask_seq_in in Hk. lia.
Qed.

Section MatchTheorems.

Context {S : Sorting} {L : SortingLaws S}.

(** [match1d] raises ValueError, and nothing else, on arrays that are
    not both of integers, on an empty array and on an [arr1] with a
    repeated value; on all other arrays it returns (with [presorted], on
    those whose [arr1] is sorted as promised): the correction at the high
    end keeps every index in range. *)
Theorem match1d_value_errors (arr1 arr2 : ndarray) (presorted : bool) :
  (forall a1, arr1 = IntArray a1 -> presorted = true -> StronglySorted Z.le a1) ->
  match arr1, arr2 with
  | IntArray a1, IntArray a2 =>
      if Nat.eqb (length a1) 0 || Nat.eqb (length a2) 0
         || negb (Nat.eqb (length (nodup Z.eq_dec a1)) (length a1))
      then match1d arr1 arr2 presorted = Raise ValueError
      else exists sub1 sub2, match1d arr1 arr2 presorted = Ok (sub1, sub2)
  | _, _ => match1d arr1 arr2 presorted = Raise ValueError
  end.
Proof.
  intro Hsorted. destruct arr1 as [a1| | |], arr2 as [a2| | |]; try reflexivity.
  destruct (Nat.eqb (length a1) 0 || Nat.eqb (length a2) 0) eqn:Elen.
  - cbn [orb]. unfold match1d. rewrite Elen. reflexivity.
  - cbn [orb]. destruct (negb (Nat.eqb (length (nodup Z.eq_dec a1)) (length a1))) eqn:Eun.
    + unfold match1d, unique_size. rewrite Elen, Eun. reflexivity.
    + apply orb_false_iff in Elen. destruct Elen as [E1 E2]. apply Nat.eqb_neq in E1, E2.
      apply match1d_returns.
      * intro Hp. apply (Hsorted a1 eq_refl Hp).
      * destruct a1; [cbn in E1; lia|discriminate].
      * destruct a2; [cbn in E2; lia|discriminate].
      * apply unique_size_NoDup. apply negb_false_iff, Nat.eqb_eq in Eun. exact Eun.
Qed.

(** The pairs that [match1d] returns match: [sub1] and [sub2] have one
    length, every [sub1[i]] is an index of [arr1], every [sub2[i]] an index
    of [arr2], [arr1[sub1[i]] == arr2[sub2[i]]], and [sub2] is strictly
    increasing.  This holds whatever the order of [arr1]. *)
Theorem match1d_pairs_match (a1 a2 : list Z) (presorted : bool) (sub1 sub2 : list nat) :
  match1d (IntArray a1) (IntArray a2) presorted = Ok (sub1, sub2) ->
  length sub1 = length sub2
  /\ StronglySorted lt sub2
  /\ forall i, (i < length sub2)%nat ->
       exists v, nth_error a1 (nth i sub1 0%nat) = Some v
                 /\ nth_error a2 (nth i sub2 0%nat) = Some v.
Proof.
  intro Hm. apply match1d_Ok_inv in Hm. cbv zeta in Hm.
  destruct Hm as (_ & _ & _ & Hin & Hsub2 & Hsub1).
  set (p := fun s => if presorted then s else nth s (np_argsort_int a1) 0%nat) in *.
  set (s1 := if (zmax a1 <? zmax a2)%Z then _ else _) in *.
  split; [rewrite Hsub1; apply length_map|].
  split; [rewrite Hsub2; apply take_mask_seq_sorted|].
  intros i Hi. set (j := nth i sub2 0%nat).
  assert (Hj : In j sub2) by (apply nth_In; exact Hi).
  rewrite Hsub2 in Hj. apply flatnonzero_in in Hj.
  assert (Hlt : (j < length (zipWith Z.eqb (map (fun s => nth (p s) a1 0%Z) s1) a2))%nat).
  { destruct (Nat.lt_ge_cases j
                (length (zipWith Z.eqb (map (fun s => nth (p s) a1 0%Z) s1) a2)))
      as [Hl|Hge]; [exact Hl|]. rewrite nth_overflow in Hj by exact Hge. discriminate. }
  rewrite length_zipWith, length_map in Hlt.
  rewrite (nth_zipWith Z.eqb 0%Z 0%Z) in Hj by (rewrite ?length_map; lia).
  apply Z.eqb_eq in Hj.
  rewrite (nth_indep _ 0%Z (nth (p 0%nat) a1 0%Z)) in Hj by (rewrite length_map; lia).
  rewrite (map_nth (fun s => nth (p s) a1 0%Z)) in Hj.
  exists (nth j a2 0%Z). split.
  - rewrite Hsub1.
    rewrite (nth_indep _ 0%nat (p (nth 0%nat s1 0%nat))) by (rewrite length_map; exact Hi).
    rewrite (map_nth (fun j => p (nth j s1 0%nat))). fold j. rewrite <- Hj.
    apply nth_error_nth'. rewrite Forall_forall in Hin. apply Hin. apply nth_In. lia.
  - apply nth_error_nth'. lia.
Qed.

(** [match1d] finds every match: each index of [arr2] whose value
    occurs in [arr1] is in [sub2] (with [presorted], when [arr1] is sorted
    as promised). *)
Theorem match1d_finds_all (a1 a2 : list Z) (presorted : bool) (sub1 sub2 : list nat) :
  (presorted = true -> StronglySorted Z.le a1) ->
  match1d (IntArray a1) (IntArray a2) presorted = Ok (sub1, sub2) ->
  forall j, (j < length a2)%nat -> In (nth j a2 0%Z) a1 -> In j sub2.
Proof.
  intros Hsorted Hm j Hj Hin. apply match1d_Ok_inv in Hm. cbv zeta in Hm.
  destruct Hm as (Hne & _ & _ & _ & Hsub2 & _).
  set (p := fun s => if presorted then s else nth s (np_argsort_int a1) 0%nat) in *.
  set (sorted1 := if presorted then a1 else _) in *.
  assert (Hs : StronglySorted Z.le sorted1 /\ Permutation sorted1 a1
               /\ forall s, (s < length a1)%nat -> nth (p s) a1 0%Z = nth s sorted1 0%Z).
  { subst sorted1 p. destruct presorted.
    - split; [auto|]. split; [apply Permutation_refl|reflexivity].
    - split; [apply argsort_int_sorted|]. split; [apply sorted_view_perm|].
      intros s Hlt.
      rewrite (@nth_indep _ (map (fun i => nth i a1 0%Z) (np_argsort_int a1)) s 0%Z
                          (nth 0%nat a1 0%Z))
        by (rewrite length_map, argsort_int_length; exact Hlt).
      rewrite (map_nth (fun i => nth i a1 0%Z)). reflexivity. }
  destruct Hs as (Hs & Hp & Hview).
  destruct (search_found _ Hs Hp Hin) as [Hfound Hlt].
  set (v := nth j a2 0%Z) in *.
  rewrite Hsub2. apply flatnonzero_in.
  set (s1 := if (zmax a1 <? zmax a2)%Z then _ else _).
  assert (Hlen : length s1 = length a2)
    by (subst s1; destruct (zmax a1 <? zmax a2)%Z; rewrite ?length_map; reflexivity).
  assert (Hs1 : nth j s1 0%nat = np_searchsorted sorted1 v).
  { subst s1. destruct (zmax a1 <? zmax a2)%Z.
    - rewrite map_map.
      rewrite (nth_indep _ 0%nat
                 ((fun x => if Nat.eqb (np_searchsorted sorted1 x) (length a1)
                            then (length a1 - 1)%nat else np_searchsorted sorted1 x) 0%Z))
        by (rewrite length_map; exact Hj).
      rewrite (map_nth (fun x => if Nat.eqb (np_searchsorted sorted1 x) (length a1)
                                 then (length a1 - 1)%nat else np_searchsorted sorted1 x)).
      fold v. destruct (Nat.eqb_spec (np_searchsorted sorted1 v) (length a1)); [lia|].
      reflexivity.
    - rewrite (nth_indep _ 0%nat (np_searchsorted sorted1 0%Z))
        by (rewrite length_map; exact Hj).
      apply (map_nth (np_searchsorted sorted1)). }
  rewrite (nth_zipWith Z.eqb 0%Z 0%Z) by (rewrite ?length_map; lia).
  rewrite (nth_indep _ 0%Z (nth (p 0%nat) a1 0%Z)) by (rewrite length_map; lia).
  rewrite (map_nth (fun s => nth (p s) a1 0%Z)). rewrite Hs1, (Hview _ Hlt).
  apply Z.eqb_eq. apply nth_error_nth. exact Hfound.
Qed.

End MatchTheorems.

Section MatchRuns.

Import InsertionSort.

Lemma match1d_value_errors_witness :
  exists sub1 sub2,
    match1d (IntArray [5; 1; 3]%Z) (IntArray [3; 7; 1; 3]%Z) false = Ok (sub1, sub2).
Proof.
  apply (@match1d_value_errors insertion insertion_laws
           (IntArray [5; 1; 3]%Z) (IntArray [3; 7; 1; 3]%Z) false).
  intros a1 _ Hp. discriminate Hp.
Defined.

Lemma match1d_pairs_match_witness :
  length [2; 1; 2]%nat = length [0; 2; 3]%nat
  /\ StronglySorted lt [0; 2; 3]%nat
  /\ forall i, (i < length [0; 2; 3]%nat)%nat ->
       exists v, nth_error [5; 1; 3]%Z (nth i [2; 1; 2]%nat 0%nat) = Some v
                 /\ nth_error [3; 7; 1; 3]%Z (nth i [0; 2; 3]%nat 0%nat) = Some v.
Proof.
  apply (@match1d_pairs_match insertion [5; 1; 3]%Z [3; 7; 1; 3]%Z false).
  vm_compute. reflexivity.
Defined.

Lemma match1d_finds_all_witness :
  match1d (IntArray [1; 3; 5]%Z) (IntArray [3; 7; 1; 3]%Z) true
  = Ok ([1; 0; 1]%nat, [0; 2; 3]%nat)
  /\ forall j, (j < length [3; 7; 1; 3]%Z)%nat ->
               In (nth j [3; 7; 1; 3]%Z 0%Z) [1; 3; 5]%Z -> In j [0; 2; 3]%nat.
Proof.
  split; [vm_compute; reflexivity|].
  apply (@match1d_finds_all insertion insertion_laws [1; 3; 5]%Z [3; 7; 1; 3]%Z true
           [1; 0; 1]%nat [0; 2; 3]%nat).
  - intros _. repeat constructor; lia.
  - vm_compute. reflexivity.
Defined.

End MatchRuns.

(** ** The choice of the components to merge and to split *)

(** A value that is NaN or above zero. *)
Lemma fltb_trans (a b c : fl) : fltb a b = true -> fltb b c = true -> fltb a c = true.
Proof.
  destruct a as [p|s|], b as [q|t|], c as [r|u|]; cbn [fltb]; try discriminate;
    try (destruct s); try (destruct t); try (destruct u); cbn; try discriminate;
    try reflexivity.
  rewrite !Qltb_lt. intros. lra.
Qed.

(** [argmax] returns the place it started from, or a later place whose
    value is NaN or above the value it started from. *)
Lemma argmax_from_spec : forall (l : vec) (best_i : nat) (best : fl) (i : nat),
  let r := argmax_from best_i best i l in
  r = best_i
  \/ ((i <= r < i + length l)%nat
      /\ (is_nan (nth (r - i) l f0) = true \/ fltb best (nth (r - i) l f0) = true)).
Proof.
  induction l as [|x l IH]; intros best_i best i; cbn [argmax_from]; [left; reflexivity|].
  destruct (negb (is_nan best) && (is_nan x || fltb best x)) eqn:E.
  - apply andb_prop in E. destruct E as [Hb Hx]. apply orb_prop in Hx.
    destruct (IH i x (S i)) as [Hr|[Hr Hv]]; right.
    + cbv zeta in Hr. rewrite Hr. split; [cbn [length]; lia|].
      rewrite Nat.sub_diag. cbn [nth]. destruct Hx; auto.
    + cbv zeta in Hr, Hv. split; [cbn [length]; lia|].
      replace (argmax_from i x (S i) l - i)%nat
        with (S (argmax_from i x (S i) l - S i)) by lia.
      cbn [nth]. destruct Hv as [Hv|Hv]; [left; exact Hv|].
      destruct Hx as [Hx|Hx].
      * destruct x; cbn in Hx, Hv; discriminate.
      * right. exact (fltb_trans _ _ _ Hx Hv).
  - destruct (IH best_i best (S i)) as [Hr|[Hr Hv]]; [left; exact Hr|right].
    cbv zeta in Hr, Hv. split; [cbn [length]; lia|].
    replace (argmax_from best_i best (S i) l - i)%nat
      with (S (argmax_from best_i best (S i) l - S i)) by lia.
    cbn [nth]. exact Hv.
Qed.

(** On an array that begins with zero, [argmax] returns 0 or the place of
    a value that is not zero; the place is inside the array. *)
Lemma np_argmax_zero_first (l : vec) (r : nat) :
  np_argmax (f0 :: l) = Ok r ->
  (r < length (f0 :: l))%nat /\ (r = 0%nat \/ nth r (f0 :: l) f0 <> f0).
Proof.
  cbn [np_argmax]. intro Hr. apply Ok_inj in Hr.
  pose proof (argmax_from_spec l 0 f0 1) as Hs. cbv zeta in Hs. rewrite Hr in Hs.
  destruct Hs as [->|[Hlt Hv]]; [split; [cbn [length]; lia|left; reflexivity]|].
  split; [cbn [length]; lia|]. right.
  destruct r as [|r]; [lia|]. cbn [nth]. replace (S r - 1)%nat with r in Hv by lia.
  intro E. rewrite E in Hv. destruct Hv as [Hv|Hv]; cbn in Hv; discriminate.
Qed.

Lemma length_concat_uniform {A} (n : nat) : forall (rows : list (list A)),
  Forall (fun r => length r = n) rows -> length (concat rows) = (length rows * n)%nat.
Proof.
  induction 1 as [|r rows Hr _ IH]; cbn [concat length]; [reflexivity|].
  rewrite length_app, IH, Hr. reflexivity.
Qed.

Lemma nth_concat_uniform {A} (d : A) (n : nat) : forall (rows : list (list A)) j k,
  Forall (fun r => length r = n) rows -> (j < length rows)%nat -> (k < n)%nat ->
  nth (j * n + k) (concat rows) d = nth k (nth j rows []) d.
Proof.
  induction rows as [|r rows IH]; intros j k Hall Hj Hk; [cbn in Hj; lia|].
  inversion Hall as [|r' rows' Hr Hrows]; subst. cbn [concat].
  destruct j as [|j]; cbn [nth].
  - cbn [Nat.mul Nat.add]. apply app_nth1. lia.
  - rewrite app_nth2 by (cbn [Nat.mul]; lia).
    replace (S j * length r + k - length r)%nat with (j * length r + k)%nat
      by (cbn [Nat.mul]; lia).
    apply IH; [exact Hrows|cbn in Hj; lia|exact Hk].
Qed.

Lemma mem_false_In (k : nat) (l : list nat) : mem k l = false -> ~ In k l.
Proof.
  unfold mem. intros Hm Hin. assert (Ht : existsb (Nat.eqb k) l = true).
  { apply existsb_exists. exists k. split; [exact Hin|apply Nat.eqb_refl]. }
  congruence.
Qed.

Lemma mem_true_In (k : nat) (l : list nat) : mem k l = true -> In k l.
Proof.
  unfold mem. intro Hm. apply existsb_exists in Hm. destruct Hm as (x & Hx & E).
  apply Nat.eqb_eq in E. subst x. exact Hx.
Qed.

Lemma NoDup_nth_neq {A} (d : A) (l : list A) (i j : nat) :
  NoDup l -> (i < length l)%nat -> (j < length l)%nat -> i <> j -> nth i l d <> nth j l d.
Proof.
  intros Hn Hi Hj Hij E. apply Hij. apply (proj1 (NoDup_nth l d) Hn); assumption.
Qed.

Lemma NoDup_firstn {A} (n : nat) (l : list A) : NoDup l -> NoDup (firstn n l).
Proof.
  intro Hn. rewrite <- (firstn_skipn n l) in Hn. apply NoDup_app_remove_r in Hn. exact Hn.
Qed.

Lemma NoDup_skipn {A} (n : nat) (l : list A) : NoDup l -> NoDup (skipn n l).
Proof.
  intro Hn. rewrite <- (firstn_skipn n l) in Hn. apply NoDup_app_remove_l in Hn. exact Hn.
Qed.

Lemma In_firstn {A} (n : nat) (l : list A) (x : A) : In x (firstn n l) -> In x l.
Proof.
  intro Hx. rewrite <- (firstn_skipn n l). apply in_or_app. left. exact Hx.
Qed.

Lemma In_skipn {A} (n : nat) (l : list A) (x : A) : In x (skipn n l) -> In x l.
Proof.
  intro Hx. rewrite <- (firstn_skipn n l). apply in_or_app. right. exact Hx.
Qed.

Section FindSNMProps.

Context {np : NumPy} {Srt : Sorting} {L : SortingLaws Srt}.

Lemma argsort_NoDup (v : vec) : NoDup (np_argsort v).
Proof.
  apply (Permutation_NoDup (Permutation_sym (argsort_perm v))). apply seq_NoDup.
Qed.

Lemma argsort_range (v : vec) (i : nat) : In i (np_argsort v) -> (i < length v)%nat.
Proof.
  intro Hi. apply (Permutation_in _ (argsort_perm v)) in Hi. apply in_seq in Hi. lia.
Qed.

(** The matrix [JM] is square, and zero on and below its diagonal. *)
Lemma JM_shape (U : list nbh) (log_q : list vec) (n : nat) (JM : list vec) :
  mapM (fun k => mapM (fun j => if (k <? j)%nat then JM_entry U log_q k j else Ok f0)
                      (seq 0 n)) (seq 0 n) = Ok JM ->
  length JM = n
  /\ Forall (fun r => length r = n) JM
  /\ forall j k, (j < n)%nat -> (k <= j)%nat -> nth k (nth j JM []) f0 = f0.
Proof.
  intro HJ. pose proof (mapM_Ok_length _ _ HJ) as Hlen. rewrite length_seq in Hlen.
  assert (Hrow : forall j, (j < n)%nat ->
            mapM (fun k => if (j <? k)%nat then JM_entry U log_q j k else Ok f0) (seq 0 n)
            = Ok (nth j JM [])).
  { intros j Hj. pose proof (@mapM_Ok_nth _ _ _ 0%nat [] _ _ j HJ) as Hn.
    rewrite length_seq, seq_nth in Hn by exact Hj. apply Hn. exact Hj. }
  split; [exact Hlen|]. split.
  - apply Forall_forall. intros r Hr. apply (In_nth _ _ []) in Hr.
    destruct Hr as (j & Hj & <-). rewrite Hlen in Hj.
    pose proof (mapM_Ok_length _ _ (Hrow j Hj)) as Hl. rewrite length_seq in Hl. exact Hl.
  - intros j k Hj Hk.
    pose proof (@mapM_Ok_nth _ _ _ 0%nat f0 _ _ k (Hrow j Hj)) as Hn.
    rewrite length_seq, seq_nth in Hn by lia. specialize (Hn ltac:(lia)).
    cbn [Nat.add] in Hn. destruct (Nat.ltb_spec j k); [lia|].
    apply Ok_inj in Hn. symmetry. exact Hn.
Qed.

(** The pair of largest overlap lies above the diagonal, unless it is
    [(0, 0)]. *)
Lemma merge_pair_above (U : list nbh) (log_q : list vec) (n : nat) (JM : list vec)
      (flat : nat) :
  mapM (fun k => mapM (fun j => if (k <? j)%nat then JM_entry U log_q k j else Ok f0)
                      (seq 0 n)) (seq 0 n) = Ok JM ->
  np_argmax (concat JM) = Ok flat ->
  (flat / n < n)%nat /\ (flat mod n < n)%nat
  /\ (Nat.eqb (flat / n) 0 && Nat.eqb (flat mod n) 0 = false -> (flat / n < flat mod n)%nat).
Proof.
  intros HJ Hflat. destruct (JM_shape _ _ _ HJ) as (Hlen & Hrows & Hzero).
  pose proof (length_concat_uniform Hrows) as Hcl. unfold vec in *. rewrite Hlen in Hcl.
  destruct n as [|n].
  { destruct JM; [|discriminate]. cbn in Hflat. discriminate. }
  assert (Hhead : nth 0 (concat JM) f0 = f0).
  { rewrite <- (Hzero 0%nat 0%nat) at 2 by lia.
    apply (nth_concat_uniform f0 (j := 0) (k := 0) Hrows); lia. }
  destruct (concat JM) as [|x l] eqn:Hc; [cbn in Hcl; lia|].
  cbn [nth] in Hhead. subst x.
  apply np_argmax_zero_first in Hflat. destruct Hflat as [Hlt Hv]. rewrite Hcl in Hlt.
  assert (Hj : (flat / S n < S n)%nat) by (apply Nat.Div0.div_lt_upper_bound; lia).
  assert (Hk : (flat mod S n < S n)%nat) by (apply Nat.mod_upper_bound; lia).
  split; [exact Hj|]. split; [exact Hk|]. intro Hne.
  destruct Hv as [->|Hv].
  { rewrite Nat.Div0.div_0_l, Nat.Div0.mod_0_l in Hne. discriminate. }
  destruct (Nat.lt_ge_cases (flat / S n) (flat mod S n)) as [Hab|Hba]; [exact Hab|].
  exfalso. apply Hv. rewrite <- Hc.
  rewrite (Nat.div_mod_eq flat (S n)) at 1. rewrite (Nat.mul_comm (S n)).
  rewrite (nth_concat_uniform f0 Hrows) by lia. apply Hzero; lia.
Qed.

(** [_findSNMComponents] returns three different components of the
    mixture: the two to merge and, outside of the pair, the one to
    split. *)
Theorem findSNM_three_components (gmm : GMM) (U : list nbh) (log_p : list vec)
        (log_S : vec) (N : nat) (altered : list nat) (cleanup : bool) :
  _findSNMComponents gmm U log_p log_S N = Ok (altered, cleanup) ->
  exists a0 a1 a2,
    altered = [a0; a1; a2]
    /\ (a0 < K gmm)%nat /\ (a1 < K gmm)%nat /\ (a2 < K gmm)%nat
    /\ a0 <> a1 /\ a0 <> a2 /\ a1 <> a2
    /\ (cleanup = false -> (a0 < a1)%nat).
Proof.
  unfold _findSNMComponents. intro Hf.
  apply bind_Ok in Hf. destruct Hf as (JM & HJ & Hf).
  apply bind_Ok in Hf. destruct Hf as (flat & Hflat & Hf).
  destruct (merge_pair_above _ _ _ HJ Hflat) as (Hj0 & Hk0 & Habove).
  assert (Hmerge : exists merge_jk m0 m1,
             get merge_jk 0 = Ok m0 /\ get merge_jk 1 = Ok m1
             /\ (forall x, In x merge_jk -> x = m0 \/ x = m1)
             /\ m0 <> m1 /\ (m0 < K gmm)%nat /\ (m1 < K gmm)%nat
             /\ (cleanup = false -> (m0 < m1)%nat)
             /\ exists split_l3 s0,
                 NoDup split_l3
                 /\ (forall x, In x split_l3 -> (x < K gmm)%nat)
                 /\ get split_l3 0 = Ok s0
                 /\ (if mem s0 merge_jk then
                       s1 <- get split_l3 1 ;;
                       if negb (mem s1 merge_jk) then Ok ([m0; m1; s1], cleanup)
                       else s2 <- get split_l3 2 ;; Ok ([m0; m1; s2], cleanup)
                     else Ok ([m0; m1; s0], cleanup)) = Ok (altered, cleanup)).
  { destruct (Nat.eqb (flat / K gmm) 0 && Nat.eqb (flat mod K gmm) 0) eqn:Ec.
    - apply bind_Ok in Hf. destruct Hf as (EV & _ & Hf).
      apply bind_Ok in Hf. destruct Hf as (EV0 & _ & Hf).
      apply bind_Ok in Hf. destruct Hf as (m0 & Hm0 & Hf).
      apply bind_Ok in Hf. destruct Hf as (m1 & Hm1 & Hf).
      apply bind_Ok in Hf. destruct Hf as (s0 & Hs0 & Hf).
      set (merge_jk := firstn 2 (np_argsort (amp gmm))) in *.
      set (split_l3 := rev (skipn _ _)) in *.
      assert (Hcl : cleanup = true).
      { destruct (mem s0 merge_jk); [|apply Ok_inj in Hf; congruence].
        apply bind_Ok in Hf. destruct Hf as (s1 & _ & Hf).
        destruct (negb (mem s1 merge_jk)); [apply Ok_inj in Hf; congruence|].
        apply bind_Ok in Hf. destruct Hf as (s2 & _ & Hf). apply Ok_inj in Hf. congruence. }
      subst cleanup. exists merge_jk, m0, m1.
      pose proof (get_inv 0%nat _ _ Hm0) as [Hl0 E0].
      pose proof (get_inv 0%nat _ _ Hm1) as [Hl1 E1].
      assert (Hnd : NoDup merge_jk) by (apply NoDup_firstn, argsort_NoDup).
      assert (Hl2 : (length merge_jk <= 2)%nat) by (apply firstn_le_length).
      split; [exact Hm0|]. split; [exact Hm1|]. split.
      { intros x Hx. apply (In_nth _ _ 0%nat) in Hx. destruct Hx as (i & Hi & <-).
        destruct i as [|[|i]]; [left|right|lia]; congruence. }
      split; [rewrite E0, E1; apply NoDup_nth_neq; auto|].
      split; [rewrite E0; apply (argsort_range (amp gmm)), (In_firstn 2), nth_In; exact Hl0|].
      split; [rewrite E1; apply (argsort_range (amp gmm)), (In_firstn 2), nth_In; exact Hl1|].
      split; [intro; congruence|].
      exists split_l3, s0. split; [apply NoDup_rev, NoDup_skipn, argsort_NoDup|].
      split; [|split; [exact Hs0|exact Hf]].
      intros x Hx. apply in_rev, In_skipn in Hx. apply argsort_range in Hx.
      rewrite length_zipWith in Hx. unfold K. lia.
    - apply bind_Ok in Hf. destruct Hf as (EV & _ & Hf).
      apply bind_Ok in Hf. destruct Hf as (EV0 & _ & Hf).
      apply bind_Ok in Hf. destruct Hf as (m0 & Hm0 & Hf).
      apply bind_Ok in Hf. destruct Hf as (m1 & Hm1 & Hf).
      apply bind_Ok in Hf. destruct Hf as (s0 & Hs0 & Hf).
      set (split_l3 := rev (skipn _ _)) in *.
      cbn in Hm0, Hm1. apply Ok_inj in Hm0, Hm1. subst m0 m1.
      specialize (Habove eq_refl).
      assert (Hcl : cleanup = false).
      { destruct (mem s0 _); [|apply Ok_inj in Hf; congruence].
        apply bind_Ok in Hf. destruct Hf as (s1 & _ & Hf).
        destruct (negb (mem s1 _)); [apply Ok_inj in Hf; congruence|].
        apply bind_Ok in Hf. destruct Hf as (s2 & _ & Hf). apply Ok_inj in Hf. congruence. }
      subst cleanup.
      exists [(flat / K gmm)%nat; (flat mod K gmm)%nat], (flat / K gmm)%nat,
             (flat mod K gmm)%nat.
      split; [reflexivity|]. split; [reflexivity|]. split.
      { intros x [<-|[<-|[]]]; auto. }
      split; [lia|]. split; [exact Hj0|]. split; [exact Hk0|]. split; [intro; exact Habove|].
      exists split_l3, s0. split; [apply NoDup_rev, NoDup_skipn, argsort_NoDup|].
      split; [|split; [exact Hs0|exact Hf]].
      intros x Hx. apply in_rev, In_skipn in Hx. apply argsort_range in Hx.
      rewrite length_zipWith in Hx. unfold K. lia. }
  clear Hf.
  destruct Hmerge as (merge_jk & m0 & m1 & Hm0 & Hm1 & Hin & Hne & Hlt0 & Hlt1 & Hord
                      & split_l3 & s0 & Hnd & Hrange & Hs0 & Hf).
  pose proof (get_inv 0%nat _ _ Hs0) as [Hl0 E0].
  assert (Hr0 : (s0 < K gmm)%nat) by (apply Hrange; rewrite E0; apply nth_In; exact Hl0).
  destruct (mem s0 merge_jk) eqn:Em0.
  - apply bind_Ok in Hf. destruct Hf as (s1 & Hs1 & Hf).
    pose proof (get_inv 0%nat _ _ Hs1) as [Hl1 E1].
    assert (Hr1 : (s1 < K gmm)%nat) by (apply Hrange; rewrite E1; apply nth_In; exact Hl1).
    assert (H01 : s0 <> s1) by (rewrite E0, E1; apply NoDup_nth_neq; auto).
    destruct (mem s1 merge_jk) eqn:Em1; cbn [negb] in Hf.
    + apply bind_Ok in Hf. destruct Hf as (s2 & Hs2 & Hf). apply Ok_inj in Hf.
      injection Hf as <-.
      pose proof (get_inv 0%nat _ _ Hs2) as [Hl2 E2].
      assert (Hr2 : (s2 < K gmm)%nat)
        by (apply Hrange; rewrite E2; apply nth_In; exact Hl2).
      assert (H02 : s0 <> s2) by (rewrite E0, E2; apply NoDup_nth_neq; auto).
      assert (H12 : s1 <> s2) by (rewrite E1, E2; apply NoDup_nth_neq; auto).
      apply mem_true_In, Hin in Em0. apply mem_true_In, Hin in Em1.
      exists m0, m1, s2. repeat split; auto; try lia;
        destruct Em0, Em1; congruence.
    + apply Ok_inj in Hf. injection Hf as <-.
      apply mem_false_In in Em1.
      assert (Hi0 : In m0 merge_jk).
      { pose proof (get_inv 0%nat _ _ Hm0) as [Hl E]. rewrite E. apply nth_In. exact Hl. }
      assert (Hi1 : In m1 merge_jk).
      { pose proof (get_inv 0%nat _ _ Hm1) as [Hl E]. rewrite E. apply nth_In. exact Hl. }
      exists m0, m1, s1. repeat split; auto; congruence.
  - apply Ok_inj in Hf. injection Hf as <-.
    apply mem_false_In in Em0.
    assert (Hi0 : In m0 merge_jk).
    { pose proof (get_inv 0%nat _ _ Hm0) as [Hl E]. rewrite E. apply nth_In. exact Hl. }
    assert (Hi1 : In m1 merge_jk).
    { pose proof (get_inv 0%nat _ _ Hm1) as [Hl E]. rewrite E. apply nth_In. exact Hl. }
    exists m0, m1, s0. repeat split; auto; congruence.
Qed.

End FindSNMProps.

Section FindSNMErrors.

Context {np : NumPy} {Srt : Sorting}.

Lemma match1d_unusable (u v : nbh) (presorted : bool) :
  index_array u && index_array v = false ->
  match1d (to_array u) (to_array v) presorted = Raise ValueError.
Proof.
  destruct u as [|[|x l]|m], v as [|[|y l']|m']; cbn [index_array andb];
    try discriminate; intros _; reflexivity.
Qed.

(** On two or more components [_findSNMComponents] begins with the
    overlap of the first two: an error of [match1d] on them is its own. *)
Lemma findSNM_first_pair (gmm : GMM) (U : list nbh) (log_p : list vec)
      (log_S : vec) (N : nat) (e : exn) :
  (2 <= K gmm)%nat ->
  match1d (to_array (at_ All U 0)) (to_array (at_ All U 1)) true = Raise e ->
  _findSNMComponents gmm U log_p log_S N = Raise e.
Proof.
  intros HK Hu. unfold _findSNMComponents.
  destruct (K gmm) as [|[|n]] eqn:EK; [lia|lia|].
  cbn [seq mapM]. cbn [Nat.ltb Nat.leb bind].
  unfold JM_entry at 1. rewrite Hu. reflexivity.
Qed.

(** On log-densities that fit the neighborhoods, [_findSNMComponents]
    raises ValueError on a mixture of two or more components when the
    neighborhood of the first or of the second component is None, a
    boolean mask or an empty index array: [match1d], which it calls on
    that pair first, does not accept them. *)
Theorem findSNM_needs_index_arrays (gmm : GMM) (U : list nbh) (log_p : list vec)
        (log_S : vec) (N : nat) :
  (2 <= K gmm)%nat ->
  (forall k, (k < K gmm)%nat -> fits (length log_S) (at_ All U k) (at_ [] log_p k)) ->
  index_array (at_ All U 0) && index_array (at_ All U 1) = false ->
  _findSNMComponents gmm U log_p log_S N = Raise ValueError.
Proof.
  intros HK _ Hu. apply findSNM_first_pair; [exact HK|].
  apply match1d_unusable. exact Hu.
Qed.

End FindSNMErrors.

(** ** The neighborhoods that an EM run leaves *)

Lemma map_snd_combine {A B} : forall (l : list A) (m : list B),
  (length m <= length l)%nat -> map snd (combine l m) = m.
Proof.
  induction l as [|a l IH]; intros [|b m] Hl; cbn in *; try reflexivity; try lia.
  f_equal. apply IH. lia.
Qed.

Lemma map_const_repeat {A B} (c : B) (l : list A) :
  map (fun _ => c) l = repeat c (length l).
Proof.
  induction l as [|a l IH]; cbn [map length repeat]; [reflexivity|]. rewrite IH.
  reflexivity.
Qed.

Lemma mapM_Ok_rel {A B C} (f : A -> result B) (g : B -> C) (h : A -> C) :
  (forall a b, f a = Ok b -> g b = h a) ->
  forall l r, mapM f l = Ok r -> map g r = map h l.
Proof.
  intros Hf. induction l as [|a l IH]; intros r Hr; cbn [mapM] in Hr.
  - apply Ok_inj in Hr. subst r. reflexivity.
  - apply bind_Ok in Hr. destruct Hr as (b & Hb & Hr).
    apply bind_Ok in Hr. destruct Hr as (bs & Hbs & Hr). apply Ok_inj in Hr. subst r.
    cbn [map]. rewrite (Hf a b Hb), (IH bs Hbs). reflexivity.
Qed.

Section EstepNeighborhoods.

Context {np : NumPy}.

Lemma Esum_no_cutoff k U_k gmm data cov lp U' T' :
  _Esum k U_k gmm data cov None = Ok (lp, U', T') -> U' = U_k.
Proof.
  unfold _Esum. intro He. apply bind_Ok in He. destruct He as ([T chi2] & _ & He).
  destruct (linalg_slogdet (at_ [] (covar gmm) k)) as [sign logdet].
  apply Ok_inj in He. congruence.
Qed.

(** Without a background and without a cutoff the E-step leaves the
    neighborhoods as they are. *)
Lemma Estep_keeps_U gmm b data cov log_L b' :
  length (U b) = K gmm ->
  _Estep gmm b data cov None None = Ok (log_L, b') -> U b' = U b.
Proof.
  intros Hlen He. unfold _Estep in He.
  apply bind_Ok in He. destruct He as (res & Hres & He).
  destruct (accumulate res _ _) as [Ssum H']. apply Ok_inj in He.
  apply (f_equal snd) in He. cbn [snd] in He. rewrite <- He. cbn [U].
  unfold Esum_all in Hres.
  assert (Hmap : map (fun r : vec * nbh * cov_arg => snd (fst r)) res
                 = map snd (combine (seq 0 (K gmm)) (U b))).
  { eapply mapM_Ok_rel; [|exact Hres].
    intros [k u] [[lp u'] T'] Hk. cbn [fst snd] in *. apply (Esum_no_cutoff _ _ _ _ _ Hk). }
  rewrite Hmap. apply map_snd_combine. rewrite length_seq. lia.
Qed.

(** With a background the E-step gives every component the mask [H] for
    its neighborhood. *)
Lemma Estep_background_U gmm b data cov bg cutoff log_L b' :
  length (U b) = K gmm ->
  _Estep gmm b data cov (Some bg) cutoff = Ok (log_L, b') ->
  U b' = repeat (Mask (H b')) (K gmm).
Proof.
  intros Hlen He. unfold _Estep in He.
  apply bind_Ok in He. destruct He as (res & Hres & He).
  apply Ok_inj in He. apply (f_equal snd) in He. cbn [snd] in He. rewrite <- He.
  cbn [U H]. apply mapM_Ok_length in Hres.
  rewrite length_combine, length_seq, set_idx_length, Hlen, Nat.min_id in Hres.
  rewrite <- Hres. apply map_const_repeat.
Qed.

End EstepNeighborhoods.

Section EstablishedByStep.

Context {np : NumPy}.
Variable X : Type.
Variable step : GMM -> buffers -> X -> nat -> option fl ->
                result (fl * nat * nat * GMM * buffers * X).
Variables (gmm0 : GMM) (cutoff : option fl) (tol : fl).
Variables In_ Out_ : buffers -> X -> Prop.

Hypothesis step_K : forall gmm b x N2 c log_L N N2' gmm' b' x',
  step gmm b x N2 c = Ok (log_L, N, N2', gmm', b', x') -> K gmm' = K gmm.
Hypothesis step_Out : forall gmm b x N2 log_L N N2' gmm' b' x',
  K gmm = K gmm0 -> In_ b x ->
  step gmm b x N2 (cutoff_nd_of gmm0 cutoff) = Ok (log_L, N, N2', gmm', b', x') ->
  Out_ b' x'.
Hypothesis Out_In : forall b x, Out_ b x -> In_ b x.
Hypothesis Out_reset : forall b x moved,
  Out_ b x -> Out_ (set_U b (reset_moved cutoff (U b) moved)) x.

Lemma EM_iteration_established (st : em_state X) f :
  In_ (e_buf st) (e_x st) -> K (e_gmm st) = K gmm0 -> K (e_gmm_ st) = K gmm0 ->
  EM_iteration step cutoff (cutoff_nd_of gmm0 cutoff) (shift_cutoff_of gmm0 cutoff) tol st
  = Ok f ->
  Out_ (e_buf (after f)) (e_x (after f))
  /\ K (e_gmm (after f)) = K gmm0 /\ K (e_gmm_ (after f)) = K gmm0.
Proof.
  intros HI Hg Hb Hf. pose proof Hf as Hi. apply EM_iteration_inv in Hi.
  destruct Hi as (l1 & N1 & N21 & g1 & b1 & x1 & sh & Hstep & Hsh).
  rewrite (@EM_iteration_cases _ _ step cutoff _ (shift_cutoff_of gmm0 cutoff) tol st
             _ _ _ _ _ _ _ Hstep Hsh) in Hf.
  pose proof (step_Out Hg HI Hstep) as HO. apply step_K in Hstep.
  destruct ((0 <? e_it st)%nat && fltb l1 (e_log_L st + tol)%fl);
    [destruct (fltb l1 (e_log_L st - tol)%fl);
     [|destruct (Nat.eqb (length (moved_of sh (shift_cutoff_of gmm0 cutoff))) 0)]|];
    apply Ok_inj in Hf; subst f; cbn [after e_buf e_x e_gmm e_gmm_];
    unfold assign, K in *; cbn [amp]; repeat split; auto; try congruence.
Qed.

(** What every step establishes of the buffers holds of the buffers
    that the driver returns: the loop runs at least one iteration. *)
Lemma EM_with_established buf x st' :
  In_ buf x -> EM_with step gmm0 buf x cutoff tol = Ok st' ->
  Out_ (e_buf st') (e_x st') /\ K (e_gmm st') = K gmm0.
Proof.
  unfold EM_with. intros HI Hrun.
  destruct (EM_loop step (maxiter_of gmm0) (maxiter_of gmm0) cutoff
                    (cutoff_nd_of gmm0 cutoff) (shift_cutoff_of gmm0 cutoff) tol
                    (EM_init gmm0 buf x)) as [r|] eqn:Hloop; [|discriminate]. subst r.
  assert (Hm : exists fuel, maxiter_of gmm0 = S fuel).
  { unfold maxiter_of. exists (Nat.max 100 (K gmm0) - 1)%nat. lia. }
  destruct Hm as [fuel Hm]. rewrite Hm in Hloop at 1. cbn [EM_loop] in Hloop.
  replace (e_it (EM_init gmm0 buf x) <? maxiter_of gmm0)%nat with true in Hloop
    by (symmetry; apply Nat.ltb_lt; cbn [EM_init e_it]; lia).
  destruct (EM_iteration step cutoff (cutoff_nd_of gmm0 cutoff)
                         (shift_cutoff_of gmm0 cutoff) tol (EM_init gmm0 buf x))
    as [f|e] eqn:Hit; [|discriminate].
  apply EM_iteration_established in Hit; [|exact HI|reflexivity|reflexivity].
  destruct f as [s1|s1]; cbn [after] in Hit.
  - assert (Hfin : Out_ (e_buf st') (e_x st')
                   /\ K (e_gmm st') = K gmm0 /\ K (e_gmm_ st') = K gmm0).
    { refine (@EM_loop_invariant _ _ step
                (fun st => Out_ (e_buf st) (e_x st)
                           /\ K (e_gmm st) = K gmm0 /\ K (e_gmm_ st) = K gmm0)
                _ _ _ _ _ _ _ _ _ _ Hloop).
      - intros st f (HO & Hg & Hb) Hf.
        apply (@EM_iteration_established st f (Out_In HO) Hg Hb Hf).
      - exact Hit. }
    destruct Hfin as (HO & HK & _). split; assumption.
  - injection Hloop as <-. destruct Hit as (HO & HK & _).
    split; assumption.
Qed.

End EstablishedByStep.

Section FitNeighborhoods.

Context {np : NumPy} {R : RandomState}.

(** The buffers that [_EMstep] leaves are those of its E-step on the
    data. *)
Lemma EMstep_Estep data cov sel_callback covar_callback w altered gmm b x N2 cutoff
      log_L N N2' gmm' b' x' :
  _EMstep data cov sel_callback covar_callback w altered gmm b x N2 cutoff
  = Ok (log_L, N, N2', gmm', b', x') ->
  _Estep gmm b data cov (fst x) cutoff = Ok (log_L, b').
Proof.
  unfold _EMstep. destruct x as [background st]. intro Hs.
  apply bind_Ok in Hs. destruct Hs as ([l b1] & HE & Hs).
  apply bind_Ok in Hs. destruct Hs as (s & _ & Hs).
  apply bind_Ok in Hs. destruct Hs as ([[i n2] st1] & _ & Hs).
  destruct (_update gmm s (length (H b1)) i n2 w altered background) as [g bg] eqn:Eu.
  apply Ok_inj in Hs. cbn [fst]. rewrite HE. congruence.
Qed.

Lemma update_keeps_background gmm s Hsize i N2 w altered (background : option Background) :
  (background = None -> snd (_update gmm s Hsize i N2 w altered background) = None)
  /\ (background <> None -> snd (_update gmm s Hsize i N2 w altered background) <> None).
Proof.
  unfold _update. cbn [snd]. split.
  - intros ->. reflexivity.
  - intro Hb. destruct background as [bg|]; [|congruence].
    destruct (adjust_amp bg); [|discriminate].
    destruct (sB s); [|discriminate]. destruct i as [[s2 h2]|]; [|discriminate].
    destruct (sB s2); discriminate.
Qed.

Lemma EMstep_keeps_background data cov sel_callback covar_callback w altered gmm b x N2
      cutoff log_L N N2' gmm' b' x' :
  _EMstep data cov sel_callback covar_callback w altered gmm b x N2 cutoff
  = Ok (log_L, N, N2', gmm', b', x') ->
  (fst x = None -> fst x' = None) /\ (fst x <> None -> fst x' <> None).
Proof.
  intro Hs. apply EMstep_update in Hs. destruct Hs as (s & Hsize & i & st & Hu & _).
  apply (f_equal snd) in Hu. cbn [snd] in Hu. rewrite Hu.
  apply update_keeps_background.
Qed.

(** Without a background and without a cutoff, every neighborhood is
    still None when the EM run returns. *)
Lemma EM_leaves_None data cov sel_callback covar_callback w altered gmm st tol e :
  _EM data cov sel_callback covar_callback w altered gmm (new_buffers gmm data)
      (None, st) None tol = Ok e ->
  U (e_buf e) = map (fun _ => All) (seq 0 (K gmm))
  /\ fst (e_x e) = None /\ K (e_gmm e) = K gmm.
Proof.
  unfold _EM. intro He.
  apply (@EM_with_established _ _ _ gmm None tol
           (fun b x => fst x = None /\ U b = map (fun _ => All) (seq 0 (K gmm)))
           (fun b x => fst x = None /\ U b = map (fun _ => All) (seq 0 (K gmm)))) in He.
  - destruct He as [[Hx HU] HK]. auto.
  - intros until x'. apply EMstep_K.
  - intros g b x N2 log_L N N2' g' b' x' HK [Hx HU] Hs. cbn [cutoff_nd_of] in Hs.
    pose proof (EMstep_Estep _ _ _ _ _ _ _ _ _ _ _ Hs) as HE. rewrite Hx in HE.
    apply EMstep_keeps_background in Hs. split; [apply Hs; exact Hx|].
    assert (Hlen : length (U b) = K g)
      by (rewrite HU, length_map, length_seq; congruence).
    rewrite (@Estep_keeps_U _ _ _ _ _ _ _ Hlen HE). exact HU.
  - auto.
  - intros b x moved H0. exact H0.
  - split; reflexivity.
Qed.

(** With a background (and so without a cutoff), every neighborhood is
    one boolean mask when the EM run returns. *)
Lemma EM_leaves_masks data cov sel_callback covar_callback w altered gmm st bg tol e :
  _EM data cov sel_callback covar_callback w altered gmm (new_buffers gmm data)
      (Some bg, st) None tol = Ok e ->
  (exists m, U (e_buf e) = repeat (Mask m) (K gmm))
  /\ fst (e_x e) <> None /\ K (e_gmm e) = K gmm.
Proof.
  unfold _EM. intro He.
  apply (@EM_with_established _ _ _ gmm None tol
           (fun b x => fst x <> None /\ length (U b) = K gmm)
           (fun b x => fst x <> None /\ exists m, U b = repeat (Mask m) (K gmm))) in He.
  - destruct He as [[Hx HU] HK]. auto.
  - intros until x'. apply EMstep_K.
  - intros g b x N2 log_L N N2' g' b' x' HK [Hx HU] Hs. cbn [cutoff_nd_of] in Hs.
    pose proof (EMstep_Estep _ _ _ _ _ _ _ _ _ _ _ Hs) as HE.
    apply EMstep_keeps_background in Hs. split; [apply Hs; exact Hx|].
    destruct (fst x) as [bg'|]; [|congruence].
    assert (Hlen : length (U b) = K g) by congruence.
    exists (H b'). rewrite <- HK. apply (@Estep_background_U _ _ _ _ _ _ _ _ _ Hlen HE).
  - intros b x [Hx [m Hm]]. split; [exact Hx|]. rewrite Hm. apply repeat_length.
  - intros b x moved H0. exact H0.
  - split; [discriminate|]. cbn [new_buffers U]. rewrite length_map, length_seq.
    reflexivity.
Qed.

End FitNeighborhoods.

Lemma mapM_copy_masks (m : list bool) (n : nat) :
  mapM copy_nbh (repeat (Mask m) n) = Ok (repeat (Mask m) n).
Proof.
  induction n as [|n IH]; cbn [repeat mapM copy_nbh bind]; [reflexivity|].
  rewrite IH. reflexivity.
Qed.

Section FitSplitMerge.

Context {np : NumPy} {R : RandomState}.

(** [fit] with split-and-merge on three or more components, without a
    cutoff and without a background, raises AttributeError as soon as its
    first EM run has returned: the neighborhoods are all None then, and the
    backup of the neighborhoods calls [copy] on them. *)
Theorem fit_split_n_merge_needs_cutoff (findSNM : findSNM_t) (gmm : GMM)
        (data : list vec) (cov : cov_arg) (a : fit_args) (st : rng_t) (e : em_state extra) :
  a_init_callback a = None -> a_cutoff a = None -> a_background a = None ->
  (cov = NoCov \/ a_sel_callback a = None \/ a_covar_callback a <> None) ->
  (0 < a_split_n_merge a)%nat -> (3 <= K gmm)%nat ->
  _EM data cov (a_sel_callback a) (a_covar_callback a) (a_w a) None gmm
      (new_buffers gmm data) (None, st) None (a_tol a) = Ok e ->
  fit findSNM gmm data cov a st = Raise AttributeError.
Proof.
  intros Hinit Hcut Hbg Hcons Hsnm HK He. unfold fit. rewrite Hinit. cbn [bind].
  match goal with
  | |- (if ?c then _ else _) = _ => assert (Hc : c = false)
  end.
  { destruct Hcons as [->|[->|Hcb]]; [reflexivity|rewrite andb_false_r; reflexivity|].
    destruct (a_covar_callback a); [apply andb_false_r|congruence]. }
  rewrite Hc, Hbg, Hcut, He. cbn [bind].
  destruct (EM_leaves_None _ _ _ _ _ _ _ _ _ He) as (HU & _ & HKe).
  destruct (a_split_n_merge a) as [|n]; [lia|]. cbn [snm_loop].
  replace (3 <=? K (e_gmm e))%nat with true by (symmetry; apply Nat.leb_le; lia).
  rewrite HU. destruct (K gmm) as [|k]; [lia|]. reflexivity.
Qed.

End FitSplitMerge.

Section FitSplitMergeBackground.

Context {np : NumPy} {R : RandomState} {Srt : Sorting}.

(** [fit] with split-and-merge on three or more components and with a
    background raises ValueError as soon as its first EM run has returned:
    the neighborhoods are boolean masks then, which [match1d] in
    [_findSNMComponents] does not accept. *)
Theorem fit_split_n_merge_with_background (gmm : GMM) (data : list vec) (cov : cov_arg)
        (a : fit_args) (st : rng_t) (bg : Background) (e : em_state extra) :
  a_init_callback a = None -> a_background a = Some bg ->
  (cov = NoCov \/ a_sel_callback a = None \/ a_covar_callback a <> None) ->
  (0 < a_split_n_merge a)%nat -> (3 <= K gmm)%nat ->
  _EM data cov (a_sel_callback a) (a_covar_callback a) (a_w a) None gmm
      (new_buffers gmm data) (Some bg, st) None (a_tol a) = Ok e ->
  fit _findSNMComponents gmm data cov a st = Raise ValueError.
Proof.
  intros Hinit Hbg Hcons Hsnm HK He. unfold fit. rewrite Hinit. cbn [bind].
  match goal with
  | |- (if ?c then _ else _) = _ => assert (Hc : c = false)
  end.
  { destruct Hcons as [->|[->|Hcb]]; [reflexivity|rewrite andb_false_r; reflexivity|].
    destruct (a_covar_callback a); [apply andb_false_r|congruence]. }
  rewrite Hc, Hbg.
  destruct (EM_leaves_masks _ _ _ _ _ _ _ _ _ _ He) as ([m HU] & _ & HKe).
  assert (HU0 : index_array (at_ All (U (e_buf e)) 0) = false).
  { rewrite HU. destruct (K gmm) as [|k]; [lia|]. reflexivity. }
  destruct (a_split_n_merge a) as [|n]; [lia|].
  destruct (a_cutoff a) as [c|]; cbv beta iota zeta; rewrite He; cbn [bind snm_loop];
    (replace (3 <=? K (e_gmm e))%nat with true by (symmetry; apply Nat.leb_le; lia));
    rewrite HU at 1; rewrite mapM_copy_masks; cbn [bind];
    (rewrite (@findSNM_first_pair _ _ _ _ _ _ _ ValueError);
       [reflexivity|lia|]);
    apply match1d_unusable; rewrite HU0; reflexivity.
Qed.

End FitSplitMergeBackground.

Section SplitMergeRuns.

Import Rational Inputs MoreInputs InsertionSort.

Lemma findSNM_three_components_witness :
  exists a0 a1 a2,
    [0; 1; 2]%nat = [a0; a1; a2]
    /\ (a0 < K plane_gmm)%nat /\ (a1 < K plane_gmm)%nat /\ (a2 < K plane_gmm)%nat
    /\ a0 <> a1 /\ a0 <> a2 /\ a1 <> a2
    /\ (false = false -> (a0 < a1)%nat).
Proof.
  apply (@findSNM_three_components numpy insertion insertion_laws plane_gmm plane_U
           plane_log_p (zeros 4) 4%nat [0; 1; 2]%nat false).
  vm_compute. reflexivity.
Defined.

Lemma findSNM_needs_index_arrays_witness :
  _findSNMComponents plane_gmm [Idx [0; 1]; Idx []; Idx [3]]%nat [[f0; f0]; []; [f0]]
                     (zeros 4) 4 = Raise ValueError.
Proof.
  apply (@findSNM_needs_index_arrays numpy insertion plane_gmm).
  - vm_compute. lia.
  - intros [|[|[|k]]] Hk; [| | |vm_compute in Hk; lia]; vm_compute;
      (split; [repeat constructor|reflexivity]).
  - reflexivity.
Defined.

Lemma fit_split_n_merge_needs_cutoff_witness :
  fit no_choice triple_gmm fitted_data NoCov snm_plain 0%nat = Raise AttributeError.
Proof.
  destruct (@_EM numpy counter fitted_data NoCov None None f0 None triple_gmm
                (new_buffers triple_gmm fitted_data) (@None Background, 0%nat) None tol3)
    as [e|x] eqn:He; [|vm_compute in He; discriminate].
  apply (@fit_split_n_merge_needs_cutoff numpy counter no_choice triple_gmm fitted_data
           NoCov snm_plain 0%nat e).
  - reflexivity.
  - reflexivity.
  - reflexivity.
  - left. reflexivity.
  - vm_compute. lia.
  - vm_compute. lia.
  - exact He.
Defined.

Lemma fit_split_n_merge_with_background_witness :
  fit _findSNMComponents triple_gmm fitted_data NoCov snm_bg 0%nat = Raise ValueError.
Proof.
  destruct (@_EM numpy counter fitted_data NoCov None None f0 None triple_gmm
                (new_buffers triple_gmm fitted_data) (Some flat_background, 0%nat) None tol3)
    as [e|x] eqn:He; [|vm_compute in He; discriminate].
  apply (@fit_split_n_merge_with_background numpy counter insertion triple_gmm fitted_data
           NoCov snm_bg 0%nat flat_background e).
  - reflexivity.
  - reflexivity.
  - left. reflexivity.
  - vm_compute. lia.
  - vm_compute. lia.
  - exact He.
Defined.

End SplitMergeRuns.

(** ** Stacking *)

Lemma fmul_nonneg2 (w a : fl) : nonneg w -> nonneg a -> nonneg (w * a)%fl.
Proof.
  destruct w as [p| |], a as [q| |]; cbn [nonneg]; try contradiction.
  intros Hp Hq. unfold fmul. cbn [nonneg]. rewrite Qred_correct.
  apply Qmult_le_0_compat; assumption.
Qed.

Lemma fmul_above_zero2 (w a : fl) : above_zero w -> above_zero a -> above_zero (w * a)%fl.
Proof.
  destruct w as [p| |], a as [q| |]; cbn [above_zero]; try contradiction.
  intros Hp Hq. unfold fmul. cbn [above_zero]. rewrite Qred_correct.
  apply Qmult_lt_0_compat; assumption.
Qed.

Lemma skipn_get {A} (l : list A) : forall m a,
  get l m = Ok a -> skipn m l = a :: skipn (S m) l.
Proof.
  induction l as [|x l IH]; intros [|m] a Ha; cbn in Ha; try discriminate.
  - apply Ok_inj in Ha. subst x. reflexivity.
  - cbn [skipn]. apply IH. exact Ha.
Qed.

(** The mixtures paired with their weights, amplitudes weighted. *)
Lemma stack_from_inv (D0 : nat) (weights : vec) : forall gmms m acc r,
  stack_from D0 gmms weights m acc = Ok r ->
  amp r = amp acc ++ concat (map (fun p => map (fmul (fst p)) (amp (snd p)))
                                 (combine (skipn m weights) gmms))
  /\ mean r = mean acc ++ concat (map mean gmms)
  /\ covar r = covar acc ++ concat (map covar gmms)
  /\ (D acc = D0 -> D r = D0)
  /\ Forall (fun g => D g = D0) gmms
  /\ (length gmms <= length (skipn m weights))%nat.
Proof.
  induction gmms as [|g gmms IH]; intros m acc r Hr; cbn [stack_from] in Hr.
  - apply Ok_inj in Hr. subst r. cbn [map concat length]. rewrite combine_nil.
    cbn [map concat]. rewrite !app_nil_r.
    repeat split; auto. lia.
  - apply bind_Ok in Hr. destruct Hr as (w & Hw & Hr).
    destruct (Nat.eqb_spec (D g) D0) as [HD|HD]; cbn [negb] in Hr; [|discriminate].
    destruct (IH _ _ _ Hr) as (Ha & Hm & Hc & Hd & Hall & Hlen). cbn [amp mean covar D] in *.
    rewrite (skipn_get _ _ Hw). cbn [combine map concat fst snd length].
    rewrite Ha, Hm, Hc, <- !app_assoc.
    repeat split; auto. apply le_n_S. exact Hlen.
Qed.

Lemma stack_from_ok (D0 : nat) (weights : vec) : forall gmms m acc,
  Forall (fun g => D g = D0) gmms -> (m + length gmms <= length weights)%nat ->
  exists r, stack_from D0 gmms weights m acc = Ok r.
Proof.
  induction gmms as [|g gmms IH]; intros m acc Hall Hlen; cbn [stack_from]; [eauto|].
  inversion Hall as [|g' gmms' Hg Hgs]; subst. cbn [length] in Hlen.
  rewrite (get_lt NaN weights (i := m)) by lia. cbn [bind].
  rewrite Nat.eqb_refl. cbn [negb]. apply IH; [exact Hgs|lia].
Qed.

Lemma stack_from_short (D0 : nat) (weights : vec) : forall gmms m acc,
  Forall (fun g => D g = D0) gmms ->
  (m <= length weights)%nat -> (length weights < m + length gmms)%nat ->
  stack_from D0 gmms weights m acc = Raise IndexError.
Proof.
  induction gmms as [|g gmms IH]; intros m acc Hall Hle Hlen; cbn [stack_from].
  - cbn [length] in Hlen. lia.
  - inversion Hall as [|g' gmms' Hg Hgs]; subst. cbn [length] in Hlen.
    destruct (Nat.lt_ge_cases m (length weights)) as [Hm|Hm].
    + rewrite (get_lt NaN weights Hm). cbn [bind]. rewrite Nat.eqb_refl. cbn [negb].
      apply IH; [exact Hgs|lia|lia].
    + rewrite (get_out weights Hm). reflexivity.
Qed.

Lemma stack_from_mismatch (D0 : nat) (weights : vec) : forall gmms m acc,
  (m + length gmms <= length weights)%nat -> Exists (fun g => D g <> D0) gmms ->
  stack_from D0 gmms weights m acc = Raise ValueError.
Proof.
  induction gmms as [|g gmms IH]; intros m acc Hlen Hex; cbn [stack_from].
  - inversion Hex.
  - cbn [length] in Hlen. rewrite (get_lt NaN weights (i := m)) by lia. cbn [bind].
    destruct (Nat.eqb_spec (D g) D0) as [HD|HD]; cbn [negb]; [|reflexivity].
    apply IH; [lia|]. inversion Hex; subst; [congruence|assumption].
Qed.

Lemma length_weighted (weights : vec) : forall gmms,
  (length gmms <= length weights)%nat ->
  length (concat (map (fun p : fl * GMM => map (fmul (fst p)) (amp (snd p)))
                      (combine weights gmms)))
  = list_sum (map K gmms).
Proof.
  induction weights as [|w ws IH]; intros [|g gmms] Hlen; cbn in Hlen; try reflexivity;
    try lia.
  cbn [combine map concat fst snd]. rewrite length_app, length_map, list_sum_cons.
  rewrite IH by lia. reflexivity.
Qed.

(** The amplitudes that [stack] returns. *)
Lemma stack_amp (gmms : list GMM) (weights : vec) (g : GMM) :
  stack gmms weights = Ok g ->
  let raw := concat (map (fun p : fl * GMM => map (fmul (fst p)) (amp (snd p)))
                         (combine weights gmms)) in
  amp g = vdivs raw (fsum raw).
Proof.
  unfold stack. intro Hs. apply bind_Ok in Hs. destruct Hs as (g0 & Hg0 & Hs).
  apply bind_Ok in Hs. destruct Hs as (r & Hr & Hs). apply Ok_inj in Hs. subst g.
  apply stack_from_inv in Hr. cbn [amp mean covar D skipn app] in Hr.
  destruct Hr as (Ha & _). cbv zeta. cbn [amp]. rewrite <- Ha. reflexivity.
Qed.

(** [stack] returns a mixture that holds the components of all the
    mixtures in their order: the number of components is the sum, means
    and covariances are concatenated, and the amplitudes are those of the
    mixtures times their weights, divided by their sum. *)
Theorem stack_concatenates (gmms : list GMM) (weights : vec) (g : GMM) :
  stack gmms weights = Ok g ->
  let raw := concat (map (fun p : fl * GMM => map (fmul (fst p)) (amp (snd p)))
                         (combine weights gmms)) in
  amp g = vdivs raw (fsum raw)
  /\ K g = list_sum (map K gmms)
  /\ mean g = concat (map mean gmms)
  /\ covar g = concat (map covar gmms)
  /\ Forall (fun m => D m = D g) gmms.
Proof.
  unfold stack. intro Hs. apply bind_Ok in Hs. destruct Hs as (g0 & Hg0 & Hs).
  apply bind_Ok in Hs. destruct Hs as (r & Hr & Hs). apply Ok_inj in Hs. subst g.
  apply stack_from_inv in Hr. cbn [amp mean covar D skipn app] in Hr.
  destruct Hr as (Ha & Hm & Hc & Hd & Hall & Hlen). cbv zeta. cbn [amp mean covar D].
  rewrite <- Ha. split; [reflexivity|]. split.
  - unfold K. cbn [amp]. unfold vdivs. rewrite length_map, Ha. apply length_weighted.
    exact Hlen.
  - split; [exact Hm|]. split; [exact Hc|]. rewrite (Hd eq_refl). exact Hall.
Qed.

(** [stack] returns for a list of mixtures that is not empty, of one
    dimension, with a weight for each; it raises IndexError on an empty
    list and where a weight is missing, and ValueError on mixtures of
    different dimensions that all have a weight. *)
Theorem stack_errors (gmms : list GMM) (weights : vec) :
  match gmms with
  | [] => stack gmms weights = Raise IndexError
  | g0 :: _ =>
      if forallb (fun g => Nat.eqb (D g) (D g0)) gmms then
        if (length gmms <=? length weights)%nat
        then exists g, stack gmms weights = Ok g
        else stack gmms weights = Raise IndexError
      else (length gmms <= length weights)%nat -> stack gmms weights = Raise ValueError
  end.
Proof.
  destruct gmms as [|g0 gmms]; [reflexivity|]. unfold stack. cbn [get nth_error bind].
  destruct (forallb (fun g => Nat.eqb (D g) (D g0)) (g0 :: gmms)) eqn:Eall.
  - assert (Hall : Forall (fun g => D g = D g0) (g0 :: gmms)).
    { rewrite forallb_forall in Eall. apply Forall_forall. intros g Hg.
      apply Nat.eqb_eq. apply Eall. exact Hg. }
    destruct (Nat.leb_spec (length (g0 :: gmms)) (length weights)) as [Hle|Hgt].
    + destruct (@stack_from_ok (D g0) weights (g0 :: gmms) 0 (mkGMM [] [] [] (D g0)) Hall)
        as [r Hr]; [cbn [Nat.add]; exact Hle|].
      rewrite Hr. cbn [bind]. eauto.
    + rewrite (@stack_from_short (D g0) weights (g0 :: gmms) 0 _ Hall);
        [reflexivity|lia|]. cbn [Nat.add]. exact Hgt.
  - intro Hle. rewrite stack_from_mismatch; [reflexivity|cbn [Nat.add]; exact Hle|].
    apply Exists_exists.
    assert (Hn : ~ forall g, In g (g0 :: gmms) -> Nat.eqb (D g) (D g0) = true).
    { intro Hf. apply forallb_forall in Hf. congruence. }
    clear Eall Hle. induction (g0 :: gmms) as [|x l IH].
    + exfalso. apply Hn. intros g [].
    + destruct (Nat.eqb_spec (D x) (D g0)) as [E|E].
      * destruct IH as (y & Hy & HD).
        { intro Hf. apply Hn. intros g [<-|Hg]; [apply Nat.eqb_eq; exact E|auto]. }
        exists y. split; [right; exact Hy|exact HD].
      * exists x. split; [left; reflexivity|exact E].
Qed.

(** With weights and amplitudes that are finite and not negative, one
    mixture having a positive weight and a positive amplitude, the
    amplitudes of the stacked mixture are finite, not negative and sum
    to 1. *)
Theorem stack_normalised (gmms : list GMM) (weights : vec) (g : GMM) :
  stack gmms weights = Ok g ->
  Forall (fun p => nonneg (fst p) /\ Forall nonneg (amp (snd p))) (combine weights gmms) ->
  Exists (fun p => above_zero (fst p) /\ Exists above_zero (amp (snd p)))
         (combine weights gmms) ->
  Forall nonneg (amp g) /\ feq (fsum (amp g)) f1.
Proof.
  intros Hs Hn Hp. apply stack_amp in Hs. cbv zeta in Hs.
  rewrite Hs. apply renormalised.
  - apply Forall_concat. apply Forall_map. eapply Forall_impl; [|exact Hn].
    intros [w m] [Hw Hm]. cbn [fst snd] in *. apply Forall_map.
    eapply Forall_impl; [|exact Hm]. intros a Hx. apply fmul_nonneg2; assumption.
  - apply Exists_concat. apply Exists_map. eapply Exists_impl; [|exact Hp].
    intros [w m] [Hw Hm]. cbn [fst snd] in *. apply Exists_map.
    eapply Exists_impl; [|exact Hm]. intros a Hx. apply fmul_above_zero2; assumption.
Qed.

(** ** The chunks of components *)

Lemma chunks_from_cover (left chunksize : nat) : forall len s n,
  concat (map (fun c => seq (fst c) (snd c - fst c))
              (chunks_from left chunksize (seq s len) n))
  = seq n (len * chunksize + (Nat.min (s + len) left - Nat.min s left))
  /\ length (chunks_from left chunksize (seq s len) n) = len
  /\ ((0 < chunksize)%nat ->
      Forall (fun c => (fst c < snd c)%nat) (chunks_from left chunksize (seq s len) n)).
Proof.
  induction len as [|len IH]; intros s n; cbn [seq chunks_from map concat length].
  - replace (0 * chunksize + (Nat.min (s + 0) left - Nat.min s left))%nat with 0%nat by lia.
    repeat split. constructor.
  - destruct (IH (S s) (if (s <? left)%nat then S (n + chunksize) else (n + chunksize)%nat))
      as (Hc & Hl & Hf).
    cbn [fst snd]. rewrite Hc, Hl. split; [|split; [reflexivity|]].
    + destruct (Nat.ltb_spec s left) as [Hlt|Hge].
      * replace (S (n + chunksize) - n)%nat with (S chunksize) by lia.
        replace (S (n + chunksize)) with (n + S chunksize)%nat by lia.
        rewrite <- seq_app. f_equal. lia.
      * replace (n + chunksize - n)%nat with chunksize by lia.
        rewrite <- seq_app. f_equal. lia.
    + intro Hpos. constructor; [|apply Hf; exact Hpos].
      cbn [fst snd]. destruct (s <? left)%nat; lia.
Qed.

(** What is left over after [n_chunks] chunks of [chunksize] components
    is less than a component per chunk. *)
Lemma mp_chunksize_left (cpu_count k : nat) :
  (1 <= cpu_count)%nat ->
  let chunksize := Nat.max 1 (k / cpu_count) in
  let n_chunks := Nat.min cpu_count (k / chunksize) in
  (n_chunks * chunksize <= k)%nat /\ (k - n_chunks * chunksize <= n_chunks)%nat
  /\ (0 < chunksize)%nat /\ (n_chunks <= cpu_count)%nat.
Proof.
  intros Hc chunksize n_chunks.
  assert (Hcs : (0 < chunksize)%nat) by (subst chunksize; lia).
  assert (Hle : (n_chunks * chunksize <= k)%nat).
  { pose proof (Nat.Div0.mul_div_le k chunksize) as Hm.
    assert (n_chunks <= k / chunksize)%nat by (subst n_chunks; lia). nia. }
  split; [exact Hle|]. split; [|split; [exact Hcs|subst n_chunks; lia]].
  destruct (Nat.eq_dec (k / cpu_count) 0) as [Hz|Hnz].
  - assert (Hk : (k < cpu_count)%nat) by (apply Nat.div_small_iff in Hz; lia).
    assert (E : chunksize = 1%nat) by (subst chunksize; lia).
    subst n_chunks. rewrite E, Nat.div_1_r. lia.
  - assert (E : chunksize = (k / cpu_count)%nat) by (subst chunksize; lia).
    pose proof (Nat.Div0.mul_div_le k cpu_count) as Hm.
    assert (Hn : (cpu_count <= k / chunksize)%nat).
    { apply Nat.div_le_lower_bound; [lia|]. rewrite E. lia. }
    assert (En : n_chunks = cpu_count) by (subst n_chunks; lia).
    rewrite En, E. pose proof (Nat.div_mod_eq k cpu_count) as Hdm.
    pose proof (Nat.mod_upper_bound k cpu_count ltac:(lia)). nia.
Qed.

(** [_get_chunks] cuts the components [0 .. K-1] into consecutive
    chunks, none of them empty and no more of them than there are CPUs:
    [logL] visits every component exactly once. *)
Theorem get_chunks_partition (cpu_count : nat) (gmm : GMM) :
  (1 <= cpu_count)%nat ->
  let chunks := _get_chunks cpu_count gmm in
  concat (map (fun c => seq (fst c) (snd c - fst c)) chunks) = seq 0 (K gmm)
  /\ (length chunks <= cpu_count)%nat
  /\ Forall (fun c => (fst c < snd c)%nat) chunks.
Proof.
  intros Hc. unfold _get_chunks, _mp_chunksize. cbv zeta.
  destruct (mp_chunksize_left (K gmm) Hc) as (Hle & Hleft & Hcs & Hn). cbv zeta in *.
  set (chunksize := Nat.max 1 (K gmm / cpu_count)) in *.
  set (n_chunks := Nat.min cpu_count (K gmm / chunksize)) in *.
  destruct (chunks_from_cover (K gmm - n_chunks * chunksize) chunksize n_chunks 0 0)
    as (Hcover & Hlen & Hne).
  split; [|split; [rewrite Hlen; exact Hn|apply Hne; exact Hcs]].
  rewrite Hcover. f_equal. lia.
Qed.

(** ** The samples in the fit *)

Lemma map_snd_combine_map {A B} (f : A -> B) (l : list A) :
  map snd (combine l (map f l)) = map f l.
Proof. apply map_snd_combine. rewrite length_map. lia. Qed.

Lemma set_mask_true : forall (H0 m : list bool) i,
  nth i (set_mask H0 m (map (fun _ => true) (take_mask H0 m))) false
  = (nth i m false && (i <? length H0)%nat) || nth i H0 false.
Proof.
  induction H0 as [|h H0 IH]; intros m i.
  - cbn [set_mask]. destruct i; cbn; rewrite ?andb_false_r; reflexivity.
  - destruct m as [|b m].
    + cbn [set_mask]. destruct i; reflexivity.
    + cbn [set_mask take_mask]. destruct b; cbn [map].
      * destruct i as [|i]; cbn [nth length]; [reflexivity|]. rewrite IH. reflexivity.
      * destruct i as [|i]; cbn [nth length]; [reflexivity|]. rewrite IH. reflexivity.
Qed.

Section EstepMembership.

Context {np : NumPy}.

(** Marking a neighborhood in [H]. *)
Lemma put_nbh_true (H0 : list bool) (u : nbh) (i : nat) :
  (i < length H0)%nat ->
  nth i (put_nbh H0 u (map (fun _ => true) (sel_nbh false H0 u))) false = true
  <-> nth i H0 false = true \/ In i (candidates u (length H0)).
Proof.
  intro Hi. destruct u as [|l|m]; cbn [put_nbh sel_nbh candidates].
  - rewrite map_snd_combine_map.
    rewrite (nth_indep _ false ((fun _ : bool => true) false)) by (rewrite length_map; lia).
    rewrite (map_nth (fun _ : bool => true) H0 false). split; [|intros _; reflexivity].
    intros _. right. apply in_seq. lia.
  - unfold take_idx. rewrite map_map. fold (at_ false (set_idx H0 l (map (fun _ => true) l)) i).
    destruct (in_dec Nat.eq_dec i l) as [Hin|Hnin].
    + rewrite (at_set_idx_in false (fun _ => true) l H0 Hin Hi). tauto.
    + rewrite at_set_idx_notin by exact Hnin. unfold at_. tauto.
  - rewrite set_mask_true. rewrite flatnonzero_in.
    replace (i <? length H0)%nat with true by (symmetry; apply Nat.ltb_lt; exact Hi).
    rewrite andb_true_r. rewrite orb_true_iff. tauto.
Qed.

Lemma set_mask_length {A} : forall (l : list A) (m : list bool) (vs : list A),
  length (set_mask l m vs) = length l.
Proof.
  induction l as [|a l IH]; intros [|b m] vs; cbn [set_mask length]; try reflexivity.
  destruct b; [destruct vs as [|v vs]|]; cbn [length]; rewrite ?IH; reflexivity.
Qed.

Lemma put_nbh_marks_length (H0 : list bool) (u : nbh) :
  length (put_nbh H0 u (map (fun _ => true) (sel_nbh false H0 u))) = length H0.
Proof.
  destruct u as [|l|m]; cbn [put_nbh sel_nbh].
  - rewrite map_snd_combine_map. apply length_map.
  - apply set_idx_length.
  - apply set_mask_length.
Qed.

Lemma accumulate_H : forall (res : list (vec * nbh * cov_arg)) (S0 : vec) (H0 : list bool),
  length (snd (accumulate res S0 H0)) = length H0
  /\ forall i, (i < length H0)%nat ->
       (nth i (snd (accumulate res S0 H0)) false = true
        <-> nth i H0 false = true
            \/ exists r, In r res /\ In i (candidates (snd (fst r)) (length H0))).
Proof.
  induction res as [|[[lp u] T] res IH]; intros S0 H0; cbn [accumulate snd].
  - split; [reflexivity|]. intros i Hi. split; [auto|]. intros [Ht|(r & [] & _)]. exact Ht.
  - match goal with
    | |- context [accumulate res ?S1 ?H1] => destruct (IH S1 H1) as [Hlen Hiff]
    end.
    rewrite put_nbh_marks_length in Hlen, Hiff. split; [exact Hlen|].
    intros i Hi. rewrite (Hiff i Hi), (put_nbh_true _ _ Hi). split.
    + intros [[Ht|Hin]|(r & Hr & Hin)]; auto.
      * right. exists (lp, u, T). split; [left; reflexivity|exact Hin].
      * right. exists r. split; [right; exact Hr|exact Hin].
    + intros [Ht|(r & [<-|Hr] & Hin)]; auto.
      right. exists r. auto.
Qed.

(** Without a background, the E-step marks in [H] exactly the samples
    that lie in the neighborhood of some component: the samples that the
    count [N] of the M-step counts. *)
Theorem Estep_marks_neighborhoods (gmm : GMM) (b : buffers) (data : list vec)
        (cov : cov_arg) (cutoff : option fl) (log_L : fl) (b' : buffers) :
  _Estep gmm b data cov None cutoff = Ok (log_L, b') ->
  length (H b') = length (H b)
  /\ forall i, (i < length (H b))%nat ->
       (nth i (H b') false = true
        <-> exists u, In u (U b') /\ In i (candidates u (length (H b)))).
Proof.
  unfold _Estep. intro He. apply bind_Ok in He. destruct He as (res & _ & He).
  destruct (accumulate res (map (fun _ => f0) (log_S b)) (map (fun _ => false) (H b)))
    as [Ssum H'] eqn:Ea.
  apply Ok_inj in He. apply (f_equal snd) in He. cbn [snd] in He. rewrite <- He.
  cbn [H U].
  destruct (accumulate_H res (map (fun _ => f0) (log_S b)) (map (fun _ => false) (H b)))
    as [Hlen Hiff].
  rewrite Ea in Hlen, Hiff. cbn [snd] in Hlen, Hiff. rewrite length_map in Hlen, Hiff.
  split; [exact Hlen|]. intros i Hi. rewrite (Hiff i Hi). split.
  - intros [Hf|(r & Hr & Hin)].
    + change (nth i (map (fun _ : bool => false) (H b)) ((fun _ : bool => false) false)
              = true) in Hf.
      rewrite (map_nth (fun _ : bool => false) (H b) false) in Hf. discriminate.
    + exists (snd (fst r)). split; [|exact Hin].
      apply in_map_iff. exists r. split; [reflexivity|exact Hr].
  - intros (u & Hu & Hin). right. apply in_map_iff in Hu. destruct Hu as (r & <- & Hr).
    exists r. split; assumption.
Qed.

End EstepMembership.

(** ** The E-step with a background, the update of its amplitude *)

Section BackgroundProps.

Context {np : NumPy}.

(** With a background the E-step does not use the cutoff, and it gives
    every component one and the same neighborhood: the mask [H] of the
    samples that it assigns to the mixture. *)
Theorem Estep_with_background (gmm : GMM) (b : buffers) (data : list vec) (cov : cov_arg)
        (bg : Background) (cutoff : option fl) (log_L : fl) (b' : buffers) :
  length (U b) = K gmm ->
  _Estep gmm b data cov (Some bg) cutoff = Ok (log_L, b') ->
  _Estep gmm b data cov (Some bg) None = Ok (log_L, b')
  /\ U b' = repeat (Mask (H b')) (K gmm)
  /\ length (log_p b') = K gmm /\ length (T_inv b') = K gmm.
Proof.
  intros Hlen He. split; [exact He|].
  split; [apply (@Estep_background_U _ _ _ _ _ _ _ _ _ Hlen He)|].
  unfold _Estep in He. apply bind_Ok in He. destruct He as (res & Hres & He).
  apply Ok_inj in He. apply (f_equal snd) in He. cbn [snd] in He. rewrite <- He.
  cbn [log_p T_inv]. rewrite !length_map. apply mapM_Ok_length in Hres.
  rewrite length_combine, length_seq, set_idx_length, Hlen, Nat.min_id in Hres. auto.
Qed.

Lemma fltb_irrefl (a : fl) : fltb a a = false.
Proof.
  destruct a as [q|s|]; cbn [fltb]; [|destruct s; reflexivity|reflexivity].
  unfold Qltb. apply negb_false_iff. apply Qle_bool_iff. apply Qle_refl.
Qed.

Lemma py_min_capped (x m : fl) : fltb m (py_min x m) = false.
Proof.
  unfold py_min. destruct (fltb m x) eqn:E; [apply fltb_irrefl|exact E].
Qed.

(** The update never leaves the background amplitude above [amp_max];
    it changes nothing else of the background, and nothing at all when
    [adjust_amp] is not set. *)
Theorem update_background_capped (gmm : GMM) (s : stats) (Hsize : nat) (i : imputed)
        (N2 : nat) (w : fl) (altered : option (list nat)) (bg : Background) :
  exists a,
    snd (_update gmm s Hsize i N2 w altered (Some bg)) = Some (with_amp bg a)
    /\ if adjust_amp bg then fltb (amp_max bg) a = false else a = bg_amp bg.
Proof.
  unfold _update. cbn [snd]. destruct (adjust_amp bg) eqn:Ea.
  - destruct (sB s) as [B|].
    + destruct i as [[s2 h2]|].
      * destruct (sB s2) as [B2|]; eexists; (split; [reflexivity|]);
          [apply py_min_capped|destruct (amp_max bg) as [q|[|]|]; reflexivity].
      * eexists. split; [reflexivity|apply py_min_capped].
    + eexists. split; [reflexivity|].
      destruct (amp_max bg) as [q|[|]|]; reflexivity.
  - exists (bg_amp bg). split; [|reflexivity]. destruct bg; cbn in *. subst. reflexivity.
Qed.

End BackgroundProps.

(** ** Imputation *)

Section ImputeProps.

Context {np : NumPy} {R : RandomState}.

(** Every point that [_I] returns lies outside of the selection (or
    inside, without the inversion), whatever the background and the noise,
    for a callback that selects point by point; the neighborhoods it
    returns are all None; and it returns covariances exactly when it is
    given a noise callback. *)
Theorem I_outside_selection (gmm : GMM) (size : nat) (cb : sel_cb) (accept : vec -> bool)
        (covar_callback : option covar_cb) (background : option Background)
        (invert_sel : bool) (st : rng_t)
        (data2 : list vec) (covar2 : cov_arg) (U2 : list nbh) (st' : rng_t) :
  pointwise cb accept ->
  _I gmm size cb covar_callback background invert_sel st = Ok (data2, covar2, U2, st') ->
  Forall (fun x => (if invert_sel then negb (accept x) else accept x) = true) data2
  /\ U2 = repeat All (K gmm)
  /\ match covar_callback, covar2 with
     | None, c => c = NoCov
     | Some _, NoCov => False
     | Some _, _ => True
     end.
Proof.
  intros Hp Hi. unfold _I in Hi.
  apply bind_Ok in Hi. destruct Hi as ([d st1] & _ & Hi).
  apply bind_Ok in Hi. destruct Hi as ([[d2 c2] st2] & Hc & Hi). cbv beta iota in Hi.
  pose proof (Hp d2 (Some gmm) st2) as Hsel.
  destruct (cb d2 (Some gmm) st2) as [sel2 st3]. cbn [fst] in Hsel. subst sel2.
  apply Ok_inj in Hi. injection Hi as <- <- <- <-.
  split; [|split].
  - destruct invert_sel.
    + rewrite map_map, take_mask_filter. apply Forall_forall. intros x Hx.
      apply filter_In in Hx. tauto.
    + rewrite take_mask_filter. apply Forall_forall. intros x Hx.
      apply filter_In in Hx. tauto.
  - rewrite map_const_repeat, length_seq. reflexivity.
  - destruct covar_callback as [ccb|].
    + destruct (ccb d) as [|c|cs]; [discriminate| |].
      * destruct (rng_multivariate_normal _ _ _ _) as [noise sta]. apply Ok_inj in Hc.
        injection Hc as _ <- _. exact I.
      * destruct (rng_multivariate_normal _ _ _ _) as [noise sta].
        apply bind_Ok in Hc. destruct Hc as (eig & _ & Hc). apply Ok_inj in Hc.
        injection Hc as _ <- _. exact I.
    + apply Ok_inj in Hc. injection Hc as _ <- _. reflexivity.
Qed.

End ImputeProps.

(** ** The number of components *)

Section FitComponents.

Context {np : NumPy} {R : RandomState}.

Lemma EM_D data cov sel_callback covar_callback w altered gmm buf x cutoff tol e :
  _EM data cov sel_callback covar_callback w altered gmm buf x cutoff tol = Ok e ->
  D (e_gmm e) = D gmm.
Proof.
  unfold _EM, EM_with. intro He.
  destruct (EM_loop _ _ _ _ _ _ _ _) as [r|] eqn:Hloop; [|discriminate]. subst r.
  refine (@EM_loop_invariant _ _ _ (fun st => D (e_gmm st) = D gmm)
                             _ _ _ _ _ _ _ _ _ _ Hloop).
  - intros st f HD Hf. pose proof Hf as Hi. apply EM_iteration_inv in Hi.
    destruct Hi as (l1 & N1 & N21 & g1 & b1 & x1 & sh & Hstep & Hsh).
    rewrite (@EM_iteration_cases _ _ _ cutoff _ (shift_cutoff_of gmm cutoff) tol st
               _ _ _ _ _ _ _ Hstep Hsh) in Hf.
    apply EMstep_update in Hstep. destruct Hstep as (s & Hsize & i & st0 & Hu & _).
    apply (f_equal fst) in Hu. cbn [fst] in Hu.
    assert (Hg : D g1 = D gmm) by (rewrite Hu, update_D; exact HD).
    destruct ((0 <? e_it st)%nat && fltb l1 (e_log_L st + tol)%fl);
      [destruct (fltb l1 (e_log_L st - tol)%fl);
       [|destruct (Nat.eqb (length (moved_of sh (shift_cutoff_of gmm cutoff))) 0)]|];
      apply Ok_inj in Hf; subst f; cbn [after e_gmm assign D]; exact Hg.
  - reflexivity.
Qed.

Lemma update_snm_K gmm altered U N cleanup gmm' U' :
  _update_snm gmm altered U N cleanup = Ok (gmm', U') ->
  K gmm' = K gmm /\ D gmm' = D gmm.
Proof.
  unfold _update_snm. intro Hu.
  apply bind_Ok in Hu. destruct Hu as ([[mean1 covar1] U1] & _ & Hu). cbv beta iota in Hu.
  apply bind_Ok in Hu. destruct Hu as (gmm2 & Hs & Hu).
  apply bind_Ok in Hu. destruct Hu as (u2 & _ & Hu). apply Ok_inj in Hu.
  injection Hu as <- _. unfold split_snm in Hs.
  apply bind_Ok in Hs. destruct Hs as ([[u radius2] rotation] & _ & Hs). apply Ok_inj in Hs.
  subst gmm2. unfold K. cbn [amp D]. rewrite !set_at_length. auto.
Qed.

Lemma snm_loop_K findSNM data cov a cutoff : forall n gmm buf x log_L N N2 r,
  snm_loop findSNM data cov a cutoff n gmm buf x log_L N N2 = Ok r ->
  K (f_gmm r) = K gmm /\ D (f_gmm r) = D gmm.
Proof.
  induction n as [|n IH]; intros gmm buf x log_L N N2 r Hr; cbn [snm_loop] in Hr.
  - apply Ok_inj in Hr. subst r. auto.
  - destruct (3 <=? K gmm)%nat.
    2:{ apply Ok_inj in Hr. subst r. auto. }
    apply bind_Ok in Hr. destruct Hr as (U_ & _ & Hr).
    apply bind_Ok in Hr. destruct Hr as ([altered cleanup] & _ & Hr). cbv beta iota in Hr.
    apply bind_Ok in Hr. destruct Hr as ([gmm1 U1] & Hu & Hr). cbv beta iota in Hr.
    apply bind_Ok in Hr. destruct Hr as (e1 & He1 & Hr).
    apply bind_Ok in Hr. destruct Hr as (e2 & He2 & Hr).
    apply update_snm_K in Hu. destruct Hu as [HK1 HD1].
    pose proof (EM_K _ _ _ _ _ _ _ _ _ _ _ He1) as HK2.
    pose proof (EM_K _ _ _ _ _ _ _ _ _ _ _ He2) as HK3.
    pose proof (EM_D _ _ _ _ _ _ _ _ _ _ _ He1) as HD2.
    pose proof (EM_D _ _ _ _ _ _ _ _ _ _ _ He2) as HD3.
    cbv zeta in Hr. destruct (fgeb log_L (e_log_L e2)).
    + apply Ok_inj in Hr. subst r. cbn [f_gmm]. unfold assign, K. cbn [amp D].
      split; [reflexivity|congruence].
    + apply IH in Hr. destruct Hr as [HK HD]. split; congruence.
Qed.

(** [fit] returns a mixture with the number of components and the
    dimension of the mixture it was given, split-and-merge or not (when
    there is no initialisation callback to change them). *)
Theorem fit_keeps_components (findSNM : findSNM_t) (gmm : GMM) (data : list vec)
        (cov : cov_arg) (a : fit_args) (st : rng_t) (r : fitted) :
  a_init_callback a = None ->
  fit findSNM gmm data cov a st = Ok r ->
  K (f_gmm r) = K gmm /\ D (f_gmm r) = D gmm.
Proof.
  intros Hinit Hr. unfold fit in Hr. rewrite Hinit in Hr. cbn [bind] in Hr.
  destruct (_ && _ && _); [discriminate|].
  apply bind_Ok in Hr. destruct Hr as (e & He & Hr).
  pose proof (EM_K _ _ _ _ _ _ _ _ _ _ _ He) as HK.
  pose proof (EM_D _ _ _ _ _ _ _ _ _ _ _ He) as HD.
  apply snm_loop_K in Hr. destruct Hr as [HK' HD']. split; congruence.
Qed.

End FitComponents.

(** ** The amplitudes under split and merge *)

Lemma fold_fadd_finite : forall (l : vec) (a : Q),
  Forall finite l -> exists q, fold_left fadd l (Fin a) = Fin q /\ q == a + Qsum l.
Proof.
  induction l as [|x l IH]; intros a Hl.
  - exists a. split; [reflexivity|]. cbn [Qsum fold_right]. ring.
  - inversion Hl as [|x' l' Hx Hl']; subst. destruct x as [qx| |]; cbn [finite] in Hx;
      try contradiction.
    cbn [fold_left fadd]. destruct (IH (Qred (a + qx)) Hl') as (q & Hq & Eq).
    exists q. split; [exact Hq|]. rewrite Eq, Qred_correct. cbn [Qsum fold_right toQ].
    fold (Qsum l). ring.
Qed.

Lemma fsum_finite (l : vec) :
  Forall finite l -> exists q, fsum l = Fin q /\ q == Qsum l.
Proof.
  intro Hl. destruct (fold_fadd_finite 0 Hl) as (q & Hq & Eq).
  exists q. split; [exact Hq|]. rewrite Eq. ring.
Qed.

Lemma Qsum_set_at : forall (l : vec) (k : nat) (v : fl),
  (k < length l)%nat -> Qsum (set_at l k v) == Qsum l - toQ (nth k l NaN) + toQ v.
Proof.
  induction l as [|x l IH]; intros k v Hk; [cbn in Hk; lia|].
  destruct k as [|k]; cbn [set_at nth Qsum fold_right]; fold (Qsum l).
  - ring.
  - fold (Qsum (set_at l k v)). rewrite IH by (cbn in Hk; lia). ring.
Qed.

Lemma finite_set_at : forall (l : vec) (k : nat) (v : fl),
  Forall finite l -> finite v -> Forall finite (set_at l k v).
Proof.
  induction l as [|x l IH]; intros k v Hl Hv; [constructor|].
  inversion Hl as [|x' l' Hx Hl']; subst.
  destruct k as [|k]; cbn [set_at]; constructor; auto.
Qed.

Lemma finite_nth (l : vec) (k : nat) :
  Forall finite l -> (k < length l)%nat -> exists q, nth k l NaN = Fin q.
Proof.
  intros Hl Hk. rewrite Forall_forall in Hl. specialize (Hl _ (nth_In l NaN Hk)).
  destruct (nth k l NaN) as [q| |]; cbn in Hl; try contradiction. eauto.
Qed.

Section SplitMergeAmplitudes.

Context {np : NumPy} {R : RandomState}.

Lemma nth_set_at_other {A} (d : A) (l : list A) k j v :
  k <> j -> nth j (set_at l k v) d = nth j l d.
Proof. apply at_set_at_other. Qed.

Lemma nth_set_at_same {A} (d : A) (l : list A) k v :
  (k < length l)%nat -> nth k (set_at l k v) d = v.
Proof. apply at_set_at_same. Qed.

(** Split and merge keeps the sum of the amplitudes: the merged
    component gets the sum of the two amplitudes, each child half the
    amplitude of the component that is split, and no other amplitude
    changes. *)
Theorem update_snm_keeps_total (gmm : GMM) (a0 a1 a2 : nat) (U : list nbh) (N : nat)
        (cleanup : bool) (gmm' : GMM) (U' : list nbh) :
  a0 <> a1 -> a0 <> a2 -> a1 <> a2 ->
  (a0 < K gmm)%nat -> (a1 < K gmm)%nat -> (a2 < K gmm)%nat ->
  Forall finite (amp gmm) ->
  _update_snm gmm [a0; a1; a2] U N cleanup = Ok (gmm', U') ->
  Forall finite (amp gmm')
  /\ feq (fsum (amp gmm')) (fsum (amp gmm))
  /\ feq (at_ NaN (amp gmm') a0) (at_ NaN (amp gmm) a0 + at_ NaN (amp gmm) a1)%fl
  /\ forall k, k <> a0 -> k <> a1 -> k <> a2 ->
               at_ NaN (amp gmm') k = at_ NaN (amp gmm) k.
Proof.
  intros H01 H02 H12 L0 L1 L2 Hfin Hu. unfold K, at_ in *.
  assert (Hamp : amp gmm' =
                 set_at (set_at (set_at (amp gmm) a0
                                        (fsum [nth a0 (amp gmm) NaN; nth a1 (amp gmm) NaN]))
                                a1 (nth a2 (amp gmm) NaN / two)%fl)
                        a2 (nth a2 (amp gmm) NaN / two)%fl).
  { unfold _update_snm in Hu. unfold at_ in Hu. cbn [nth firstn take_idx map] in Hu.
    apply bind_Ok in Hu. destruct Hu as ([[mean1 covar1] U1] & _ & Hu). cbv beta iota in Hu.
    apply bind_Ok in Hu. destruct Hu as (gmm2 & Hs & Hu).
    apply bind_Ok in Hu. destruct Hu as (u2 & _ & Hu). apply Ok_inj in Hu.
    injection Hu as <- _. unfold split_snm in Hs. unfold at_ in Hs. cbn [nth amp] in Hs.
    apply bind_Ok in Hs. destruct Hs as ([[u radius2] rotation] & _ & Hs).
    apply Ok_inj in Hs. subst gmm2. cbn [amp]. unfold at_.
    rewrite (nth_set_at_other NaN (amp gmm) _ H02). reflexivity. }
  destruct (finite_nth Hfin L0) as [x0 E0]. destruct (finite_nth Hfin L1) as [x1 E1].
  destruct (finite_nth Hfin L2) as [x2 E2].
  rewrite E0, E1, E2 in Hamp.
  assert (Ev0 : fsum [Fin x0; Fin x1] = Fin (Qred (Qred (0 + x0) + x1))) by reflexivity.
  assert (Ev : (Fin x2 / two)%fl = Fin (Qred (x2 / 2))) by reflexivity.
  rewrite Ev0, Ev in Hamp. rewrite Hamp, E0, E1.
  set (l1 := set_at (amp gmm) a0 (Fin (Qred (Qred (0 + x0) + x1)))).
  set (l2 := set_at l1 a1 (Fin (Qred (x2 / 2)))).
  assert (F1 : Forall finite l1) by (apply finite_set_at; [exact Hfin|exact I]).
  assert (F2 : Forall finite l2) by (apply finite_set_at; [exact F1|exact I]).
  assert (F3 : Forall finite (set_at l2 a2 (Fin (Qred (x2 / 2)))))
    by (apply finite_set_at; [exact F2|exact I]).
  assert (N1 : nth a1 l1 NaN = Fin x1).
  { subst l1. rewrite nth_set_at_other by congruence. exact E1. }
  assert (N2' : nth a2 l2 NaN = Fin x2).
  { subst l2 l1. rewrite !nth_set_at_other by congruence. exact E2. }
  split; [exact F3|]. split; [|split].
  - destruct (fsum_finite F3) as (q3 & -> & Q3). destruct (fsum_finite Hfin) as (q & -> & Q).
    unfold feq. rewrite Q3, Q.
    rewrite Qsum_set_at by (subst l2 l1; rewrite !set_at_length; exact L2).
    rewrite N2'. subst l2.
    rewrite Qsum_set_at by (subst l1; rewrite !set_at_length; exact L1).
    rewrite N1. subst l1. rewrite Qsum_set_at by exact L0. rewrite E0.
    cbn [toQ]. rewrite !Qred_correct. field.
  - rewrite nth_set_at_other by congruence. subst l2.
    rewrite nth_set_at_other by congruence. subst l1.
    rewrite nth_set_at_same by exact L0. unfold fadd, feq. rewrite !Qred_correct. ring.
  - intros k K0 K1 K2. rewrite nth_set_at_other by congruence. subst l2.
    rewrite nth_set_at_other by congruence. subst l1.
    rewrite nth_set_at_other by congruence. reflexivity.
Qed.

End SplitMergeAmplitudes.

Section MoreRuns.

Import Rational Inputs MoreInputs InsertionSort.

Lemma stack_concatenates_witness :
  exists g,
    stack [unit_gmm; twin_gmm] [half; half] = Ok g
    /\ amp g = [half; quarter; quarter]
    /\ K g = list_sum (map K [unit_gmm; twin_gmm])
    /\ mean g = concat (map mean [unit_gmm; twin_gmm])
    /\ covar g = concat (map covar [unit_gmm; twin_gmm]).
Proof.
  destruct (stack [unit_gmm; twin_gmm] [half; half]) as [g|e] eqn:Hs;
    [|vm_compute in Hs; discriminate].
  exists g. split; [reflexivity|].
  destruct (@stack_concatenates [unit_gmm; twin_gmm] [half; half] g Hs)
    as (Ha & HK & Hm & Hc & _).
  split; [rewrite Ha; vm_compute; reflexivity|]. auto.
Defined.

Lemma stack_errors_witness :
  stack [unit_gmm; plane_gmm] [half; half] = Raise ValueError.
Proof.
  apply (stack_errors [unit_gmm; plane_gmm] [half; half]). vm_compute. lia.
Defined.

Lemma stack_normalised_witness :
  exists g,
    stack [unit_gmm; twin_gmm] [half; half] = Ok g
    /\ Forall nonneg (amp g) /\ feq (fsum (amp g)) f1.
Proof.
  destruct (stack [unit_gmm; twin_gmm] [half; half]) as [g|e] eqn:Hs;
    [|vm_compute in Hs; discriminate].
  exists g. split; [reflexivity|].
  apply (@stack_normalised [unit_gmm; twin_gmm] [half; half] g Hs).
  - repeat constructor; vm_compute; intro; discriminate.
  - constructor. split; [vm_compute; reflexivity|]. constructor. vm_compute. reflexivity.
Defined.

Lemma get_chunks_partition_witness :
  concat (map (fun c => seq (fst c) (snd c - fst c)) (_get_chunks 2 plane_gmm))
  = seq 0 (K plane_gmm)
  /\ (length (_get_chunks 2 plane_gmm) <= 2)%nat
  /\ Forall (fun c => (fst c < snd c)%nat) (_get_chunks 2 plane_gmm).
Proof.
  apply (@get_chunks_partition 2%nat plane_gmm). lia.
Defined.

Lemma Estep_marks_neighborhoods_witness :
  exists log_L b',
    _Estep unit_gmm (new_buffers unit_gmm far_data) far_data NoCov None (Some (Fin 9))
    = Ok (log_L, b')
    /\ U b' = [Idx [0; 1]%nat] /\ H b' = [true; true; false]
    /\ forall i, (i < 3)%nat ->
         (nth i (H b') false = true <-> exists u, In u (U b') /\ In i (candidates u 3)).
Proof.
  destruct (_Estep unit_gmm (new_buffers unit_gmm far_data) far_data NoCov None
                   (Some (Fin 9))) as [[log_L b']|e] eqn:He;
    [|vm_compute in He; discriminate].
  exists log_L, b'. split; [reflexivity|].
  destruct (@Estep_marks_neighborhoods numpy unit_gmm (new_buffers unit_gmm far_data)
              far_data NoCov (Some (Fin 9)) log_L b' He) as [_ Hiff].
  vm_compute in He. apply Ok_inj in He. injection He as _ <-.
  split; [reflexivity|]. split; [reflexivity|]. exact Hiff.
Defined.

Lemma Estep_with_background_witness :
  exists log_L b',
    _Estep triple_gmm (new_buffers triple_gmm fitted_data) fitted_data NoCov
           (Some flat_background) (Some (Fin 9)) = Ok (log_L, b')
    /\ _Estep triple_gmm (new_buffers triple_gmm fitted_data) fitted_data NoCov
              (Some flat_background) None = Ok (log_L, b')
    /\ U b' = repeat (Mask (H b')) 3.
Proof.
  destruct (_Estep triple_gmm (new_buffers triple_gmm fitted_data) fitted_data NoCov
                   (Some flat_background) (Some (Fin 9))) as [[log_L b']|e] eqn:He;
    [|vm_compute in He; discriminate].
  exists log_L, b'. split; [reflexivity|].
  destruct (@Estep_with_background numpy triple_gmm (new_buffers triple_gmm fitted_data)
              fitted_data NoCov flat_background (Some (Fin 9)) log_L b' eq_refl He)
    as (Hn & HU & _).
  split; [exact Hn|exact HU].
Defined.

Lemma I_outside_selection_witness :
  Forall (fun x => negb (below_one x) = true) [[Fin 1]; [Fin 2]]
  /\ [All] = repeat All (K unit_gmm)
  /\ NoCov = NoCov.
Proof.
  apply (@I_outside_selection numpy counter unit_gmm 3%nat select_below_one below_one
           None None true 0%nat [[Fin 1]; [Fin 2]] NoCov [All] 6%nat).
  - intros batch g st. reflexivity.
  - vm_compute. reflexivity.
Defined.

Lemma fit_keeps_components_witness :
  exists r,
    fit no_choice twin_gmm fitted_data NoCov snm_args 0%nat = Ok r
    /\ K (f_gmm r) = K twin_gmm /\ D (f_gmm r) = D twin_gmm.
Proof.
  destruct (fit no_choice twin_gmm fitted_data NoCov snm_args 0%nat) as [r|e] eqn:Hr;
    [|vm_compute in Hr; discriminate].
  exists r. split; [reflexivity|].
  apply (@fit_keeps_components numpy counter no_choice twin_gmm fitted_data NoCov snm_args
           0%nat r eq_refl Hr).
Defined.

Lemma update_snm_keeps_total_witness :
  exists gmm' U',
    _update_snm plane_gmm [0; 1; 2]%nat plane_U 4 false = Ok (gmm', U')
    /\ amp gmm' = [half; quarter; quarter]
    /\ feq (fsum (amp gmm')) (fsum (amp plane_gmm)).
Proof.
  destruct (_update_snm plane_gmm [0; 1; 2]%nat plane_U 4 false) as [[gmm' U']|e] eqn:Hu;
    [|vm_compute in Hu; discriminate].
  exists gmm', U'. split; [reflexivity|].
  destruct (@update_snm_keeps_total numpy plane_gmm 0%nat 1%nat 2%nat plane_U 4%nat false
              gmm' U') as (_ & Hsum & _); try (intro; discriminate); try exact Hu.
  - vm_compute. lia.
  - vm_compute. lia.
  - vm_compute. lia.
  - repeat constructor.
  - split; [|exact Hsum]. vm_compute in Hu. apply Ok_inj in Hu. injection Hu as <- _.
    reflexivity.
Defined.

End MoreRuns.

(** * Properties of the E-step arrays, of the driver's exits, of the
      generator and of the background's draws *)

(** ** The arrays that the E-step leaves *)

Lemma nth_combine_lt {A B} (da : A) (db : B) : forall (l : list A) (m : list B) n,
  (n < length l)%nat -> (n < length m)%nat ->
  nth n (combine l m) (da, db) = (nth n l da, nth n m db).
Proof.
  induction l as [|a l IH]; intros [|b m] [|n] Hl Hm; cbn in *; try lia; try reflexivity.
  apply IH; lia.
Qed.

Section EstepShapes.

Context {np : NumPy}.

(** [_Esum] returns one log-density for each sample of the neighborhood
    it returns, which lies in the neighborhood it was given. *)
Lemma Esum_shape k U_k gmm data cov cutoff lp U' T' :
  is_mask U_k = false -> cov_shape cov (length data) ->
  _Esum k U_k gmm data cov cutoff = Ok (lp, U', T') ->
  is_mask U' = false
  /\ length lp = length (candidates U' (length data))
  /\ incl (candidates U' (length data)) (candidates U_k (length data)).
Proof.
  intros Hm Hshape He. destruct cutoff as [c|].
  - destruct (@Esum_cutoff _ _ _ _ _ _ _ _ _ _ Hm Hshape He) as [-> Hlen]. cbn [is_mask candidates].
    split; [reflexivity|]. split; [exact Hlen|].
    intros i Hi. apply filter_In in Hi. exact (proj1 Hi).
  - pose proof (@Esum_no_cutoff _ _ _ _ _ _ _ _ _ He) as ->.
    split; [exact Hm|]. split; [|apply incl_refl].
    unfold _Esum in He. apply bind_Ok in He. destruct He as ([T chi2] & Hchi & He).
    destruct (chi2_k_spec k U_k gmm data cov Hm Hshape Hchi) as [-> _].
    destruct (linalg_slogdet (at_ [] (covar gmm) k)) as [sign logdet].
    apply Ok_inj in He. injection He as <- _. rewrite !length_map. reflexivity.
Qed.

(** Without a background, on one neighborhood per component, each None
    or an index array, the E-step leaves for each component one
    log-density per sample of its neighborhood, and a neighborhood that
    holds no sample that the one before did not hold: the E-step only
    narrows neighborhoods. *)
Theorem Estep_log_p_per_sample (gmm : GMM) (b : buffers) (data : list vec)
        (cov : cov_arg) (cutoff : option fl) (log_L : fl) (b' : buffers) :
  length (U b) = K gmm ->
  Forall (fun u => is_mask u = false) (U b) ->
  cov_shape cov (length data) ->
  _Estep gmm b data cov None cutoff = Ok (log_L, b') ->
  length (U b') = K gmm
  /\ length (log_p b') = K gmm
  /\ Forall (fun u => is_mask u = false) (U b')
  /\ forall k, (k < K gmm)%nat ->
       length (at_ [] (log_p b') k)
       = length (candidates (at_ All (U b') k) (length data))
       /\ incl (candidates (at_ All (U b') k) (length data))
               (candidates (at_ All (U b) k) (length data)).
Proof.
  intros HK HU Hshape. unfold _Estep. intro He.
  apply bind_Ok in He. destruct He as (res & Hres & He).
  destruct (accumulate res (map (fun _ => f0) (log_S b)) (map (fun _ => false) (H b)))
    as [Ssum H'] eqn:Ea.
  apply Ok_inj in He. apply (f_equal snd) in He. cbn [snd] in He. rewrite <- He.
  cbn [log_p U]. clear He Ea.
  unfold Esum_all in Hres.
  pose proof (mapM_Ok_length _ _ Hres) as Hlen.
  rewrite length_combine, length_seq in Hlen.
  pose (d0 := ((@nil fl, All, NoCov) : vec * nbh * cov_arg)).
  assert (Hk : forall k, (k < length res)%nat ->
            _Esum k (at_ All (U b) k) gmm data cov cutoff = Ok (nth k res d0)).
  { intros k Hlt.
    pose proof (@mapM_Ok_nth _ _ (fun p => _Esum (fst p) (snd p) gmm data cov cutoff)
                  (0%nat, All) d0 _ _ k Hres) as Hn.
    rewrite length_combine, length_seq in Hn. specialize (Hn ltac:(lia)).
    rewrite nth_combine_lt in Hn by (rewrite ?length_seq; lia).
    cbn [fst snd] in Hn. rewrite seq_nth in Hn by lia. exact Hn. }
  assert (Hmk : forall k, (k < length res)%nat -> is_mask (at_ All (U b) k) = false).
  { intros k Hlt. rewrite Forall_forall in HU. apply HU. apply nth_In. lia. }
  rewrite HK, Nat.min_id in Hlen.
  rewrite !length_map. split; [exact Hlen|]. split; [exact Hlen|]. split.
  - apply Forall_forall. intros u Hu. apply in_map_iff in Hu.
    destruct Hu as ([[lp u'] T] & <- & Hin). cbn [fst snd].
    apply (In_nth _ _ d0) in Hin. destruct Hin as (k & Hlt & Hnth).
    pose proof (Hk k Hlt) as Hs. rewrite Hnth in Hs.
    exact (proj1 (@Esum_shape _ _ _ _ _ _ _ _ _ (Hmk k Hlt) Hshape Hs)).
  - intros k Hlt. rewrite <- Hlen in Hlt. unfold at_ at 1 2 3.
    change (@nil fl) with (fst (fst d0)).
    rewrite (map_nth (fun r : vec * nbh * cov_arg => fst (fst r))).
    change All with (snd (fst d0)) at 1 2.
    rewrite !(map_nth (fun r : vec * nbh * cov_arg => snd (fst r))).
    pose proof (Hk k Hlt) as Hs.
    destruct (nth k res d0) as [[lp u'] T]. cbn [fst snd].
    exact (proj2 (@Esum_shape _ _ _ _ _ _ _ _ _ (Hmk k Hlt) Hshape Hs)).
Qed.

End EstepShapes.

(** ** The exits of the driver *)

Section DriverExits.

Context {np : NumPy}.
Variable X : Type.
Variable step : GMM -> buffers -> X -> nat -> option fl ->
                result (fl * nat * nat * GMM * buffers * X).

(** The reports only grow along the loop. *)
Lemma EM_loop_reports_grow maxiter cutoff cnd sc tol : forall fuel (st st' : em_state X),
  EM_loop step fuel maxiter cutoff cnd sc tol st = Some (Ok st') ->
  (length (e_out st) <= length (e_out st'))%nat.
Proof.
  induction fuel as [|fuel IH]; intros st st' Hrun; cbn [EM_loop] in Hrun.
  - destruct (e_it st <? maxiter)%nat; [discriminate|]. inversion Hrun; subst. lia.
  - destruct (e_it st <? maxiter)%nat; [|inversion Hrun; subst; lia].
    destruct (EM_iteration step cutoff cnd sc tol st) as [[s1|s1]|e] eqn:Hit;
      [| |discriminate].
    + apply IH in Hrun. apply EM_iteration_counts in Hit. cbn [after] in Hit. lia.
    + inversion Hrun; subst. apply EM_iteration_counts in Hit. cbn [after] in Hit. lia.
Qed.

(** The first iteration goes on to a second one. *)
Lemma EM_first_iteration cutoff cnd sc tol (st : em_state X) f :
  e_it st = 0%nat -> EM_iteration step cutoff cnd sc tol st = Ok f ->
  exists st', f = Next st'.
Proof.
  intros H0 Hf. pose proof Hf as Hi. apply EM_iteration_inv in Hi.
  destruct Hi as (l1 & N1 & N21 & g1 & b1 & x1 & sh & Hstep & Hsh).
  rewrite (@EM_iteration_cases _ _ step cutoff _ sc tol st _ _ _ _ _ _ _ Hstep Hsh) in Hf.
  rewrite H0 in Hf at 1. cbn [Nat.ltb Nat.leb andb] in Hf.
  apply Ok_inj in Hf. eexists. symmetry. exact Hf.
Qed.

(** A run of [_EM] that returns has executed the step at least twice:
    no test stops the loop in its first iteration, and the cap on the
    iterations is at least 100. *)
Theorem EM_runs_two_iterations (gmm : GMM) (buf : buffers) (x : X) (cutoff : option fl)
        (tol : fl) (st' : em_state X) :
  EM_with step gmm buf x cutoff tol = Ok st' -> (2 <= length (e_out st'))%nat.
Proof.
  unfold EM_with. intro Hrun.
  destruct (EM_loop step (maxiter_of gmm) (maxiter_of gmm) cutoff (cutoff_nd_of gmm cutoff)
                    (shift_cutoff_of gmm cutoff) tol (EM_init gmm buf x))
    as [r|] eqn:Hloop; [|discriminate]. subst r.
  assert (Hm : (100 <= maxiter_of gmm)%nat) by (unfold maxiter_of; lia).
  destruct (maxiter_of gmm) as [|[|m]] eqn:Em; [lia|lia|].
  cbn [EM_loop] in Hloop.
  replace (e_it (EM_init gmm buf x) <? S (S m))%nat with true in Hloop by reflexivity.
  destruct (EM_iteration step cutoff (cutoff_nd_of gmm cutoff) (shift_cutoff_of gmm cutoff)
                         tol (EM_init gmm buf x)) as [f|e] eqn:Hit; [|discriminate].
  destruct (@EM_first_iteration cutoff _ _ tol (EM_init gmm buf x) f eq_refl Hit) as [s1 ->].
  pose proof Hit as Hc. apply EM_iteration_counts in Hc. destruct Hc as [Ho Hi].
  cbn [after EM_init e_out e_it length] in Ho, Hi.
  rewrite Hi in Hloop.
  replace (1 <? S (S m))%nat with true in Hloop by (symmetry; apply Nat.ltb_lt; lia).
  destruct (EM_iteration step cutoff (cutoff_nd_of gmm cutoff) (shift_cutoff_of gmm cutoff)
                         tol s1) as [[s2|s2]|e] eqn:Hit2; [| |discriminate].
  - apply EM_loop_reports_grow in Hloop. apply EM_iteration_counts in Hit2.
    cbn [after] in Hit2. lia.
  - inversion Hloop; subst. apply EM_iteration_counts in Hit2. cbn [after] in Hit2. lia.
Qed.

(** When the log-likelihood [l1] of an iteration after the first lies
    within the tolerance of the one before, neither above nor below, and
    no component has moved beyond the threshold, the driver returns at
    once with the log-likelihood, the mixture and the arrays of this
    iteration. *)
Theorem convergence_returns_current
        (gmm : GMM) (buf : buffers) (x : X) (cutoff : option fl) (tol : fl)
        (st : em_state X) l1 N1 N21 g1 b1 x1 shift2 :
  let maxiter := maxiter_of gmm in
  let cnd := cutoff_nd_of gmm cutoff in
  let sc := shift_cutoff_of gmm cutoff in
  loop_head step maxiter cutoff cnd sc tol (EM_init gmm buf x) st ->
  (0 < e_it st < maxiter)%nat ->
  step (e_gmm st) (e_buf st) (e_x st) (e_N2 st) cnd = Ok (l1, N1, N21, g1, b1, x1) ->
  shift2_of g1 (e_gmm_ st) = Ok shift2 ->
  fltb l1 (e_log_L st + tol)%fl = true ->
  fltb l1 (e_log_L st - tol)%fl = false ->
  moved_of shift2 sc = [] ->
  exists st',
    EM_with step gmm buf x cutoff tol = Ok st'
    /\ e_gmm st' = g1 /\ e_log_L st' = l1 /\ e_buf st' = b1 /\ e_x st' = x1
    /\ e_N st' = N1 /\ e_N2 st' = N21
    /\ length (e_out st') = S (e_it st).
Proof.
  intros maxiter cnd sc Hhead [Hpos Hlt] Hstep Hshift Hup Hdown Hmoved.
  assert (Hout : length (e_out st) = e_it st).
  { clear - Hhead. induction Hhead as [|a a' _ IH _ Hit]; [reflexivity|].
    apply EM_iteration_counts in Hit. destruct Hit as [Ho Hi]. cbn [after] in Ho, Hi. lia. }
  pose proof (@EM_iteration_cases _ _ step cutoff _ sc tol st _ _ _ _ _ _ _ Hstep Hshift)
    as Hcase.
  cbv zeta in Hcase. apply Nat.ltb_lt in Hpos.
  rewrite Hpos, Hup, Hdown, Hmoved in Hcase. cbn [andb length Nat.eqb] in Hcase.
  eexists. split.
  - unfold EM_with. fold maxiter cnd sc.
    pose proof (loop_head_run Hhead (maxiter - e_it st)) as Hrun.
    replace (maxiter - e_it st + (e_it st - e_it (EM_init gmm buf x)))%nat
      with maxiter in Hrun by (cbn [EM_init e_it]; lia).
    rewrite Hrun.
    destruct (maxiter - e_it st)%nat as [|fuel] eqn:Ef; [lia|].
    cbn [EM_loop]. apply Nat.ltb_lt in Hlt. rewrite Hlt, Hcase. reflexivity.
  - cbn [e_gmm e_log_L e_out e_buf e_x e_N e_N2]. rewrite length_app, Hout.
    cbn [length]. repeat split; lia.
Qed.

End DriverExits.

(** ** What a fit without a selection leaves of the generator *)

Section FitGenerator.

Context {np : NumPy} {R : RandomState}.

(** Without a selection the step draws nothing and imputes nothing. *)
Lemma EMstep_keeps_rng data cov covar_callback w altered gmm b x N2 cutoff
      log_L N N2' gmm' b' x' :
  _EMstep data cov None covar_callback w altered gmm b x N2 cutoff
  = Ok (log_L, N, N2', gmm', b', x') ->
  snd x' = snd x /\ N2' = N2.
Proof.
  unfold _EMstep. destruct x as [background st]. intro Hs.
  apply bind_Ok in Hs. destruct Hs as ([l b1] & _ & Hs).
  apply bind_Ok in Hs. destruct Hs as (s & _ & Hs).
  cbn [bind] in Hs.
  destruct (_update gmm s (length (H b1)) None N2 w altered background) as [g bg] eqn:Eu.
  inversion Hs; subst. split; reflexivity.
Qed.

Lemma EM_keeps_rng data cov covar_callback w altered gmm buf x cutoff tol e :
  _EM data cov None covar_callback w altered gmm buf x cutoff tol = Ok e ->
  snd (e_x e) = snd x.
Proof.
  unfold _EM. intro He.
  refine (@EM_with_extra _ _ _ (fun y => snd y = snd x) _ _ _ _ _ _ _ eq_refl He).
  intros g b0 y n c l N n' g' b' y' Hy Hs. apply EMstep_keeps_rng in Hs.
  rewrite (proj1 Hs). exact Hy.
Qed.

Lemma snm_loop_keeps_rng findSNM data cov a cutoff :
  a_sel_callback a = None ->
  forall n gmm buf x log_L N N2 r,
    snm_loop findSNM data cov a cutoff n gmm buf x log_L N N2 = Ok r ->
    f_rng r = snd x.
Proof.
  intro Hsel.
  induction n as [|n IH]; intros gmm buf x log_L N N2 r Hr; cbn [snm_loop] in Hr.
  - apply Ok_inj in Hr. subst r. reflexivity.
  - destruct (3 <=? K gmm)%nat.
    2:{ apply Ok_inj in Hr. subst r. reflexivity. }
    apply bind_Ok in Hr. destruct Hr as (U_ & _ & Hr).
    apply bind_Ok in Hr. destruct Hr as ([altered cleanup] & _ & Hr). cbv beta iota in Hr.
    apply bind_Ok in Hr. destruct Hr as ([gmm1 U1] & _ & Hr). cbv beta iota in Hr.
    apply bind_Ok in Hr. destruct Hr as (e1 & He1 & Hr).
    apply bind_Ok in Hr. destruct Hr as (e2 & He2 & Hr).
    rewrite Hsel in He1, He2.
    apply EM_keeps_rng in He1. apply EM_keeps_rng in He2.
    cbv zeta in Hr. destruct (fgeb log_L (e_log_L e2)).
    + apply Ok_inj in Hr. subst r. cbn [f_rng]. congruence.
    + apply IH in Hr. congruence.
Qed.

(** A fit without a selection and without an initialisation callback
    draws no random numbers: it leaves the generator in the state in
    which it found it, with or without a background, a cutoff, or rounds
    of split and merge. *)
Theorem fit_without_selection_keeps_rng (findSNM : findSNM_t) (gmm : GMM)
        (data : list vec) (cov : cov_arg) (a : fit_args) (st : rng_t) (r : fitted) :
  a_init_callback a = None -> a_sel_callback a = None ->
  fit findSNM gmm data cov a st = Ok r ->
  f_rng r = st.
Proof.
  intros Hinit Hsel. unfold fit. rewrite Hinit. cbn [bind]. intro Hr.
  destruct (_ && _ && _); [discriminate|].
  apply bind_Ok in Hr. destruct Hr as (e & He & Hr).
  rewrite Hsel in He. apply EM_keeps_rng in He. cbn [snd] in He.
  apply (snm_loop_keeps_rng _ _ _ _ _ Hsel) in Hr. congruence.
Qed.

End FitGenerator.

(** ** The draws of the background *)

Lemma fle_draw (lo hi u : fl) :
  fle lo hi -> unit_interval u ->
  fle lo (lo + (hi - lo) * u)%fl /\ fle (lo + (hi - lo) * u)%fl hi.
Proof.
  destruct lo as [a| |], hi as [b| |], u as [q| |]; cbn [fle unit_interval]; try tauto.
  intros Hab [H0 H1]. unfold fsub, fneg, fmul, fadd, fle.
  rewrite !Qred_correct. split; nra.
Qed.

Section BackgroundDraw.

Context {R : RandomState}.

(** [Background.draw] returns as many points as the generator gives it
    rows; where the footprint is a box with finite corners, the lower
    not above the upper in any coordinate, and the generator's numbers
    lie in [[0, 1)], every point lies in the footprint. *)
Theorem bg_draw_in_footprint (b : Background) (size : nat) (st : rng_t) :
  Forall2 fle (fst (footprint b)) (snd (footprint b)) ->
  Forall (fun r => length r = length (fst (footprint b)) /\ Forall unit_interval r)
         (fst (rng_rand size (length (fst (footprint b))) st)) ->
  length (fst (bg_draw b size st))
  = length (fst (rng_rand size (length (fst (footprint b))) st))
  /\ Forall (fun x => Forall2 fle (fst (footprint b)) x
                      /\ Forall2 fle x (snd (footprint b)))
            (fst (bg_draw b size st)).
Proof.
  intros Hbox Hu. unfold bg_draw.
  destruct (rng_rand size (length (fst (footprint b))) st) as [u st1]. cbn [fst] in *.
  rewrite length_map. split; [reflexivity|].
  apply Forall_map. eapply Forall_impl; [|exact Hu].
  intros r [Hlen Hr]. cbn beta.
  destruct (footprint b) as [lo hi]. cbn [fst snd] in *.
  clear Hu. revert r Hlen Hr.
  induction Hbox as [|l h lo hi Hlh Hbox IH]; intros [|q r] Hlen Hr;
    cbn [length] in Hlen; try discriminate.
  - split; constructor.
  - inversion Hr as [|q' r' Hq Hr']; subst.
    destruct (IH r ltac:(lia) Hr') as [H1 H2].
    destruct (@fle_draw l h q Hlh Hq) as [Hl Hh].
    unfold vadd, vsub, zipWith in *. cbn [combine map uncurry fst snd].
    split; constructor; assumption.
Qed.

End BackgroundDraw.

(** ** Stacking of fitted mixtures *)

Section StackFitProps.

Context {np : NumPy} {R : RandomState}.

Lemma fit_shape findSNM gmm data cov a st r :
  a_init_callback a = None ->
  fit findSNM gmm data cov a st = Ok r ->
  K (f_gmm r) = K gmm /\ D (f_gmm r) = D gmm.
Proof.
  intros Hinit Hr. unfold fit in Hr. rewrite Hinit in Hr. cbn [bind] in Hr.
  destruct (_ && _ && _); [discriminate|].
  apply bind_Ok in Hr. destruct Hr as (e & He & Hr).
  pose proof (EM_K _ _ _ _ _ _ _ _ _ _ _ He) as HK.
  pose proof (EM_D _ _ _ _ _ _ _ _ _ _ _ He) as HD.
  apply snm_loop_K in Hr. destruct Hr as [HK' HD']. split; congruence.
Qed.

Lemma cv_folds_D findSNM cpu_count L gmm0 bg_amp0 data cov a rng_state :
  a_init_callback a = None ->
  forall folds c c',
    D (cv_gmm c) = D gmm0 ->
    cv_folds findSNM cpu_count L folds gmm0 bg_amp0 data cov a rng_state c = Ok c' ->
    D (cv_gmm c') = D gmm0.
Proof.
  intros Hinit. induction folds as [|i folds IH]; intros c c' HD Hc; cbn [cv_folds] in Hc.
  - apply Ok_inj in Hc. subst c'. exact HD.
  - apply bind_Ok in Hc. destruct Hc as (r & Hfit & Hc).
    apply bind_Ok in Hc. destruct Hc as (ll & _ & Hc).
    apply fit_shape in Hfit; [|exact Hinit].
    apply IH in Hc; [exact Hc|]. cbn [cv_gmm assign D]. destruct Hfit as [_ Hd]. congruence.
Qed.

(** [cv_fit] refuses an initialisation callback, and leaves a mixture of
    the size it was given. *)
Lemma cv_fit_shape findSNM cpu_count gmm data L cov a st c :
  cv_fit findSNM cpu_count gmm data L cov a st = Ok c ->
  a_init_callback a = None /\ K (cv_gmm c) = K gmm /\ D (cv_gmm c) = D gmm.
Proof.
  unfold cv_fit. destruct (a_init_callback a) eqn:Hinit; [discriminate|]. cbv zeta.
  intro Hc. split; [reflexivity|]. split.
  - apply cv_folds_restores in Hc.
    + destruct Hc as [(Ha & _) _]. unfold K. rewrite Ha. reflexivity.
    + intros bg Ea. rewrite Ea. reflexivity.
    + cbn [cv_gmm assign amp mean covar]. auto.
    + cbn [cv_background]. auto.
  - apply cv_folds_D in Hc; [exact Hc|exact Hinit|reflexivity].
Qed.

Lemma stack_fit_models_inv findSNM cpu_count data kwargs L :
  forall gmms m st lcvs fitted st',
    stack_fit_models findSNM cpu_count gmms data kwargs L m st = Ok (lcvs, fitted, st') ->
    (length gmms <= length (skipn m kwargs))%nat
    /\ Forall (fun ka => a_init_callback (snd ka) = None)
              (firstn (length gmms) (skipn m kwargs))
    /\ Forall2 (fun g f => K f = K g /\ D f = D g) gmms fitted.
Proof.
  induction gmms as [|g gmms IH]; intros m st lcvs fitted st' Hm; cbn [stack_fit_models] in Hm.
  - apply Ok_inj in Hm. injection Hm as _ <- _. cbn [length firstn].
    split; [lia|]. split; constructor.
  - apply bind_Ok in Hm. destruct Hm as ([cov a] & Hget & Hm). cbv beta iota zeta in Hm.
    apply bind_Ok in Hm. destruct Hm as (c & Hcv & Hm).
    apply bind_Ok in Hm. destruct Hm as (r & Hfit & Hm).
    apply bind_Ok in Hm. destruct Hm as ([[lcvs1 fitted1] st1] & Hrec & Hm).
    cbv beta iota in Hm. apply Ok_inj in Hm. injection Hm as _ <- _.
    apply cv_fit_shape in Hcv. destruct Hcv as (Hinit & HK & HD).
    apply fit_shape in Hfit; [|exact Hinit]. destruct Hfit as [HK' HD'].
    apply IH in Hrec. destruct Hrec as (Hlen & Hall & Hsh).
    rewrite (skipn_get _ _ Hget). cbn [length firstn].
    split; [lia|]. split.
    + constructor; [exact Hinit|exact Hall].
    + constructor; [split; congruence|exact Hsh].
Qed.

Lemma stack_shape (gmms : list GMM) (weights : vec) (g : GMM) :
  stack gmms weights = Ok g ->
  gmms <> [] /\ K g = list_sum (map K gmms) /\ Forall (fun m => D m = D g) gmms.
Proof.
  unfold stack. intro Hs. apply bind_Ok in Hs. destruct Hs as (g0 & Hg0 & Hs).
  apply bind_Ok in Hs. destruct Hs as (r & Hr & Hs). apply Ok_inj in Hs. subst g.
  apply stack_from_inv in Hr. cbn [amp mean covar D skipn app] in Hr.
  destruct Hr as (Ha & _ & _ & Hd & Hall & Hlen). cbn [D]. split.
  - intros ->. discriminate.
  - split.
    + unfold K. cbn [amp]. unfold vdivs. rewrite length_map, Ha. apply length_weighted.
      exact Hlen.
    + rewrite (Hd eq_refl). exact Hall.
Qed.

(** When [stack_fit] returns, there was a mixture to stack, each had
    its entry of [kwargs], none of these had an initialisation callback,
    every mixture has been fitted in place without a change of its size,
    and the stacked mixture has the components of all of them, which
    are of one dimension. *)
Theorem stack_fit_components (findSNM : findSNM_t) (cpu_count : nat) (gmms : list GMM)
        (data : list vec) (kwargs : list (cov_arg * fit_args)) (L : nat) (tol : fl)
        (st : rng_t) (g : GMM) (fitted : list GMM) (st' : rng_t) :
  stack_fit findSNM cpu_count gmms data kwargs L tol st = Ok (g, fitted, st') ->
  gmms <> []
  /\ (length gmms <= length kwargs)%nat
  /\ Forall (fun ka => a_init_callback (snd ka) = None) (firstn (length gmms) kwargs)
  /\ Forall2 (fun g0 f => K f = K g0 /\ D f = D g0) gmms fitted
  /\ K g = list_sum (map K gmms)
  /\ Forall (fun m => D m = D g) gmms.
Proof.
  unfold stack_fit. intro Hs.
  apply bind_Ok in Hs. destruct Hs as ([[lcvs fitted1] st1] & Hm & Hs). cbv beta iota zeta in Hs.
  apply bind_Ok in Hs. destruct Hs as (beta & _ & Hs).
  apply bind_Ok in Hs. destruct Hs as (stacked & Hst & Hs).
  apply Ok_inj in Hs. injection Hs as <- <- <-.
  apply stack_fit_models_inv in Hm. cbn [skipn] in Hm. destruct Hm as (Hlen & Hinit & Hsh).
  apply stack_shape in Hst. destruct Hst as (Hne & HK & HD).
  split; [intros ->; inversion Hsh; subst; apply Hne; reflexivity|].
  split; [exact Hlen|]. split; [exact Hinit|]. split; [exact Hsh|].
  clear - Hsh HK HD. split.
  - rewrite HK. clear HK HD. induction Hsh as [|g0 f gs fs [Hk _] _ IH]; [reflexivity|].
    cbn [map]. rewrite !list_sum_cons, IH, Hk. reflexivity.
  - clear HK. induction Hsh as [|g0 f gs fs [_ Hd] _ IH]; [constructor|].
    inversion HD; subst. constructor; [congruence|apply IH; assumption].
Qed.

End StackFitProps.

(** ** Initialisation from k-means clusters *)

Lemma set_at_app {A} (pre : list A) (x : A) (post : list A) (v : A) :
  set_at (pre ++ x :: post) (length pre) v = pre ++ v :: post.
Proof.
  induction pre as [|a pre IH]; cbn [app length set_at]; [reflexivity|].
  rewrite IH. reflexivity.
Qed.

(** Assignments to the entries [a, ..., a + n - 1], one after the other. *)
Lemma fold_set_at_seq {A} (f : nat -> A) : forall n a (pre post : list A),
  length pre = a -> length post = n ->
  fold_left (fun l j => set_at l j (f j)) (seq a n) (pre ++ post)
  = pre ++ map f (seq a n).
Proof.
  induction n as [|n IH]; intros a pre post Ha Hn.
  - destruct post; [reflexivity|discriminate].
  - destruct post as [|x post]; [discriminate|]. subst a. cbn [seq fold_left map].
    rewrite set_at_app.
    change (pre ++ f (length pre) :: post) with (pre ++ [f (length pre)] ++ post).
    rewrite app_assoc.
    rewrite (@IH (S (length pre)) (pre ++ [f (length pre)]) post).
    + rewrite <- app_assoc. reflexivity.
    + rewrite length_app. cbn [length]. lia.
    + cbn [length] in Hn. lia.
Qed.

Lemma fold_set_at_all {A} (f : nat -> A) (l : list A) :
  fold_left (fun l j => set_at l j (f j)) (seq 0 (length l)) l = map f (seq 0 (length l)).
Proof. apply (@fold_set_at_seq _ f (length l) 0%nat [] l); reflexivity. Qed.

Lemma count_one (l : nat) : forall m a,
  list_sum (map (fun k => if Nat.eqb l k then 1%nat else 0%nat) (seq a m))
  = if (a <=? l)%nat && (l <? a + m)%nat then 1%nat else 0%nat.
Proof.
  induction m as [|m IHm]; intro a; cbn [seq map].
  - destruct (Nat.leb_spec a l), (Nat.ltb_spec l (a + 0)); cbn [andb]; try reflexivity.
    lia.
  - rewrite list_sum_cons, IHm. destruct (Nat.eqb_spec l a) as [->|Hne].
    + replace (S a <=? a)%nat with false by (symmetry; apply Nat.leb_gt; lia).
      replace (a <=? a)%nat with true by (symmetry; apply Nat.leb_le; lia).
      replace (a <? a + S m)%nat with true by (symmetry; apply Nat.ltb_lt; lia).
      reflexivity.
    + destruct (Nat.leb_spec a l), (Nat.leb_spec (S a) l), (Nat.ltb_spec l (a + S m)),
               (Nat.ltb_spec l (S a + m));
        cbn [andb Nat.add]; try reflexivity; lia.
Qed.

Lemma count_cons (l : nat) (label ks : list nat) :
  list_sum (map (fun k => count_true (map (fun x => Nat.eqb x k) (l :: label))) ks)
  = (list_sum (map (fun k => if Nat.eqb l k then 1%nat else 0%nat) ks)
     + list_sum (map (fun k => count_true (map (fun x => Nat.eqb x k) label)) ks))%nat.
Proof.
  induction ks as [|k ks IH]; [reflexivity|]. cbn [map] in *. rewrite !list_sum_cons, IH.
  unfold count_true. cbn [filter]. destruct (Nat.eqb l k); cbn [length]; lia.
Qed.

(** The labels that are [k], counted over all [k] below [n]. *)
Lemma count_labels (label : list nat) (n : nat) :
  Forall (fun l => (l < n)%nat) label ->
  list_sum (map (fun k => count_true (map (fun l => Nat.eqb l k) label)) (seq 0 n))
  = length label.
Proof.
  induction 1 as [|l label Hl _ IH].
  - cbn [map length]. induction (seq 0 n) as [|k ks IHk]; [reflexivity|].
    cbn [map]. rewrite list_sum_cons, IHk. reflexivity.
  - rewrite count_cons, IH, count_one. cbn [Nat.leb andb Nat.add length].
    replace (l <? n)%nat with true by (symmetry; apply Nat.ltb_lt; exact Hl).
    reflexivity.
Qed.

Section InitKMeansProps.

Variable kmeans2 : list vec -> nat -> list vec * list nat.

(** The arrays that [initFromKMeans] leaves, entry by entry. *)
Lemma initFromKMeans_arrays (gmm : GMM) (data : list vec) :
  let label := snd (kmeans2 data (K gmm)) in
  let mask k := map (fun l => Nat.eqb l k) label in
  let g := initFromKMeans kmeans2 gmm data in
  amp g = map (fun k => (of_nat (count_true (mask k)) * f1 / of_nat (length data))%fl)
              (seq 0 (K gmm))
  /\ (length (mean gmm) = K gmm ->
      mean g = map (fun k => cluster_mean (D gmm) (take_mask data (mask k)))
                   (seq 0 (K gmm))).
Proof.
  cbv zeta. unfold initFromKMeans. destruct (kmeans2 data (K gmm)) as [center label].
  cbn [snd].
  set (fa := fun k => (of_nat (count_true (map (fun l => Nat.eqb l k) label)) * f1
                       / of_nat (length data))%fl).
  set (fm := fun k => cluster_mean (D gmm)
                        (take_mask data (map (fun l => Nat.eqb l k) label))).
  match goal with
  | |- context [fold_left ?step _ _] =>
      assert (Hfold : forall ks g,
                 amp (fold_left step ks g)
                 = fold_left (fun l j => set_at l j (fa j)) ks (amp g)
                 /\ mean (fold_left step ks g)
                    = fold_left (fun l j => set_at l j (fm j)) ks (mean g))
  end.
  { induction ks as [|k ks IH]; intro g; cbn [fold_left]; [split; reflexivity|].
    destruct (IH (mkGMM (set_at (amp g) k (fa k)) (set_at (mean g) k (fm k))
                        (set_at (covar g) k
                           (mdivs (msum (D gmm)
                                     (map (fun d => outer d d)
                                        (map (fun x => vsub x (fm k))
                                           (take_mask data
                                              (map (fun l => Nat.eqb l k) label)))))
                                  (of_nat (length data))))
                        (D g))) as [Ha Hm].
    split; [exact Ha|exact Hm]. }
  destruct (Hfold (seq 0 (K gmm)) gmm) as [Ha Hm]. split.
  - rewrite Ha. unfold K. apply fold_set_at_all.
  - intro Hlen. rewrite Hm, <- Hlen. apply fold_set_at_all.
Qed.

(** When every sample has the label of one of the [K] clusters, the
    amplitudes that [initFromKMeans] sets are the fractions of the samples
    in the clusters: finite, not negative, and of sum 1. *)
Theorem initFromKMeans_amplitudes (gmm : GMM) (data : list vec) :
  let label := snd (kmeans2 data (K gmm)) in
  data <> [] -> length label = length data ->
  Forall (fun l => (l < K gmm)%nat) label ->
  let g := initFromKMeans kmeans2 gmm data in
  K g = K gmm /\ Forall nonneg (amp g) /\ feq (fsum (amp g)) f1.
Proof.
  cbv zeta. intros Hne Hlen Hlab.
  destruct (initFromKMeans_arrays gmm data) as [Ha _]. cbv zeta in Ha.
  set (label := snd (kmeans2 data (K gmm))) in *.
  set (c := fun k => count_true (map (fun l => Nat.eqb l k) label)) in *.
  assert (HN : (0 < length data)%nat) by (destruct data; [congruence|cbn; lia]).
  set (N := length data) in *.
  assert (Hpos : 0 < inject_Z (Z.of_nat N)).
  { change 0 with (inject_Z 0). rewrite <- Zlt_Qlt. lia. }
  assert (Hamp : forall n, exists q,
             (of_nat n * f1 / of_nat N)%fl = Fin q
             /\ q == inject_Z (Z.of_nat n) / inject_Z (Z.of_nat N)).
  { intro n. unfold of_nat, of_Z, f1, fmul, fdiv.
    replace (Qzero (inject_Z (Z.of_nat N))) with false.
    - eexists. split; [reflexivity|]. rewrite !Qred_correct. field. lra.
    - symmetry. unfold Qzero. apply not_true_is_false. intro E.
      apply Qeq_bool_iff in E. lra. }
  assert (Hsum : forall ks,
             Forall nonneg (map (fun k => (of_nat (c k) * f1 / of_nat N)%fl) ks)
             /\ Qsum (map (fun k => (of_nat (c k) * f1 / of_nat N)%fl) ks)
                == inject_Z (Z.of_nat (list_sum (map c ks))) / inject_Z (Z.of_nat N)).
  { induction ks as [|k ks [IHn IHs]]; cbn [map].
    - split; [constructor|]. cbn. field. lra.
    - rewrite list_sum_cons. cbn [Qsum fold_right].
      destruct (Hamp (c k)) as (q & -> & Eq). split.
      + constructor; [|exact IHn]. cbn [nonneg]. rewrite Eq.
        apply Qle_shift_div_l; [exact Hpos|]. rewrite Qmult_0_l.
        change 0 with (inject_Z 0). rewrite <- Zle_Qle. lia.
      + fold (Qsum (map (fun k0 => (of_nat (c k0) * f1 / of_nat N)%fl) ks)).
        rewrite IHs. cbn [toQ]. rewrite Eq, Nat2Z.inj_add, inject_Z_plus. field. lra. }
  destruct (Hsum (seq 0 (K gmm))) as [Hn Hs].
  split; [unfold K at 1; rewrite Ha, length_map, length_seq; reflexivity|].
  rewrite Ha. split; [exact Hn|].
  change (feq (fsum (map (fun k => (of_nat (c k) * f1 / of_nat N)%fl) (seq 0 (K gmm)))) f1).
  destruct (fsum_Fin Hn) as (q & Hq & Eq). rewrite Hq. cbn [feq f1].
  rewrite Eq, Hs. unfold c. rewrite (count_labels Hlab), Hlen. field. lra.
Qed.

(** A cluster without samples leaves its component with a mean that is
    NaN in every coordinate, at amplitude 0. *)
Theorem initFromKMeans_empty_cluster (gmm : GMM) (data : list vec) (k : nat) :
  length (mean gmm) = K gmm -> (k < K gmm)%nat ->
  ~ In k (snd (kmeans2 data (K gmm))) ->
  let g := initFromKMeans kmeans2 gmm data in
  at_ [] (mean g) k = repeat NaN (D gmm)
  /\ (data <> [] -> feq (at_ NaN (amp g) k) f0).
Proof.
  cbv zeta. intros Hlen Hk Hnot.
  destruct (initFromKMeans_arrays gmm data) as [Ha Hm]. cbv zeta in Ha, Hm.
  specialize (Hm Hlen).
  set (label := snd (kmeans2 data (K gmm))) in *.
  assert (Hmask : map (fun l => Nat.eqb l k) label = map (fun _ => false) label).
  { apply map_ext_in. intros l Hl. apply Nat.eqb_neq. intros ->. exact (Hnot Hl). }
  assert (Hmem : take_mask data (map (fun _ : nat => false) label) = []).
  { clear. generalize label. induction data as [|x data IH]; intros [|l ls];
      cbn [map take_mask]; auto. }
  assert (Hcnt : count_true (map (fun _ : nat => false) label) = 0%nat).
  { clear. unfold count_true. induction label as [|l ls IH]; cbn [map filter]; auto. }
  split.
  - rewrite Hm, (@at_map_seq vec [] _ _ _ Hk), Hmask, Hmem. unfold cluster_mean, vsum, vdivs, zeros. cbn [fold_left length].
    clear. induction (D gmm) as [|d IH]; [reflexivity|]. cbn [repeat map]. rewrite IH.
    reflexivity.
  - intro Hne. rewrite Ha, (at_map_seq NaN _ Hk), Hmask, Hcnt.
    assert (HN : (0 < length data)%nat) by (destruct data; [congruence|cbn; lia]).
    unfold of_nat, of_Z, f1, fmul, fdiv.
    replace (Qzero (inject_Z (Z.of_nat (length data)))) with false.
    + cbn [feq f0]. rewrite !Qred_correct. unfold Qdiv. rewrite !Qmult_0_l. reflexivity.
    + symmetry. unfold Qzero. apply not_true_is_false. intro E.
      apply Qeq_bool_iff in E.
      assert (0 < inject_Z (Z.of_nat (length data)))
        by (change 0 with (inject_Z 0); rewrite <- Zlt_Qlt; lia).
      lra.
Qed.

End InitKMeansProps.

Section FurtherRuns.

Import Rational Inputs MoreInputs.

Lemma Estep_log_p_per_sample_witness :
  exists log_L b',
    _Estep unit_gmm (new_buffers unit_gmm far_data) far_data NoCov None (Some (Fin 9))
    = Ok (log_L, b')
    /\ U b' = [Idx [0; 1]%nat] /\ length (at_ [] (log_p b') 0) = 2%nat.
Proof.
  destruct (_Estep unit_gmm (new_buffers unit_gmm far_data) far_data NoCov None
                   (Some (Fin 9))) as [[log_L b']|e] eqn:He;
    [|vm_compute in He; discriminate].
  exists log_L, b'. split; [reflexivity|].
  destruct (@Estep_log_p_per_sample numpy unit_gmm (new_buffers unit_gmm far_data)
              far_data NoCov (Some (Fin 9)) log_L b') as (_ & _ & _ & Hk).
  - reflexivity.
  - repeat constructor.
  - exact I.
  - exact He.
  - assert (HU : U b' = [Idx [0; 1]%nat]).
    { vm_compute in He. apply Ok_inj in He. injection He as _ <-. reflexivity. }
    split; [exact HU|].
    destruct (Hk 0%nat) as [Hl _]; [vm_compute; lia|].
    rewrite Hl, HU. reflexivity.
Defined.

Lemma EM_runs_two_iterations_witness :
  exists st',
    EM_with far_step unit_gmm (new_buffers unit_gmm far_data) (@None Background, 0%nat)
            (Some (Fin 3)) tol3 = Ok st'
    /\ (2 <= length (e_out st'))%nat.
Proof.
  destruct (EM_with far_step unit_gmm (new_buffers unit_gmm far_data)
                    (@None Background, 0%nat) (Some (Fin 3)) tol3) as [st'|e] eqn:He;
    [|vm_compute in He; discriminate].
  exists st'. split; [reflexivity|].
  exact (@EM_runs_two_iterations _ _ far_step unit_gmm (new_buffers unit_gmm far_data)
           (@None Background, 0%nat) (Some (Fin 3)) tol3 st' He).
Defined.

Lemma convergence_returns_current_witness :
  exists st',
    EM_with fitted_step unit_gmm (new_buffers unit_gmm fitted_data)
            (@None Background, 0%nat) None tol3 = Ok st'
    /\ e_gmm st' = unit_gmm /\ length (e_out st') = 2%nat.
Proof.
  edestruct (@convergence_returns_current _ _ fitted_step unit_gmm
               (new_buffers unit_gmm fitted_data) (@None Background, 0%nat)
               None tol3 fitted_second)
    as (st' & Hrun & Hg & _ & _ & _ & _ & _ & Hout).
  - eapply head_next; [apply head_first| |].
    + vm_compute. lia.
    + vm_compute. reflexivity.
  - vm_compute. lia.
  - vm_compute. reflexivity.
  - vm_compute. reflexivity.
  - vm_compute. reflexivity.
  - vm_compute. reflexivity.
  - vm_compute. reflexivity.
  - exists st'. split; [exact Hrun|]. split; [exact Hg|exact Hout].
Defined.

Lemma fit_without_selection_keeps_rng_witness :
  exists r,
    fit no_choice twin_gmm fitted_data NoCov snm_args 7%nat = Ok r /\ f_rng r = 7%nat.
Proof.
  destruct (fit no_choice twin_gmm fitted_data NoCov snm_args 7%nat) as [r|e] eqn:Hr;
    [|vm_compute in Hr; discriminate].
  exists r. split; [reflexivity|].
  exact (@fit_without_selection_keeps_rng numpy counter no_choice twin_gmm fitted_data
           NoCov snm_args 7%nat r eq_refl eq_refl Hr).
Defined.

Lemma bg_draw_in_footprint_witness :
  length (fst (bg_draw flat_background 2 0%nat)) = 2%nat
  /\ Forall (fun x => Forall2 fle [Fin (-4)] x /\ Forall2 fle x [Fin 4])
            (fst (bg_draw flat_background 2 0%nat)).
Proof.
  apply (@bg_draw_in_footprint counter flat_background 2%nat 0%nat).
  - constructor; [|constructor]. vm_compute. discriminate.
  - repeat constructor; vm_compute; try reflexivity; discriminate.
Defined.

Lemma stack_fit_components_witness :
  exists g fitted st',
    stack_fit no_choice 1 [unit_gmm; unit_gmm] folded_data
              [(NoCov, cv_args); (NoCov, cv_args)] 2 tol3 0%nat = Ok (g, fitted, st')
    /\ K g = 2%nat /\ length fitted = 2%nat.
Proof.
  destruct (stack_fit no_choice 1 [unit_gmm; unit_gmm] folded_data
                      [(NoCov, cv_args); (NoCov, cv_args)] 2 tol3 0%nat)
    as [[[g fitted] st']|e] eqn:Hs; [|vm_compute in Hs; discriminate].
  exists g, fitted, st'. split; [reflexivity|].
  destruct (@stack_fit_components numpy counter no_choice 1%nat [unit_gmm; unit_gmm]
              folded_data [(NoCov, cv_args); (NoCov, cv_args)] 2%nat tol3 0%nat
              g fitted st' Hs) as (_ & _ & _ & Hsh & HK & _).
  split; [exact HK|]. apply Forall2_length in Hsh. symmetry. exact Hsh.
Defined.

Lemma initFromKMeans_amplitudes_witness :
  amp (initFromKMeans one_cluster twin_gmm fitted_data) = [f1; f0]
  /\ feq (fsum (amp (initFromKMeans one_cluster twin_gmm fitted_data))) f1.
Proof.
  split; [vm_compute; reflexivity|].
  apply (@initFromKMeans_amplitudes one_cluster twin_gmm fitted_data).
  - discriminate.
  - reflexivity.
  - repeat constructor.
Defined.

Lemma initFromKMeans_empty_cluster_witness :
  at_ [] (mean (initFromKMeans one_cluster twin_gmm fitted_data)) 1 = [NaN].
Proof.
  apply (@initFromKMeans_empty_cluster one_cluster twin_gmm fitted_data 1%nat).
  - reflexivity.
  - vm_compute. lia.
  - vm_compute. intros [H|[H|[]]]; discriminate.
Defined.

End FurtherRuns.
